(** * imq: a message queue over Redis -- verification of the queue core

    A shallow embedding of [src/src/profile.ts] (the [profile] decorator and
    the [RedisQueue] class) and of [src/unnamed/part_000] (the later revision
    of the decorator).

    - JavaScript strings are [string]s, arrays of strings are [list string];
      [undefined] is [None].
    - Redis is a typed key space ([gmap string rvalue]); every command is a
      function on it that may answer with an error reply.
    - Methods that throw, catch and emit run in a small state-and-exception
      monad [Js]; what a method emits, logs or sends to a connection is
      appended to the instance's effect trace.
    - Built-ins of the platform whose code is not part of the repository
      ([JSON], [zlib], [crypto], [Number], [uuid], [Math.random]) are the
      fields of the class [JsRuntime]; [Ecma] writes out what the standards
      say of [JSON.stringify], [JSON.parse] and UTF-8, and the codec round
      trip is proved of every platform that conforms to it. *)

From Stdlib Require Import ZArith QArith Reals Lra Lia List Ascii String Bool.
From Stdlib Require Import Strings.Byte Qround Qreals Psatz.
From stdpp Require Import base option list gmap strings pretty.

Set Warnings "-register-all".

Local Open Scope string_scope.
Local Open Scope Z_scope.
Local Open Scope list_scope.

(** ** JavaScript strings and arrays *)

Module JsString.

(** [s.split(c)] for a one-character separator: never empty, [""] splits
    to [[""]]. *)
Fixpoint split (sep : ascii) (s : string) : list string :=
  match s with
  | EmptyString => [EmptyString]
  | String c rest =>
      if Ascii.eqb c sep then EmptyString :: split sep rest
      else match split sep rest with
           | seg :: segs => String c seg :: segs
           | [] => [String c EmptyString]
           end
  end.

(** [a.join(c)]. *)
Fixpoint join (sep : ascii) (a : list string) : string :=
  match a with
  | [] => EmptyString
  | [x] => x
  | x :: rest => x +:+ String sep (join sep rest)
  end.

(** [a.pop()]: the last element ([undefined] on the empty array) and the
    array left behind. *)
Definition pop (a : list string) : option string * list string :=
  (last a, removelast a).

(** [a.shift()]: the first element and the array left behind. *)
Definition shift (a : list string) : option string * list string :=
  match a with
  | [] => (None, [])
  | x :: rest => (Some x, rest)
  end.

(** A value inside a template literal: [undefined] prints as the word. *)
Definition template (v : option string) : string :=
  default "undefined" v.

(** No occurrence of the character [c] in [s]. *)
Fixpoint free_of (c : ascii) (s : string) : bool :=
  match s with
  | EmptyString => true
  | String d rest => negb (Ascii.eqb d c) && free_of c rest
  end.

End JsString.

(** ** Exceptions and replies *)

(** What a JavaScript operation can throw or a connection can report. *)
Inductive jserror :=
| TypeError (msg : string)
| SyntaxError (msg : string)
| Error (msg : string).

(** The result of running a statement: it returns or it throws. *)
Inductive outcome (A : Type) :=
| Return (a : A)
| Throw (e : jserror).
Arguments Return {A} a.
Arguments Throw {A} e.

(** ** The Redis server: a typed key space and its commands *)

Module Redis.

(** A sorted set is kept in iteration order: by score, then by member. *)
Inductive rvalue :=
| RString (s : string)
| RList (l : list string)
| RZSet (z : list (Z * string)).

(** [data] holds the values, [expiry] the PX time-to-live a key was given. *)
Record db := mkDb { data : gmap string rvalue; expiry : gmap string Z }.

Definition empty_db : db := mkDb ∅ ∅.

Inductive reply :=
| RErr (msg : string)
| RNil
| RInt (n : Z)
| RBulk (s : string)
| RMulti (l : list string)
| RInts (l : list Z)
| RScan (cursor : string) (keys : list string)
| ROk.

Definition WRONGTYPE : string :=
  "WRONGTYPE Operation against a key holding the wrong kind of value".

(** The commands the queue sends over its connections. *)
Inductive command :=
| LPUSH (key value : string)
| RPOPLPUSH (src dst : string)
| ZADD (key : string) (score : Z) (member : string)
| ZRANGEBYSCORE_INF (key : string) (max : Z)
| ZREMRANGEBYSCORE_INF (key : string) (max : Z)
| SET_PX_NX (key value : string) (px : Z)
| SETNX (key value : string)
| EXISTS (key : string)
| DEL (key : string)
| EVALSHA (sha : string) (keys : list string) (now : Z)
| SCRIPT_EXISTS (sha : string)
| SCRIPT_LOAD (code : string)
| CLIENT_LIST
| CLIENT_SETNAME (name : string)
| CONFIG_SET (param value : string)
| PSUBSCRIBE (patterns : list string)
| SCAN_MATCH (cursor pattern count : string)
| BRPOP (key : string)
| BRPOPLPUSH (src dst : string)
| LRANGE (key : string) (start stop : Z).

(** *** Views: an absent key reads as the empty list or sorted set. *)

Definition list_at (d : db) (k : string) : option (list string) :=
  match data d !! k with
  | None => Some []
  | Some (RList l) => Some l
  | Some _ => None
  end.

Definition zset_at (d : db) (k : string) : option (list (Z * string)) :=
  match data d !! k with
  | None => Some []
  | Some (RZSet z) => Some z
  | Some _ => None
  end.

(** Redis never stores an empty list or sorted set: the key goes away. *)
Definition put_list (k : string) (l : list string) (d : db) : db :=
  match l with
  | [] => mkDb (delete k (data d)) (delete k (expiry d))
  | _ => mkDb (<[k := RList l]> (data d)) (expiry d)
  end.

Definition put_zset (k : string) (z : list (Z * string)) (d : db) : db :=
  match z with
  | [] => mkDb (delete k (data d)) (delete k (expiry d))
  | _ => mkDb (<[k := RZSet z]> (data d)) (expiry d)
  end.

(** *** Sorted sets *)

Definition zle (a b : Z * string) : bool :=
  (a.1 <? b.1) || ((a.1 =? b.1) && String.leb a.2 b.2).

Fixpoint zinsert (e : Z * string) (z : list (Z * string)) : list (Z * string) :=
  match z with
  | [] => [e]
  | x :: rest => if zle e x then e :: z else x :: zinsert e rest
  end.

Definition zremove (m : string) (z : list (Z * string)) : list (Z * string) :=
  List.filter (fun e => negb (String.eqb e.2 m)) z.

Definition zrange_upto (max : Z) (z : list (Z * string)) : list string :=
  List.map snd (List.filter (fun e => e.1 <=? max) z).

Definition zrem_upto (max : Z) (z : list (Z * string)) : list (Z * string) :=
  List.filter (fun e => negb (e.1 <=? max)) z.

(** *** One command against the key space *)

Definition lpush (k v : string) (d : db) : reply * db :=
  match list_at d k with
  | Some l => (RInt (Z.of_nat (S (length l))), put_list k (v :: l) d)
  | None => (RErr WRONGTYPE, d)
  end.

(** [RPOPLPUSH src dst]: the tail of [src] becomes the head of [dst]. *)
Definition rpoplpush (src dst : string) (d : db) : reply * db :=
  match list_at d src with
  | None => (RErr WRONGTYPE, d)
  | Some l =>
      match last l with
      | None => (RNil, d)
      | Some x =>
          match list_at d dst with
          | None => (RErr WRONGTYPE, d)
          | Some _ =>
              let d1 := put_list src (removelast l) d in
              (RMulti [x], put_list dst (x :: default [] (list_at d1 dst)) d1)
          end
      end
  end.

Definition zadd (k : string) (score : Z) (m : string) (d : db) : reply * db :=
  match zset_at d k with
  | Some z =>
      let fresh := forallb (fun e => negb (String.eqb e.2 m)) z in
      (RInt (if fresh then 1 else 0),
       put_zset k (zinsert (score, m) (zremove m z)) d)
  | None => (RErr WRONGTYPE, d)
  end.

Definition zrangebyscore (k : string) (max : Z) (d : db) : reply * db :=
  match zset_at d k with
  | Some z => (RMulti (zrange_upto max z), d)
  | None => (RErr WRONGTYPE, d)
  end.

Definition zremrangebyscore (k : string) (max : Z) (d : db) : reply * db :=
  match zset_at d k with
  | Some z =>
      (RInt (Z.of_nat (length (zrange_upto max z))),
       match zrange_upto max z with
       | [] => d
       | _ => put_zset k (zrem_upto max z) d
       end)
  | None => (RErr WRONGTYPE, d)
  end.

(** [SET key value PX px NX]: only a key that does not exist is written. *)
Definition set_px_nx (k v : string) (px : Z) (d : db) : reply * db :=
  if px <=? 0 then (RErr "ERR invalid expire time in set", d)
  else match data d !! k with
       | Some _ => (RNil, d)
       | None => (ROk, mkDb (<[k := RString v]> (data d)) (<[k := px]> (expiry d)))
       end.

Definition setnx (k v : string) (d : db) : reply * db :=
  match data d !! k with
  | Some _ => (RInt 0, d)
  | None => (RInt 1, mkDb (<[k := RString v]> (data d)) (expiry d))
  end.

Definition has_key (k : string) (d : db) : bool :=
  match data d !! k with Some _ => true | None => false end.

Definition exists_ (k : string) (d : db) : reply * db :=
  (RInt (if has_key k d then 1 else 0), d).

Definition del (k : string) (d : db) : reply * db :=
  (RInt (if has_key k d then 1 else 0),
   mkDb (delete k (data d)) (delete k (expiry d))).

(** *** The [moveDelayed] script *)

(** A script runs [redis.call] one after the other on the key space; an
    error reply ends the script there. *)
Definition Lua (A : Type) : Type := db -> (string + A) * db.

Definition lua_ret {A} (a : A) : Lua A := fun d => (inr a, d).

Definition lua_bind {A B} (m : Lua A) (f : A -> Lua B) : Lua B :=
  fun d => match m d with
           | (inl e, d') => (inl e, d')
           | (inr a, d') => f a d'
           end.

(** [redis.call(...)]: an error reply is raised, any other is the value. *)
Definition redis_call (c : db -> reply * db) : Lua reply :=
  fun d => match c d with
           | (RErr e, d') => (inl e, d')
           | (r, d') => (inr r, d')
           end.

(** The Lua table a multi-bulk reply converts to. *)
Definition lua_table (r : reply) : list string :=
  match r with RMulti l => l | _ => [] end.

(** [while messages[i] do redis.call("lpush", KEYS[2], messages[i]) i = i + 1 end] *)
Fixpoint lpush_each (k : string) (messages : list string) : Lua unit :=
  match messages with
  | [] => lua_ret tt
  | m :: rest => lua_bind (redis_call (lpush k m)) (fun _ => lpush_each k rest)
  end.

(** [scripts.moveDelayed.code], with [KEYS = [KEYS1; KEYS2]] and [ARGV = [ARGV1]]. *)
Definition moveDelayed (KEYS1 KEYS2 : string) (ARGV1 : Z) : Lua Z :=
  lua_bind (redis_call (zrangebyscore KEYS1 ARGV1)) (fun r =>
  let messages := lua_table r in
  let count := Z.of_nat (length messages) in
  if 0 <? count then
    lua_bind (lpush_each KEYS2 messages) (fun _ =>
    lua_bind (redis_call (zremrangebyscore KEYS1 ARGV1)) (fun _ =>
    lua_ret count))
  else lua_ret count).

End Redis.

(** ** The platform: values and built-ins the repository calls but does not define *)

(** The values [JSON.parse] produces. Numbers are kept to the integers: no
    code path of the queue computes with a payload. *)
Inductive json :=
| JNull
| JBool (b : bool)
| JNum (n : Z)
| JStr (s : string)
| JArr (items : list json)
| JObj (fields : list (string * json)).

(** What [Number(s)] evaluates to. *)
Inductive jsnum :=
| NaN
| Num (q : Q)
| Infinity (negative : bool).

(** [x >= n] for an integer [n]: false on [NaN]. *)
Definition jsnum_ge (x : jsnum) (n : Z) : bool :=
  match x with
  | NaN => false
  | Num q => Qle_bool (inject_Z n) q
  | Infinity negative => negb negative
  end.

Class JsRuntime := {
  (** [JSON.stringify(v)] and [JSON.parse(s)] *)
  JSON_stringify : json -> string;
  JSON_parse : string -> outcome json;
  (** [zlib.gzipSync(buf)] and [zlib.gunzipSync(buf)] *)
  gzip : list byte -> list byte;
  gunzip : list byte -> outcome (list byte);
  (** [Buffer.from(s)] and [buf.toString()]: UTF-8 *)
  utf8_encode : string -> list byte;
  utf8_decode : list byte -> string;
  (** [Number(s)] *)
  Number : string -> jsnum;
  (** [crypto.createHash('sha1').update(s).digest('hex')] *)
  sha1 : string -> string;
  (** [uuid()]: the identifier handed out by the n-th call *)
  uuid : nat -> string;
}.

(** ** The state-and-exception monad of a method body *)

Definition Js (S A : Type) : Type := S -> outcome A * S.

Definition ret {S A} (a : A) : Js S A := fun s => (Return a, s).

Definition throw {S A} (e : jserror) : Js S A := fun s => (Throw e, s).

Definition bind {S A B} (m : Js S A) (f : A -> Js S B) : Js S B :=
  fun s => match m s with
           | (Return a, s') => f a s'
           | (Throw e, s') => (Throw e, s')
           end.

(** [try { body } catch (err) { handler }] *)
Definition try_catch {S A} (body : Js S A) (handler : jserror -> Js S A) : Js S A :=
  fun s => match body s with
           | (Throw e, s') => handler e s'
           | r => r
           end.

(** Start a promise and keep how it settles. *)
Definition settle {S A} (m : Js S A) : Js S (outcome A) :=
  fun s => match m s with (o, s') => (Return o, s') end.

Definition gets {S A} (f : S -> A) : Js S A := fun s => (Return (f s), s).

Definition modify {S} (f : S -> S) : Js S unit := fun s => (Return tt, f s).

Definition when {S} (b : bool) (m : Js S unit) : Js S unit :=
  if b then m else ret tt.

Declare Scope js_scope.
Delimit Scope js_scope with js.
Notation "x <- m ;; k" := (bind m (fun x => k))
  (at level 20, m at level 99, k at level 200, only parsing) : js_scope.
Notation "m ;; k" := (bind m (fun _ => k))
  (at level 100, k at level 200, right associativity, only parsing) : js_scope.
Local Open Scope js_scope.

(** ** The codec *)

Module Codec.
Section WithRuntime.
Context {rt : JsRuntime}.

(** [gzip(JSON.stringify(data)).toString('binary')] *)
Definition pack (data : json) : string :=
  string_of_list_byte (gzip (utf8_encode (JSON_stringify data))).

(** [JSON.parse(gunzip(Buffer.from(data, 'binary')).toString())] *)
Definition unpack (data : string) : outcome json :=
  match gunzip (list_byte_of_string data) with
  | Return buf => JSON_parse (utf8_decode buf)
  | Throw e => Throw e
  end.

(** The constructor's choice: [useGzip ? pack : JSON.stringify] and
    [useGzip ? unpack : JSON.parse]. *)
Definition select_pack (useGzip : bool) : json -> string :=
  if useGzip then pack else JSON_stringify.

Definition select_unpack (useGzip : bool) : string -> outcome json :=
  if useGzip then unpack else JSON_parse.

(** What the platform is trusted with at a value [x]: [JSON.parse] reads
    back what [JSON.stringify] wrote. *)
Definition json_representable (x : json) : Prop :=
  JSON_parse (JSON_stringify x) = Return x.

(** [gunzip] undoes [gzip] on the UTF-8 bytes of a text, and the bytes
    decode to the text. *)
Definition gzip_faithful (text : string) : Prop :=
  gunzip (gzip (utf8_encode text)) = Return (utf8_encode text) /\
  utf8_decode (utf8_encode text) = text.

End WithRuntime.
End Codec.

(** ** The queue: state, effects and methods of [RedisQueue] *)

Module Queue.
Import JsString.

Record IMQOptions := mkOptions {
  host : string;
  port : Z;
  prefix : string;
  watcherCheckDelay : Z;
  useGzip : bool;
  safeDelivery : bool;
  safeDeliveryTtl : Z;
}.

Definition DEFAULT_IMQ_OPTIONS : IMQOptions :=
  {| host := "localhost"; port := 6379; prefix := "imq";
     watcherCheckDelay := 5000; useGzip := false;
     safeDelivery := false; safeDeliveryTtl := 5000 |}.

Inductive channel := Reader | Writer | Watcher.

(** The events of the queue's [EventEmitter] surface. An argument that is
    [undefined] is [None]. *)
Inductive event :=
| message_event (message id from : option json)
| error_event (err : jserror) (source : string).

Inductive log_level := LogInfo | LogWarn | LogError.

(** What a method does to the world outside the instance, in order. *)
Inductive effect :=
| Emit (e : event)
| Log (level : log_level) (what : string)
| CreateClient (ch : channel)
| Send (ch : channel) (c : Redis.command)
| OnPMessage
| OnSignal (signal : string)
| SetTimeout (ms : Z)
| SetInterval (ms : Z)
| ClearInterval
| NextTick (loop : string)
| CallErrorHandler (err : jserror).

(** One instance together with the class-wide [RedisQueue.writers] map.
    A connection is modelled by its presence. [uuids] counts the calls of
    [uuid()], [sent] the commands issued so far. *)
Record RedisQueue := mkQueue {
  name : string;
  options : IMQOptions;
  reader : bool;
  writers : gset string;
  watchers : gset string;
  watcher_ready : bool;
  initialized : bool;
  watchOwner : bool;
  signalsInitialized : bool;
  safeCheckInterval : bool;
  checksum : option string;
  uuids : nat;
  sent : nat;
  trace : list effect;
  (** whether an ['error'] listener is registered on the queue *)
  onError : bool;
}.

(** [new RedisQueue(name, options)] *)
Definition new (name : string) (options : IMQOptions) : RedisQueue :=
  {| name := name; options := options; reader := false; writers := ∅;
     watchers := ∅; watcher_ready := false; initialized := false;
     watchOwner := false; signalsInitialized := false;
     safeCheckInterval := false; checksum := None;
     uuids := 0; sent := 0; trace := []; onError := false |}.

(** *** Field updates *)

Definition set_reader (b : bool) (q : RedisQueue) : RedisQueue :=
  mkQueue (name q) (options q) b (writers q) (watchers q) (watcher_ready q)
    (initialized q) (watchOwner q) (signalsInitialized q)
    (safeCheckInterval q) (checksum q) (uuids q) (sent q) (trace q) (onError q).

Definition set_writers (w : gset string) (q : RedisQueue) : RedisQueue :=
  mkQueue (name q) (options q) (reader q) w (watchers q) (watcher_ready q)
    (initialized q) (watchOwner q) (signalsInitialized q)
    (safeCheckInterval q) (checksum q) (uuids q) (sent q) (trace q) (onError q).

Definition set_watchers (w : gset string) (q : RedisQueue) : RedisQueue :=
  mkQueue (name q) (options q) (reader q) (writers q) w (watcher_ready q)
    (initialized q) (watchOwner q) (signalsInitialized q)
    (safeCheckInterval q) (checksum q) (uuids q) (sent q) (trace q) (onError q).

Definition set_watcher_ready (b : bool) (q : RedisQueue) : RedisQueue :=
  mkQueue (name q) (options q) (reader q) (writers q) (watchers q) b
    (initialized q) (watchOwner q) (signalsInitialized q)
    (safeCheckInterval q) (checksum q) (uuids q) (sent q) (trace q) (onError q).

Definition set_initialized (b : bool) (q : RedisQueue) : RedisQueue :=
  mkQueue (name q) (options q) (reader q) (writers q) (watchers q)
    (watcher_ready q) b (watchOwner q) (signalsInitialized q)
    (safeCheckInterval q) (checksum q) (uuids q) (sent q) (trace q) (onError q).

Definition set_watchOwner (b : bool) (q : RedisQueue) : RedisQueue :=
  mkQueue (name q) (options q) (reader q) (writers q) (watchers q)
    (watcher_ready q) (initialized q) b (signalsInitialized q)
    (safeCheckInterval q) (checksum q) (uuids q) (sent q) (trace q) (onError q).

Definition set_signalsInitialized (b : bool) (q : RedisQueue) : RedisQueue :=
  mkQueue (name q) (options q) (reader q) (writers q) (watchers q)
    (watcher_ready q) (initialized q) (watchOwner q) b
    (safeCheckInterval q) (checksum q) (uuids q) (sent q) (trace q) (onError q).

Definition set_safeCheckInterval (b : bool) (q : RedisQueue) : RedisQueue :=
  mkQueue (name q) (options q) (reader q) (writers q) (watchers q)
    (watcher_ready q) (initialized q) (watchOwner q) (signalsInitialized q)
    b (checksum q) (uuids q) (sent q) (trace q) (onError q).

Definition set_checksum (c : option string) (q : RedisQueue) : RedisQueue :=
  mkQueue (name q) (options q) (reader q) (writers q) (watchers q)
    (watcher_ready q) (initialized q) (watchOwner q) (signalsInitialized q)
    (safeCheckInterval q) c (uuids q) (sent q) (trace q) (onError q).

Definition set_uuids (n : nat) (q : RedisQueue) : RedisQueue :=
  mkQueue (name q) (options q) (reader q) (writers q) (watchers q)
    (watcher_ready q) (initialized q) (watchOwner q) (signalsInitialized q)
    (safeCheckInterval q) (checksum q) n (sent q) (trace q) (onError q).

Definition set_sent (n : nat) (q : RedisQueue) : RedisQueue :=
  mkQueue (name q) (options q) (reader q) (writers q) (watchers q)
    (watcher_ready q) (initialized q) (watchOwner q) (signalsInitialized q)
    (safeCheckInterval q) (checksum q) (uuids q) n (trace q) (onError q).

Definition set_trace (t : list effect) (q : RedisQueue) : RedisQueue :=
  mkQueue (name q) (options q) (reader q) (writers q) (watchers q)
    (watcher_ready q) (initialized q) (watchOwner q) (signalsInitialized q)
    (safeCheckInterval q) (checksum q) (uuids q) (sent q) t (onError q).

Definition set_onError (b : bool) (q : RedisQueue) : RedisQueue :=
  mkQueue (name q) (options q) (reader q) (writers q) (watchers q)
    (watcher_ready q) (initialized q) (watchOwner q) (signalsInitialized q)
    (safeCheckInterval q) (checksum q) (uuids q) (sent q) (trace q) b.

(** *** Keys and getters *)

Definition colon : ascii := ":"%char.

(** [`${options.host}:${options.port}`] *)
Definition redisKey (q : RedisQueue) : string :=
  host (options q) +:+ ":" +:+ pretty (port (options q)).

(** [get writer()]: [RedisQueue.writers[this.redisKey]] *)
Definition writer (q : RedisQueue) : bool :=
  bool_decide (redisKey q ∈ writers q).

(** [get watcher()]: [this.watchers[this.redisKey]] *)
Definition watcher (q : RedisQueue) : bool :=
  bool_decide (redisKey q ∈ watchers q).

(** [get lockKey()] *)
Definition lockKey (q : RedisQueue) : string :=
  prefix (options q) +:+ ":watch:lock".

(** [get key()] *)
Definition key (q : RedisQueue) : string :=
  prefix (options q) +:+ ":" +:+ name q.

Definition has_channel (ch : channel) (q : RedisQueue) : bool :=
  match ch with
  | Reader => reader q
  | Writer => writer q
  | Watcher => watcher q
  end.

Definition set_channel (ch : channel) (q : RedisQueue) : RedisQueue :=
  match ch with
  | Reader => set_reader true q
  | Writer => set_writers ({[redisKey q]} ∪ writers q) q
  | Watcher => set_watchers ({[redisKey q]} ∪ watchers q) q
  end.

Definition channel_name (ch : channel) : string :=
  match ch with
  | Reader => "reader"
  | Writer => "writer"
  | Watcher => "watcher"
  end.

(** The double quote of the Lua source. *)
Definition dq : string := String "034"%char EmptyString.

(** [scripts.moveDelayed.code] *)
Definition moveDelayed_code : string :=
  "local messages = redis.call(" +:+
  dq +:+ "zrangebyscore" +:+ dq +:+ ", KEYS[1], " +:+ dq +:+ "-inf" +:+ dq +:+
  ", ARGV[1]) " +:+
  "local count = table.getn(messages) " +:+
  "local message " +:+
  "local i = 1 " +:+
  "if count > 0 then " +:+
  "while messages[i] do " +:+
  "redis.call(" +:+ dq +:+ "lpush" +:+ dq +:+ ", KEYS[2], messages[i]) " +:+
  "i = i + 1 " +:+
  "end " +:+
  "redis.call(" +:+ dq +:+ "zremrangebyscore" +:+ dq +:+ ", KEYS[1], " +:+
  dq +:+ "-inf" +:+ dq +:+ ", ARGV[1]) " +:+
  "end " +:+
  "return count".

(** *** The envelope *)

(** [{ id, message, from: this.name }] *)
Definition envelope (id : string) (message : json) (from : string) : json :=
  JObj [("id", JStr id); ("message", message); ("from", JStr from)].

(** [obj[p]] on a parsed object: the last binding of [p], or [undefined]. *)
Fixpoint field (p : string) (fields : list (string * json)) : option json :=
  match fields with
  | [] => None
  | (k, v) :: rest =>
      match field p rest with
      | Some v' => Some v'
      | None => if String.eqb k p then Some v else None
      end
  end.

(** [const { id, message, from } = v]: [null] cannot be destructured, a
    value without the property gives [undefined]. *)
Definition destructure (v : json) : outcome (option json * option json * option json) :=
  match v with
  | JNull => Throw (TypeError "Cannot destructure 'null' as it is null.")
  | JObj fields => Return (field "id" fields, field "message" fields, field "from" fields)
  | _ => Return (None, None, None)
  end.

(** *** The connected-clients listing *)

Fixpoint strip_prefix (p s : string) : option string :=
  match p, s with
  | EmptyString, _ => Some s
  | String a p', String b s' =>
      if Ascii.eqb a b then strip_prefix p' s' else None
  | String _ _, EmptyString => None
  end.

(** [[\S]+?:watcher:] anchored at the start of [s]. *)
Fixpoint nonspace_then_watcher (s : string) : bool :=
  match s with
  | EmptyString => false
  | String c rest =>
      negb (Ascii.is_space c) &&
      (match strip_prefix ":watcher:" rest with Some _ => true | None => false end
       || nonspace_then_watcher rest)
  end.

(** A character of the class [\w]. *)
Definition is_word_char (c : ascii) : bool :=
  let n := N_of_ascii c in
  ((48 <=? n) && (n <=? 57) || (65 <=? n) && (n <=? 90)
   || (97 <=? n) && (n <=? 122) || (n =? 95))%N.

(** [rx.test(s)] for [rx = /\bname=<prefix>:[\S]+?:watcher:/]; [pat] is
    ["name=<prefix>:"], [prev_word] tells whether the character before the
    current position is a word character.  The source splices the prefix
    into the pattern; here it is matched character by character, which is
    the source for a prefix without a special character of regular
    expressions, as the default ["imq"]. *)
Fixpoint rx_test_from (pat : string) (prev_word : bool) (s : string) : bool :=
  (negb prev_word &&
   match strip_prefix pat s with
   | Some rest => nonspace_then_watcher rest
   | None => false
   end)
  || match s with
     | EmptyString => false
     | String c rest => rx_test_from pat (is_word_char c) rest
     end.

Definition watcher_rx_test (prefix : string) (client : string) : bool :=
  rx_test_from ("name=" +:+ prefix +:+ ":") false client.

(** [s.split(/\r?\n/)]: the segments between line feeds, each but the
    last without the carriage return that stood before its line feed. *)
Definition chomp (s : string) : string :=
  match String.rev s with
  | String "013"%char rest => String.rev rest
  | _ => s
  end.

Fixpoint chomp_but_last (segments : list string) : list string :=
  match segments with
  | [] => []
  | [x] => [x]
  | x :: rest => chomp x :: chomp_but_last rest
  end.

Definition lines (s : string) : list string :=
  chomp_but_last (split "010"%char s).

(** [!!Number(reply)] for the integer replies of SETNX, EXISTS and DEL. *)
Definition reply_truthy (r : Redis.reply) : bool :=
  match r with
  | Redis.RInt n => negb (n =? 0)
  | _ => false
  end.

(** *** Methods *)

(** What the world answers: [net n c] is how the n-th issued command [c]
    settles, [connect_error ch] the ['error'] a new connection raises
    instead of ['ready'], [now] is [Date.now()], [random] is
    [Math.random()], [pid] is [process.pid] and [hostname] is
    [os.hostname()]. *)
Record Env := mkEnv {
  net : nat -> Redis.command -> outcome Redis.reply;
  connect_error : channel -> option jserror;
  now : Z;
  random : Q;
  pid : Z;
  hostname : string;
}.

(** [Math.floor(Math.random() * (max - min + 1)) + min], with the value
    of [Math.random()] as an argument: a rational, so that the function
    runs. *)
Definition intrand (min max : Z) (random : Q) : Z :=
  Qfloor (random * inject_Z (max - min + 1)) + min.

(** The same function of an arbitrary real [random]. *)
Definition intrand_real (min max : Z) (random : R) : Z :=
  Int_part (random * IZR (max - min + 1)) + min.

Section Methods.
Context {rt : JsRuntime} (env : Env).

Abbreviation M := (Js RedisQueue).

(** [this] *)
Definition this : M RedisQueue := gets (fun q => q).

Definition effect_ (e : effect) : M unit :=
  modify (fun q => set_trace (trace q ++ [e]) q).

(** [this.emit(...)]: the event reaches the listeners, which return.
    [emit('error', err, ...)] on an emitter without an ['error'] listener
    throws [err]. *)
Definition emit (e : event) : M unit :=
  match e with
  | error_event err _ =>
      q <- this;;
      if onError q then effect_ (Emit e) else throw err
  | message_event _ _ _ => effect_ (Emit e)
  end.

(** [this.on('error', listener)], inherited from [EventEmitter]. *)
Definition on_error : M unit := modify (set_onError true).

Definition log (level : log_level) (what : string) : M unit :=
  effect_ (Log level what).

(** A command on a connection whose promise is awaited: a missing
    connection is a [TypeError], a failed command rejects. *)
Definition call (ch : channel) (c : Redis.command) : M Redis.reply :=
  present <- gets (has_channel ch);;
  if negb present
  then throw (TypeError ("Cannot read property of undefined: " +:+ channel_name ch))
  else
    n <- gets sent;;
    modify (set_sent (S n));;
    effect_ (Send ch c);;
    match net env n c with
    | Return r => ret r
    | Throw e => throw e
    end.

(** A command with a node-style callback [(err) => ...]: the failure goes
    to the callback and nothing is thrown. *)
Definition call_cb (ch : channel) (c : Redis.command)
    (cb : option jserror -> M unit) : M unit :=
  present <- gets (has_channel ch);;
  if negb present
  then throw (TypeError ("Cannot read property of undefined: " +:+ channel_name ch))
  else
    n <- gets sent;;
    modify (set_sent (S n));;
    effect_ (Send ch c);;
    match net env n c with
    | Return _ => cb None
    | Throw e => cb (Some e)
    end.

(** A command sent without waiting for its reply. *)
Definition cast (ch : channel) (c : Redis.command) : M unit :=
  present <- gets (has_channel ch);;
  if negb present
  then throw (TypeError ("Cannot read property of undefined: " +:+ channel_name ch))
  else
    n <- gets sent;;
    modify (set_sent (S n));;
    effect_ (Send ch c).

(** [connect(channel, options)] with [context = this].  The ['ready']
    handler awaits [client('setname', ...)] before it resolves the promise;
    here the command is sent and its reply is not looked at, which is the
    source on every run whose [CLIENT SETNAME] is acknowledged.  When that
    command is rejected the source leaves the promise of [connect] pending
    for good, an outcome [Js] does not have. *)
Definition connect (ch : channel) : M unit :=
  present <- gets (has_channel ch);;
  if present then ret tt
  else
    effect_ (CreateClient ch);;
    modify (set_channel ch);;
    match connect_error env ch with
    | Some err =>
        modify (set_initialized false);;
        log LogError "error connecting redis host";;
        throw err
    | None =>
        log LogInfo "channel connected";;
        q <- this;;
        cast ch (Redis.CLIENT_SETNAME
          (prefix (options q) +:+ ":" +:+ name q +:+ ":" +:+ channel_name ch
           +:+ ":pid:" +:+ pretty (pid env) +:+ ":host:" +:+ hostname env))
    end.

(** [process([queue, data])] *)
Definition process (message : option string * string) : M unit :=
  let '(queue, data) := message in
  q <- this;;
  if match queue with
     | None => true
     | Some k => String.eqb k "" || negb (String.eqb k (key q))
     end
  then ret tt
  else
    try_catch
      (match Codec.select_unpack (useGzip (options q)) data with
       | Throw e => throw e
       | Return v =>
           match destructure v with
           | Throw e => throw e
           | Return (id, message, from) => emit (message_event message id from)
           end
       end)
      (fun err =>
         emit (error_event err "OnMessage");;
         log LogError "process error - message is invalid").

(** [watcherCount()] *)
Definition watcherCount : M nat :=
  r <- call Writer Redis.CLIENT_LIST;;
  q <- this;;
  let listing := match r with Redis.RBulk s => s | _ => "" end in
  ret (length (List.filter (watcher_rx_test (prefix (options q)))
                 (lines listing))).

(** [processDelayed(key)] *)
Definition processDelayed (k : string) : M unit :=
  cs <- gets checksum;;
  match cs with
  | Some sha =>
      _ <- call Writer (Redis.EVALSHA sha [k +:+ ":delayed"; k] (now env));;
      ret tt
  | None => ret tt
  end.

(** The [catch] of the ['pmessage'] listener. *)
Definition on_watch_error (err : jserror) : M unit :=
  emit (error_event err "OnWatch");;
  log LogError "watch error".

(** The listener [watch()] installs for ['pmessage']; [args] are the
    arguments of the event, the expired key last. *)
Definition on_pmessage (args : list string) : M unit :=
  try_catch
    (match last args with
     | None => throw (TypeError "Cannot read property 'split' of undefined")
     | Some expired =>
         let key := split colon expired in
         let '(marker, key) := pop key in
         if negb (bool_decide (marker = Some "ttl")) then ret tt
         else
           let '(_, key) := pop key in
           processDelayed (join colon key)
     end)
    on_watch_error.

(** The body of [for (let key of keys)] in the safe-delivery sweeper. *)
Definition sweep_key (now : Z) (k : string) : M unit :=
  let kp := split colon k in
  let '(expire, kp) := pop kp in
  if jsnum_ge (match expire with Some e => Number e | None => NaN end) now
  then
    let '(a, kp) := shift kp in
    let '(b, kp) := shift kp in
    let qKey := template a +:+ ":" +:+ template b in
    _ <- call Writer (Redis.RPOPLPUSH k qKey);;
    ret tt
  else ret tt.

Fixpoint sweep_keys (now : Z) (keys : list string) : M unit :=
  match keys with
  | [] => ret tt
  | k :: rest => sweep_key now k;; sweep_keys now rest
  end.

(** One page of the scan, the inside of the [try]: the next cursor. *)
Definition sweep_page (now : Z) (cursor : string) : M string :=
  q <- this;;
  data <- call Writer
    (Redis.SCAN_MATCH cursor (prefix (options q) +:+ ":*:worker:*") "1000");;
  match data with
  | Redis.RScan cursor' keys => sweep_keys now keys;; ret cursor'
  | _ => throw (TypeError "data.shift is not a function")
  end.

(** [while (true)] of the sweeper; [fuel] bounds the number of pages. The
    result tells whether the loop came to its [return]. *)
Fixpoint sweep_loop (fuel : nat) (now : Z) (cursor : string) : M bool :=
  match fuel with
  | O => ret false
  | S fuel' =>
      page <- settle (sweep_page now cursor);;
      match page with
      | Return cursor' =>
          if String.eqb cursor' "0" then ret true
          else sweep_loop fuel' now cursor'
      | Throw err =>
          emit (error_event err "OnSafeDelivery");;
          effect_ ClearInterval;;
          modify (set_safeCheckInterval false);;
          ret true
      end
  end.

(** The callback of [setInterval] in [watch()]. *)
Definition sweep (fuel : nat) : M bool :=
  w <- gets writer;;
  if negb w
  then
    effect_ ClearInterval;;
    modify (set_safeCheckInterval false);;
    ret true
  else sweep_loop fuel (now env) "0".

(** [watch()] *)
Definition watch : M unit :=
  q <- this;;
  if negb (watcher q) || watcher_ready q then ret tt
  else
    try_catch
      (cast Writer (Redis.CONFIG_SET "notify-keyspace-events" "Ex"))
      (fun err =>
         emit (error_event err "OnConfig");;
         log LogWarn "events config error");;
    effect_ OnPMessage;;
    cast Watcher (Redis.PSUBSCRIBE
      ["__keyevent@0__:expired"; prefix (options q) +:+ ":delayed:*"]);;
    q' <- this;;
    when (safeDelivery (options q') && negb (safeCheckInterval q'))
      (effect_ (SetInterval (safeDeliveryTtl (options q')));;
       modify (set_safeCheckInterval true));;
    modify (set_watcher_ready true).

(** [read()] *)
Definition read : M unit :=
  q <- this;;
  if negb (reader q)
  then log LogError "reader connection is not initialized"
  else effect_ (NextTick (if safeDelivery (options q)
                          then "readSafe" else "readUnsafe")).

(** [isLocked()], [lock()], [unlock()] *)
Definition isLocked : M bool :=
  q <- this;;
  r <- call Writer (Redis.EXISTS (lockKey q));;
  ret (reply_truthy r).

Definition lock : M bool :=
  q <- this;;
  r <- call Writer (Redis.SETNX (lockKey q) "");;
  ret (reply_truthy r).

Definition unlock : M bool :=
  q <- this;;
  r <- call Writer (Redis.DEL (lockKey q));;
  ret (reply_truthy r).

(** The callback of [Object.keys(this.scripts).forEach] for the one
    script, [moveDelayed]. *)
Definition load_script : M unit :=
  try_catch
    (let cs := sha1 moveDelayed_code in
     modify (set_checksum (Some cs));;
     r <- call Writer (Redis.SCRIPT_EXISTS cs);;
     let loaded := match r with
                   | Redis.RInts (n :: _) => negb (n =? 0)
                   | _ => false
                   end in
     if negb loaded
     then _ <- call Writer (Redis.SCRIPT_LOAD moveDelayed_code);; ret tt
     else ret tt)
    (fun err =>
       emit (error_event err "OnScriptLoad");;
       log LogError "script load error").

(** [ownWatch()] *)
Definition ownWatch : M unit :=
  owned <- lock;;
  if owned
  then
    load_script;;
    modify (set_watchOwner true);;
    connect Watcher;;
    watch
  else ret tt.

(** [initWatcher()]; the timer callback runs after the back-off. *)
Definition initWatcher : M unit :=
  retry <- try_catch
    (n <- watcherCount;;
     if (n =? 0)%nat
     then
       ownWatch;;
       q <- this;;
       ret (negb (watchOwner q && watcher q))
     else ret false)
    (fun err =>
       log LogError "error initializing watcher";;
       throw err);;
  if retry
  then
    effect_ (SetTimeout (intrand 1 50 (random env)));;
    n <- watcherCount;;
    let noWatcher := (n =? 0)%nat in
    locked <- isLocked;;
    if locked && noWatcher
    then _ <- unlock;; ownWatch
    else ret tt
  else ret tt.

(** [start()] *)
Definition start : M unit :=
  q <- this;;
  if String.eqb (name q) ""
  then throw (TypeError (name q +:+ ": No queue name provided!"))
  else if initialized q then ret tt
  else
    r1 <- (if negb (reader q) then settle (connect Reader)
           else ret (Return tt));;
    q1 <- this;;
    r2 <- (if negb (writer q1) then settle (connect Writer)
           else ret (Return tt));;
    match r1, r2 with
    | Throw e, _ => throw e
    | _, Throw e => throw e
    | _, _ =>
        q2 <- this;;
        when (negb (signalsInitialized q2))
          (effect_ (OnSignal "SIGTERM");;
           effect_ (OnSignal "SIGINT");;
           modify (set_signalsInitialized true));;
        initWatcher;;
        read;;
        try_catch (processDelayed (key q2))
          (fun err =>
             emit (error_event err "OnProcessDelayed");;
             log LogError "error processing delayed queue");;
        modify (set_initialized true)
    end.

(** [delay] as a condition: [undefined] and [0] are falsy. *)
Definition truthy (delay : option Z) : bool :=
  match delay with
  | Some d => negb (d =? 0)
  | None => false
  end.

(** [send(toQueue, message, delay, errorHandler)]; [errorHandler] tells
    whether the caller passed one. *)
Definition send (toQueue : string) (message : json) (delay : option Z)
    (errorHandler : bool) : M string :=
  q <- this;;
  when (negb (writer q)) start;;
  n <- gets uuids;;
  modify (set_uuids (S n));;
  let id := uuid n in
  let data := envelope id message (name q) in
  let key := prefix (options q) +:+ ":" +:+ toQueue in
  let packet := Codec.select_pack (useGzip (options q)) data in
  let cb := fun error : option jserror =>
    match error with
    | Some e => when errorHandler (effect_ (CallErrorHandler e))
    | None => ret tt
    end in
  (if truthy delay
   then
     call_cb Writer
       (Redis.ZADD (key +:+ ":delayed") (now env + default 0 delay) packet)
       (fun err =>
          match err with
          | Some e => cb (Some e)
          | None =>
              call_cb Writer
                (Redis.SET_PX_NX (key +:+ ":" +:+ id +:+ ":ttl") ""
                   (default 0 delay))
                cb
          end)
   else call_cb Writer (Redis.LPUSH key packet) cb);;
  ret id.

End Methods.

(** What the sweeper sends for one scanned key at time [now]. *)
Definition rescue {rt : JsRuntime} (now : Z) (k : string) : list effect :=
  let kp := split colon k in
  let '(expire, kp) := pop kp in
  if jsnum_ge (match expire with Some e => Number e | None => NaN end) now
  then
    let '(a, kp) := shift kp in
    let '(b, kp) := shift kp in
    [Send Writer (Redis.RPOPLPUSH k (template a +:+ ":" +:+ template b))]
  else [].

(** How the callback [cb] of [send] reports the way a command settled. *)
Definition reported (errorHandler : bool) (o : outcome Redis.reply) : list effect :=
  match o with
  | Throw e => if errorHandler then [CallErrorHandler e] else []
  | Return _ => []
  end.

(** The commands among the effects, with the connection they went to. *)
Definition commands (t : list effect) : list (channel * Redis.command) :=
  omap (fun e => match e with Send ch c => Some (ch, c) | _ => None end) t.

(** The instance as far as no method but [send] changes it. *)
Definition identity (q : RedisQueue) : string * IMQOptions * nat :=
  (name q, options q, uuids q).

End Queue.

(** ** The [profile] decorator *)

Module Profile.

(** The values a decorated method is called with: primitives, and
    references to the objects and arrays of a heap, which may form cycles. *)
Inductive value :=
| VUndefined
| VNull
| VBool (b : bool)
| VNum (n : Z)
| VStr (s : string)
| VRef (address : positive).

Inductive cell :=
| Obj (fields : list (string * value))
| Arr (items : list value).

(** What a call evaluates to: a plain value, or a promise together with
    the way it settles. *)
Inductive result :=
| Plain (v : value)
| Promise (settles : outcome value).

Inductive AllowedTimeFormat := microseconds | milliseconds | seconds.

Inductive LogLevel := LOG | INFO | WARN | ERROR.

(** The line a logger method is called with. *)
Inductive line :=
| Executed (className methodName : string) (micros : Z) (format : AllowedTimeFormat)
| CalledWith (className methodName : string) (args : string)
| Failure (err : jserror).

(** One call of a method of a logger: [console] or the host's own. *)
Inductive logger := console | own_logger.

Record entry := mkEntry { target : logger; level : LogLevel; text : line }.

Section Decorator.
Context {rt : JsRuntime}.
(** [mt.now()] when the call starts and when the debug line is printed,
    and the [IMQ_LOG_TIME_FORMAT] of the environment. *)
Variables (start finish : Z) (IMQ_LOG_TIME_FORMAT : AllowedTimeFormat).
Variable heap : gmap positive cell.

Abbreviation L := (Js (list entry)).

Definition write (t : logger) (lv : LogLevel) (l : line) : L unit :=
  modify (fun out => out ++ [mkEntry t lv l]).

Definition circular : jserror :=
  TypeError "Converting circular structure to JSON".

Definition overflow : jserror :=
  Error "RangeError: Maximum call stack size exceeded".

(** The tree [JSON.stringify] walks from [v]; [stack] holds the objects
    being serialized. [Return None] is [undefined]: dropped from an
    object, [null] in an array. *)
Fixpoint to_json (fuel : nat) (stack : list positive) (v : value)
    : outcome (option json) :=
  match fuel with
  | O => Throw overflow
  | S fuel' =>
      match v with
      | VUndefined => Return None
      | VNull => Return (Some JNull)
      | VBool b => Return (Some (JBool b))
      | VNum n => Return (Some (JNum n))
      | VStr s => Return (Some (JStr s))
      | VRef a =>
          if bool_decide (a ∈ stack) then Throw circular
          else
            match heap !! a with
            | None => Return None
            | Some (Arr items) =>
                match
                  (fix each (l : list value) : outcome (list json) :=
                     match l with
                     | [] => Return []
                     | x :: rest =>
                         match to_json fuel' (a :: stack) x with
                         | Throw e => Throw e
                         | Return j =>
                             match each rest with
                             | Throw e => Throw e
                             | Return js => Return (default JNull j :: js)
                             end
                         end
                     end) items
                with
                | Throw e => Throw e
                | Return js => Return (Some (JArr js))
                end
            | Some (Obj fields) =>
                match
                  (fix each (l : list (string * value))
                     : outcome (list (string * json)) :=
                     match l with
                     | [] => Return []
                     | (k, x) :: rest =>
                         match to_json fuel' (a :: stack) x with
                         | Throw e => Throw e
                         | Return j =>
                             match each rest with
                             | Throw e => Throw e
                             | Return js =>
                                 Return (match j with
                                         | Some j' => (k, j') :: js
                                         | None => js
                                         end)
                             end
                         end
                     end) fields
                with
                | Throw e => Throw e
                | Return js => Return (Some (JObj js))
                end
            end
      end
  end.

(** Deep enough for every path without a repeated object. *)
Definition depth : nat := S (S (size heap)).

(** [JSON.stringify(args, null, 2)] for the arguments array. *)
Definition stringify_args (args : list value) : outcome string :=
  match
    (fix each (l : list value) : outcome (list json) :=
       match l with
       | [] => Return []
       | x :: rest =>
           match to_json depth [] x with
           | Throw e => Throw e
           | Return j =>
               match each rest with
               | Throw e => Throw e
               | Return js => Return (default JNull j :: js)
               end
           end
       end) args
  with
  | Throw e => Throw e
  | Return js => Return (JSON_stringify (JArr js))
  end.

(** *** [src/src/profile.ts] *)

(** [printDebugInfo(debugTime, debugArgs, className, args, methodName,
    start, logger = console)] *)
Definition printDebugInfo (debugTime debugArgs : bool)
    (className : string) (args : list value) (methodName : string)
    (host_logger : option logger) : L unit :=
  let logger := default console host_logger in
  when debugTime
    (write logger LOG
       (Executed className methodName (finish - start) IMQ_LOG_TIME_FORMAT));;
  when debugArgs
    (match stringify_args args with
     | Throw e => throw e
     | Return text => write logger LOG (CalledWith className methodName text)
     end).

(** [typeof enableDebug === 'boolean' ? enableDebug : IMQ_LOG] *)
Definition flag (enable : option bool) (environment : bool) : bool :=
  default environment enable.

(** [descriptor.value] as [profile(enableDebugTime, enableDebugArgs)]
    leaves it: [original] is the decorated method applied to [this],
    [host_logger] is [this.logger]. *)
Definition profile (enableDebugTime enableDebugArgs : option bool)
    (IMQ_LOG_TIME IMQ_LOG_ARGS : bool)
    (className methodName : string) (host_logger : option logger)
    (original : list value -> outcome result) (args : list value) : L result :=
  let debugTime := flag enableDebugTime IMQ_LOG_TIME in
  let debugArgs := flag enableDebugArgs IMQ_LOG_ARGS in
  let apply : L result := fun out => (original args, out) in
  if negb (debugTime || debugArgs) then apply
  else
    result <- apply;;
    match result with
    | Promise settles =>
        (* [result.then(...)]: the callback runs once [result] is
           fulfilled; what it throws rejects the promise [then] returns,
           which is dropped. *)
        match settles with
        | Return _ =>
            try_catch
              (printDebugInfo debugTime debugArgs className args methodName
                 host_logger)
              (fun _ => ret tt)
        | Throw _ => ret tt
        end;;
        ret result
    | Plain _ =>
        printDebugInfo debugTime debugArgs className args methodName
          host_logger;;
        ret result
    end.

(** *** [src/unnamed/part_000], the later revision *)

(** The identifier the object literal of [debugOptions] names without a
    binding: the file has [logLevel as LogLevel,] among the shorthand
    properties, which is emitted as the three properties [logLevel], [as]
    and [LogLevel]. *)
Definition as_is_not_defined : jserror :=
  Error "ReferenceError: as is not defined".

(** [descriptor.value] as [profile({ enableDebugTime, enableDebugArgs,
    logLevel })] leaves it; [host_logger] is [(this || target).logger].
    With some logging on, the original is applied and [debugOptions] is
    built next: evaluating its property [as] throws before the logger is
    read, before the result is looked at and before [logDebugInfo] is
    called. *)
Definition profile_options (enableDebugTime enableDebugArgs : option bool)
    (logLevel : option LogLevel)
    (IMQ_LOG_TIME IMQ_LOG_ARGS : bool)
    (className methodName : string) (host_logger : option logger)
    (original : list value -> outcome result) (args : list value) : L result :=
  let debugTime := flag enableDebugTime IMQ_LOG_TIME in
  let debugArgs := flag enableDebugArgs IMQ_LOG_ARGS in
  let apply : L result := fun out => (original args, out) in
  if negb (debugTime || debugArgs) then apply
  else
    _ <- apply;;
    throw as_is_not_defined.

End Decorator.
End Profile.

(** ** JSON texts and UTF-8, as the standards define them

    [JSON.stringify] on the values the queue handles, after ECMA-262
    (SerializeJSONProperty, QuoteJSONString), and a reader for the texts of
    the JSON grammar that have no white space, whose numbers are safe
    integers and whose object keys are distinct and not array indices: on
    these texts [JSON.parse] returns the value the reader returns.  UTF-8
    for the code units below 256 that a [string] holds. *)

Module Ecma.

Definition dq : ascii := "034"%char.
Definition bs : ascii := "092"%char.

(** *** Writing *)

Definition hex_char (n : N) : ascii :=
  match n with
  | 0 => "0" | 1 => "1" | 2 => "2" | 3 => "3" | 4 => "4" | 5 => "5"
  | 6 => "6" | 7 => "7" | 8 => "8" | 9 => "9" | 10 => "a" | 11 => "b"
  | 12 => "c" | 13 => "d" | 14 => "e" | _ => "f"
  end%char%N.

(** QuoteJSONString on one code unit. *)
Definition escape_char (c : ascii) : string :=
  let n := N_of_ascii c in
  if (n =? 8)%N then String bs "b"
  else if (n =? 9)%N then String bs "t"
  else if (n =? 10)%N then String bs "n"
  else if (n =? 12)%N then String bs "f"
  else if (n =? 13)%N then String bs "r"
  else if (n =? 34)%N then String bs (String dq EmptyString)
  else if (n =? 92)%N then String bs (String bs EmptyString)
  else if (n <? 32)%N
       then String bs
              (String "u" (String "0" (String "0"
                 (String (hex_char (n / 16))
                    (String (hex_char (n mod 16)) EmptyString)))))
       else String c EmptyString.

Fixpoint escape (s : string) : string :=
  match s with
  | EmptyString => EmptyString
  | String c rest => escape_char c +:+ escape rest
  end.

Definition quote (s : string) : string :=
  String dq (escape s +:+ String dq EmptyString).

Fixpoint commas (l : list string) : string :=
  match l with
  | [] => EmptyString
  | [x] => x
  | x :: rest => x +:+ String "," (commas rest)
  end.

Fixpoint stringify (v : json) : string :=
  match v with
  | JNull => "null"
  | JBool true => "true"
  | JBool false => "false"
  | JNum n => pretty n
  | JStr s => quote s
  | JArr items => String "[" (commas (List.map stringify items) +:+ "]")
  | JObj fields =>
      String "{"
        (commas (List.map (fun kv => quote kv.1 +:+ String ":" (stringify kv.2))
                   fields)
         +:+ "}")
  end.

(** One member of an object, as [stringify] writes it. *)
Definition member_text (kv : string * json) : string :=
  quote kv.1 +:+ String ":" (stringify kv.2).

(** *** Reading *)

Definition hex_value (c : ascii) : option N :=
  let n := N_of_ascii c in
  if (48 <=? n)%N && (n <=? 57)%N then Some (n - 48)%N
  else if (97 <=? n)%N && (n <=? 102)%N then Some (n - 87)%N
  else if (65 <=? n)%N && (n <=? 70)%N then Some (n - 55)%N
  else None.

(** The characters of a string literal after its opening quote, and the
    rest of the text. *)
Fixpoint read_string (s : string) : option (string * string) :=
  let more (c : ascii) (tail : string) :=
    match read_string tail with
    | Some (body, rest) => Some (String c body, rest)
    | None => None
    end in
  match s with
  | EmptyString => None
  | String c rest =>
      if Ascii.eqb c dq then Some (EmptyString, rest)
      else if Ascii.eqb c bs then
        match rest with
        | String "b" tail => more "008"%char tail
        | String "t" tail => more "009"%char tail
        | String "n" tail => more "010"%char tail
        | String "f" tail => more "012"%char tail
        | String "r" tail => more "013"%char tail
        | String "/" tail => more "/"%char tail
        | String "u" (String "0" (String "0" (String h (String l tail)))) =>
            match hex_value h, hex_value l with
            | Some a, Some b => more (ascii_of_N (16 * a + b)) tail
            | _, _ => None
            end
        | String e tail =>
            if Ascii.eqb e dq then more dq tail
            else if Ascii.eqb e bs then more bs tail
            else None
        | EmptyString => None
        end
      else if (N_of_ascii c <? 32)%N then None
      else more c rest
  end.

Definition digit (c : ascii) : option N :=
  let n := N_of_ascii c in
  if (48 <=? n)%N && (n <=? 57)%N then Some (n - 48)%N else None.

(** The digits at the start of [s], read onto [acc], and the rest. *)
Fixpoint read_digits (acc : N) (s : string) : N * string :=
  match s with
  | EmptyString => (acc, s)
  | String c rest =>
      match digit c with
      | Some d => read_digits (10 * acc + d) rest
      | None => (acc, s)
      end
  end.

(** [0], or a digit other than [0] and the digits after it. *)
Definition read_natural (s : string) : option (N * string) :=
  match s with
  | String c rest =>
      match digit c with
      | Some 0%N =>
          match rest with
          | String c' _ =>
              match digit c' with Some _ => None | None => Some (0%N, rest) end
          | EmptyString => Some (0%N, rest)
          end
      | Some d => Some (read_digits d rest)
      | None => None
      end
  | EmptyString => None
  end.

(** No fraction and no exponent follows. *)
Definition integer_ends (rest : string) : bool :=
  match rest with
  | String c _ =>
      negb (Ascii.eqb c "." || Ascii.eqb c "e" || Ascii.eqb c "E")
  | EmptyString => true
  end.

(** [Number.MAX_SAFE_INTEGER] *)
Definition max_safe : N := 9007199254740991.

Definition read_number (s : string) : option (json * string) :=
  match read_natural s with
  | Some (n, rest) =>
      if (n <=? max_safe)%N && integer_ends rest
      then Some (JNum (Z.of_N n), rest) else None
  | None =>
      match s with
      | String "-" tail =>
          match read_natural tail with
          | Some (n, rest) =>
              if (0 <? n)%N && (n <=? max_safe)%N && integer_ends rest
              then Some (JNum (- Z.of_N n), rest) else None
          | None => None
          end
      | _ => None
      end
  end.

Definition all_digits (k : string) : bool :=
  forallb (fun c => match digit c with Some _ => true | None => false end)
    (list_ascii_of_string k).

(** A key that is not an array index: not made of digits only. *)
Definition plain_key (k : string) : bool :=
  String.eqb k EmptyString || negb (all_digits k).

Fixpoint distinct (l : list string) : bool :=
  match l with
  | [] => true
  | k :: rest => negb (existsb (String.eqb k) rest) && distinct rest
  end.

(** Keys in the order the object enumerates them: distinct, none an array
    index. *)
Definition ordered_keys (l : list string) : bool :=
  distinct l && forallb plain_key l.

Fixpoint read_value (fuel : nat) (s : string) : option (json * string) :=
  match fuel with
  | O => None
  | S fuel' =>
      match read_number s with
      | Some r => Some r
      | None =>
          match s with
          | String "n" (String "u" (String "l" (String "l" rest))) =>
              Some (JNull, rest)
          | String "t" (String "r" (String "u" (String "e" rest))) =>
              Some (JBool true, rest)
          | String "f" (String "a" (String "l" (String "s" (String "e" rest)))) =>
              Some (JBool false, rest)
          | String "[" rest =>
              match read_items fuel' rest with
              | Some (items, rest') => Some (JArr items, rest')
              | None =>
                  match rest with
                  | String "]" rest' => Some (JArr [], rest')
                  | _ => None
                  end
              end
          | String "{" rest =>
              match read_members fuel' rest with
              | Some (fields, rest') =>
                  if ordered_keys (List.map fst fields)
                  then Some (JObj fields, rest') else None
              | None =>
                  match rest with
                  | String "}" rest' => Some (JObj [], rest')
                  | _ => None
                  end
              end
          | String c rest =>
              if Ascii.eqb c dq then
                match read_string rest with
                | Some (body, rest') => Some (JStr body, rest')
                | None => None
                end
              else None
          | EmptyString => None
          end
      end
  end
with read_items (fuel : nat) (s : string) : option (list json * string) :=
  match fuel with
  | O => None
  | S fuel' =>
      match read_value fuel' s with
      | Some (v, String "," rest) =>
          match read_items fuel' rest with
          | Some (items, rest') => Some (v :: items, rest')
          | None => None
          end
      | Some (v, String "]" rest) => Some ([v], rest)
      | _ => None
      end
  end
with read_members (fuel : nat) (s : string)
    : option (list (string * json) * string) :=
  match fuel with
  | O => None
  | S fuel' =>
      match s with
      | String c rest =>
          if Ascii.eqb c dq then
            match read_string rest with
            | Some (k, String ":" rest') =>
                match read_value fuel' rest' with
                | Some (v, String "," rest'') =>
                    match read_members fuel' rest'' with
                    | Some (fields, tail) => Some ((k, v) :: fields, tail)
                    | None => None
                    end
                | Some (v, String "}" rest'') => Some ([(k, v)], rest'')
                | _ => None
                end
            | _ => None
            end
          else None
      | EmptyString => None
      end
  end.

(** The value of a whole text. *)
Definition parse (s : string) : option json :=
  match read_value (S (String.length s)) s with
  | Some (v, EmptyString) => Some v
  | _ => None
  end.

(** What may follow a value: a comma, a closing bracket or brace, or the
    end of the text. *)
Definition closes (rest : string) : bool :=
  match rest with
  | EmptyString => true
  | String c _ => Ascii.eqb c "," || Ascii.eqb c "]" || Ascii.eqb c "}"
  end.

(** *** The values that survive *)

(** Numbers are safe integers; the keys of every object are distinct and
    none is an array index, so that they are enumerated in the order they
    were written. *)
Fixpoint representable (v : json) : bool :=
  match v with
  | JNum n => (Z.abs_N n <=? max_safe)%N
  | JArr items => forallb representable items
  | JObj fields =>
      ordered_keys (List.map fst fields)
      && forallb (fun kv => representable kv.2) fields
  | _ => true
  end.

(** What reading a value back costs. *)
Fixpoint weight (v : json) : nat :=
  match v with
  | JArr items => S (list_sum (List.map (fun x => S (weight x)) items))
  | JObj fields => S (list_sum (List.map (fun kv => S (weight kv.2)) fields))
  | _ => 1
  end.

(** *** UTF-8 *)

Definition utf8_char (c : ascii) : list byte :=
  let n := N_of_ascii c in
  if (n <? 128)%N then [byte_of_ascii c]
  else [byte_of_ascii (ascii_of_N (192 + n / 64));
        byte_of_ascii (ascii_of_N (128 + n mod 64))].

Fixpoint utf8 (s : string) : list byte :=
  match s with
  | EmptyString => []
  | String c rest => utf8_char c ++ utf8 rest
  end.

(** The text of a well-formed sequence whose code points are below 256. *)
Fixpoint utf8_read (b : list byte) : option string :=
  let more (c : ascii) (tail : list byte) :=
    match utf8_read tail with
    | Some s => Some (String c s)
    | None => None
    end in
  match b with
  | [] => Some EmptyString
  | x :: rest =>
      let n := Byte.to_N x in
      if (n <? 128)%N then more (ascii_of_byte x) rest
      else if (n =? 194)%N || (n =? 195)%N then
        match rest with
        | y :: tail =>
            let m := Byte.to_N y in
            if (128 <=? m)%N && (m <? 192)%N
            then more (ascii_of_N ((n - 192) * 64 + (m - 128))) tail
            else None
        | [] => None
        end
      else None
  end.

(** The platform does what the standards say, on the values and texts
    above. *)
Definition conforms (rt : JsRuntime) : Prop :=
  (forall x, representable x = true -> JSON_stringify x = stringify x) /\
  (forall s v, parse s = Some v -> JSON_parse s = Return v) /\
  (forall s, utf8_encode s = utf8 s) /\
  (forall b s, utf8_read b = Some s -> utf8_decode b = s).

End Ecma.

(** ** A reference runtime

    One instance of [JsRuntime] to run the methods on concrete inputs:
    [JSON] and UTF-8 as in [Ecma], [gzip] writing the text as stored blocks
    of DEFLATE in a gzip member with its CRC-32 and length, [gunzip]
    reading such members back, [Number] on strings of decimal digits. *)

Module Reference.

Definition parse (s : string) : outcome json :=
  match Ecma.parse s with
  | Some v => Return v
  | None => Throw (SyntaxError "Unexpected token in JSON")
  end.

(** Bytes that are not UTF-8 for code units below 256 are read as Latin-1. *)
Definition decode (b : list byte) : string :=
  match Ecma.utf8_read b with
  | Some s => s
  | None => string_of_list_byte b
  end.

(** *** CRC-32 (RFC 1952, section 8) *)

Definition crc_bit (c : N) : N :=
  if N.odd c then N.lxor (N.shiftr c 1) 3988292384 else N.shiftr c 1.

Definition crc_byte (c : N) (b : byte) : N :=
  Nat.iter 8 crc_bit (N.lxor c (Byte.to_N b)).

Definition crc32 (buf : list byte) : N :=
  N.lxor (fold_left crc_byte buf 4294967295%N) 4294967295.

(** *** Little-endian fields *)

Definition low_byte (n : N) : byte := byte_of_ascii (ascii_of_N (n mod 256)).

Definition le16 (n : N) : list byte := [low_byte n; low_byte (n / 256)].

Definition le32 (n : N) : list byte := le16 n ++ le16 (n / 65536).

Definition of_le (b : list byte) : N :=
  fold_right (fun x acc => Byte.to_N x + 256 * acc)%N 0%N b.

(** *** Stored blocks (RFC 1951, section 3.2.4) *)

Definition block_size : nat := N.to_nat 65535.

Fixpoint stored (fuel : nat) (buf : list byte) : list byte :=
  match fuel with
  | O => []
  | S fuel' =>
      let chunk := take block_size buf in
      let rest := drop block_size buf in
      let len := N.of_nat (length chunk) in
      let body := le16 len ++ le16 (65535 - len) ++ chunk in
      match rest with
      | [] => x01%byte :: body
      | _ => x00%byte :: body ++ stored fuel' rest
      end
  end.

(** The data of the blocks at the start of [b], and what follows the
    final block. *)
Fixpoint inflate_stored (fuel : nat) (b : list byte)
    : outcome (list byte * list byte) :=
  match fuel with
  | O => Throw (Error "unexpected end of file")
  | S fuel' =>
      match b with
      | head :: l0 :: l1 :: n0 :: n1 :: rest =>
          let h := Byte.to_N head in
          if negb (N.land h 6 =? 0)%N then Throw (Error "invalid block type")
          else
            let len := of_le [l0; l1] in
            if negb (len + of_le [n0; n1] =? 65535)%N
            then Throw (Error "invalid stored block lengths")
            else
              let chunk := take (N.to_nat len) rest in
              let tail := drop (N.to_nat len) rest in
              if negb (N.of_nat (length chunk) =? len)%N
              then Throw (Error "unexpected end of file")
              else if N.odd h then Return (chunk, tail)
              else
                match inflate_stored fuel' tail with
                | Return (more, tail') => Return (chunk ++ more, tail')
                | Throw e => Throw e
                end
      | _ => Throw (Error "unexpected end of file")
      end
  end.

(** *** The gzip member (RFC 1952, section 2.3) *)

Definition gzip_header : list byte :=
  [x1f; x8b; x08; x00; x00; x00; x00; x00; x00; x03]%byte.

Definition store (buf : list byte) : list byte :=
  gzip_header ++ stored (S (length buf)) buf
  ++ le32 (crc32 buf) ++ le32 (N.of_nat (length buf) mod 4294967296).

Definition unstore (b : list byte) : outcome (list byte) :=
  match b with
  | x1f :: x8b :: x08 :: x00 :: _ :: _ :: _ :: _ :: _ :: _ :: blocks =>
      match inflate_stored (length blocks) blocks with
      | Return (buf, [c0; c1; c2; c3; s0; s1; s2; s3]) =>
          if negb (of_le [c0; c1; c2; c3] =? crc32 buf)%N
          then Throw (Error "incorrect data check")
          else if negb (of_le [s0; s1; s2; s3]
                        =? N.of_nat (length buf) mod 4294967296)%N
          then Throw (Error "incorrect length check")
          else Return buf
      | Return _ => Throw (Error "unexpected end of file")
      | Throw e => Throw e
      end
  | _ => Throw (Error "incorrect header check")
  end%byte.

(** *** [Number] *)

Definition digit (c : ascii) : option Z :=
  let n := Z.of_N (N_of_ascii c) in
  if (48 <=? n) && (n <=? 57) then Some (n - 48) else None.

(** The digits at the start of [s], read onto [acc], and the rest. *)
Fixpoint parse_digits (acc : Z) (s : string) : Z * string :=
  match s with
  | EmptyString => (acc, s)
  | String c rest =>
      match digit c with
      | Some d => parse_digits (10 * acc + d) rest
      | None => (acc, s)
      end
  end.

Definition all_digits (s : string) : bool :=
  forallb (fun c => match digit c with Some _ => true | None => false end)
    (list_ascii_of_string s).

Definition decimal (s : string) : jsnum :=
  if all_digits s then Num (inject_Z (parse_digits 0 s).1) else NaN.

#[export] Instance runtime : JsRuntime := {|
  JSON_stringify := Ecma.stringify;
  JSON_parse := parse;
  gzip := store;
  gunzip := unstore;
  utf8_encode := Ecma.utf8;
  utf8_decode := decode;
  Number := decimal;
  sha1 := fun code => "sha1:" +:+ pretty (String.length code);
  uuid := fun n => "uuid-" +:+ pretty n;
|}.

(** A server that acknowledges every command and knows no client. *)
Definition quiet : Queue.Env :=
  {| Queue.net := fun _ c =>
       match c with
       | Redis.SETNX _ _ => Return (Redis.RInt 1)
       | Redis.SCRIPT_EXISTS _ => Return (Redis.RInts [0])
       | Redis.CLIENT_LIST => Return (Redis.RBulk "")
       | Redis.SCAN_MATCH _ _ _ => Return (Redis.RScan "0" [])
       | _ => Return Redis.ROk
       end;
     Queue.connect_error := fun _ => None;
     Queue.now := 1000;
     Queue.random := 1 # 2;
     Queue.pid := 4242;
     Queue.hostname := "box" |}.

End Reference.

(** ** Concrete inputs *)

Module Scenarios.
Import Queue Reference.

(** A queue named ["A"] right after construction, and after [start()]
    against the quiet server. *)
Definition fresh : RedisQueue := new "A" DEFAULT_IMQ_OPTIONS.

Definition started : RedisQueue := (start quiet fresh).2.

(** The queue ["A"] after [queue.on('error', listener)]. *)
Definition subscribed : RedisQueue := (on_error fresh).2.

(** A queue constructed with the empty name. *)
Definition nameless : RedisQueue := new "" DEFAULT_IMQ_OPTIONS.

(** The watcher owner of a safe-delivery deployment. *)
Definition safe_options : IMQOptions :=
  {| host := "localhost"; port := 6379; prefix := "imq";
     watcherCheckDelay := 5000; useGzip := false;
     safeDelivery := true; safeDeliveryTtl := 5000 |}.

Definition owner : RedisQueue := (start quiet (new "A" safe_options)).2.

(** A server whose every answer is a failure of the connection. *)
Definition unreachable : Env :=
  {| net := fun _ _ => Throw (Error "Connection lost");
     connect_error := fun _ => None;
     now := 1000;
     random := 1 # 2;
     pid := 4242;
     hostname := "box" |}.

(** A server whose scan lists, in one page, a worker key that expires at
    1200 and one that expired at 999. *)
Definition patrol : Env :=
  {| net := fun _ c =>
       match c with
       | Redis.SCAN_MATCH "0" _ _ =>
           Return (Redis.RScan "0" ["imq:Q:worker:abc:1200";
                                    "imq:Q:worker:def:999"])
       | _ => Return Redis.ROk
       end;
     connect_error := fun _ => None;
     now := 1000;
     random := 1 # 2;
     pid := 4242;
     hostname := "box" |}.

(** Three delayed messages, two of them due at time 1000, and one message
    on the ready list. *)
Definition due_db : Redis.db :=
  Redis.mkDb
    {[ "imq:Q:delayed" := Redis.RZSet [(900, "m1"); (1000, "m2"); (1500, "m3")];
       "imq:Q" := Redis.RList ["m0"] ]}
    ∅.

(** An envelope with a nested payload. *)
Definition sample : json :=
  envelope "uuid-0"
    (JObj [("a", JNum 1); ("b", JArr [JStr "x"; JNull; JBool true; JNum (-12)])])
    "A".

(** An envelope whose payload has characters that are escaped, a character
    above 127, a negative number, and an empty array and object. *)
Definition parcel : json :=
  envelope "uuid-1"
    (JObj [("text", JStr (String "034" (String "010" (String "001"
                            (String "233" (String "092" "ok"))))));
           ("n", JNum (-9007199254740991));
           ("list", JArr [JArr []; JObj []; JBool false; JNull; JNum 0])])
    "A".

(** An argument that refers to itself: [const o = {}; o.self = o]. *)
Definition self_reference : gmap positive Profile.cell :=
  {[ 1%positive := Profile.Obj [("self", Profile.VRef 1)] ]}.

(** A method that returns 42 whatever it is called with. *)
Definition answer (args : list Profile.value) : outcome Profile.result :=
  Return (Profile.Plain (Profile.VNum 42)).

End Scenarios.

(** ** The keys a sweep meets *)

Module Sweeping.
Import JsString Queue.

(** A worker key ["<prefix>:<queueName>:<middle>:<expireMs>"], by its
    segments; [middle] is ["worker:<id>"] for the keys the queue creates. *)
Record worker := mkWorker {
  w_prefix : string;
  w_queue : string;
  w_middle : string;
  w_expire : string;
}.

Definition worker_key (w : worker) : string :=
  w_prefix w +:+ ":" +:+ w_queue w +:+ ":" +:+ w_middle w +:+ ":" +:+ w_expire w.

(** The parent list: the first two segments. *)
Definition parent_key (w : worker) : string :=
  w_prefix w +:+ ":" +:+ w_queue w.

(** Prefix, queue name and expiry hold no colon. *)
Definition well_formed (w : worker) : bool :=
  free_of colon (w_prefix w) && free_of colon (w_queue w)
  && free_of colon (w_expire w).

(** [expireMs >= now] *)
Definition due {rt : JsRuntime} (now : Z) (w : worker) : bool :=
  jsnum_ge (Number (w_expire w)) now.

(** One [RPOPLPUSH worker parent] for every due worker key, in order. *)
Definition rescued {rt : JsRuntime} (now : Z) (ws : list worker)
    : list (channel * Redis.command) :=
  List.map (fun w => (Writer, Redis.RPOPLPUSH (worker_key w) (parent_key w)))
    (List.filter (due now) ws).

(** The pages of one scan: each with the cursor the server hands back and
    the worker keys it lists.  The commands of a whole sweep over them: for
    each page the [SCAN] from the cursor reached, then the rescues. *)
Fixpoint sweep_commands {rt : JsRuntime} (pattern : string) (now : Z)
    (cursor : string) (pages : list (string * list worker))
    : list (channel * Redis.command) :=
  match pages with
  | [] => []
  | (next, ws) :: rest =>
      (Writer, Redis.SCAN_MATCH cursor pattern "1000")
      :: rescued now ws ++ sweep_commands pattern now next rest
  end.

(** The server answers the scan from [cursor] on with these pages, the
    last of them, and only the last, with the cursor ["0"]. *)
Fixpoint scan_answers (env : Env) (pattern : string) (cursor : string)
    (pages : list (string * list worker)) : Prop :=
  match pages with
  | [] => False
  | (next, ws) :: rest =>
      (forall n, net env n (Redis.SCAN_MATCH cursor pattern "1000")
                 = Return (Redis.RScan next (List.map worker_key ws))) /\
      match rest with
      | [] => next = "0"
      | _ :: _ => next <> "0" /\ scan_answers env pattern next rest
      end
  end.

(** No [RPOPLPUSH] fails. *)
Definition rescues_succeed (env : Env) : Prop :=
  forall n k dst e, net env n (Redis.RPOPLPUSH k dst) <> Throw e.

Definition sends (cs : list (channel * Redis.command)) : list effect :=
  List.map (fun c => Send c.1 c.2) cs.

End Sweeping.

(** ** What a method leaves alone and what it establishes *)

Module Frame.
Import Queue.

(** [m] leaves the name, the options and the identifier counter alone. *)
Definition preserves {A} (m : Js RedisQueue A) : Prop :=
  forall q, identity (m q).2 = identity q.

(** Every [Return] of [m] ends in a state with [P]. *)
Definition ensures {A} (P : RedisQueue -> Prop) (m : Js RedisQueue A) : Prop :=
  forall q a q', m q = (Return a, q') -> P q'.

End Frame.

(** ** The rest of the life cycle: [clear], [stop], [destroy] *)

Module Teardown.
Import Queue.

(** The emitters whose listeners are removed: the queue itself or one of
    its connections. *)
Inductive emitter := OfQueue | OfConnection (ch : channel).

(** What [stop()] and [destroy()] do to an emitter or a connection. *)
Inductive closing :=
| RemoveAllListeners (e : emitter)
| EndConnection (ch : channel)
| Unref (ch : channel).

(** What closing one connection records. *)
Definition shut_log (ch : channel) : list closing :=
  [RemoveAllListeners (OfConnection ch); EndConnection ch; Unref ch].

Section Methods.
Context {rt : JsRuntime} (env : Env).

(** The instance together with what has been closed so far. *)
Abbreviation T := (Js (RedisQueue * list closing)).

Definition lift {A} (m : Js RedisQueue A) : T A :=
  fun s => match m s.1 with (o, q') => (o, (q', s.2)) end.

Definition close (c : closing) : T unit :=
  modify (fun s => (s.1, s.2 ++ [c])).

(** [connection.removeAllListeners(); connection.end(false);
    connection.unref()] *)
Definition shut (ch : channel) : T unit :=
  close (RemoveAllListeners (OfConnection ch));;
  close (EndConnection ch);;
  close (Unref ch).

(** [clear()]: both [DEL] are sent, then awaited together. *)
Definition clear : Js RedisQueue unit :=
  q <- this;;
  if negb (writer q) then ret tt
  else
    r1 <- settle (call env Writer (Redis.DEL (key q)));;
    r2 <- settle (call env Writer (Redis.DEL (key q +:+ ":delayed")));;
    match r1, r2 with
    | Throw e, _ => throw e
    | _, Throw e => throw e
    | _, _ => ret tt
    end.

(** [stop()] *)
Definition stop : T unit :=
  q <- lift this;;
  when (reader q)
    (shut Reader;;
     lift (modify (set_reader false)));;
  lift (modify (set_initialized false)).

(** [destroy()]. The flag [__ready__] lives on the watcher connection and
    goes with it. *)
Definition destroy : T unit :=
  close (RemoveAllListeners OfQueue);;
  lift (modify (set_onError false));;
  q <- lift this;;
  when (safeCheckInterval q)
    (lift (effect_ ClearInterval);;
     lift (modify (set_safeCheckInterval false)));;
  when (watcher q)
    (shut Watcher;;
     lift (modify (fun q => set_watcher_ready false
                              (set_watchers (watchers q ∖ {[redisKey q]}) q))));;
  stop;;
  lift clear;;
  q' <- lift this;;
  when (writer q')
    (shut Writer;;
     lift (modify (fun q => set_writers (writers q ∖ {[redisKey q]}) q))).

End Methods.

(** The instance after the synchronous part of [destroy] and [stop]. *)
Definition wound_down (q : RedisQueue) : RedisQueue :=
  let q0 := set_onError false q in
  let q1 := if safeCheckInterval q
            then set_safeCheckInterval false
                   (set_trace (trace q0 ++ [ClearInterval]) q0)
            else q0 in
  let q2 := if watcher q
            then set_watcher_ready false
                   (set_watchers (watchers q1 ∖ {[redisKey q1]}) q1)
            else q1 in
  set_initialized false (if reader q then set_reader false q2 else q2).

Definition wound_down_log (q : RedisQueue) : list closing :=
  RemoveAllListeners OfQueue
  :: (if watcher q then shut_log Watcher else [])
  ++ (if reader q then shut_log Reader else []).

End Teardown.

(** ** The unsafe read loop *)

Module Reading.
Import Queue.

(** [hay] has [needle] somewhere in it: [/needle/.test(hay)] for a needle
    without special characters. *)
Fixpoint contains (needle hay : string) : bool :=
  match strip_prefix needle hay with
  | Some _ => true
  | None =>
      match hay with
      | EmptyString => false
      | String _ rest => contains needle rest
      end
  end.

(** [err.message] *)
Definition message_of (err : jserror) : string :=
  match err with
  | TypeError msg => msg
  | SyntaxError msg => msg
  | Error msg => msg
  end.

Section Methods.
Context {rt : JsRuntime}.
(** How the i-th [BRPOP] of the loop settles: with a failure, with nil, or
    with the pair [[key, data]]. *)
Variable pops : nat -> outcome (option (string * string)).

(** [await this.reader.brpop(key, 0)] *)
Definition brpop (k : string) (i : nat) : Js RedisQueue (option (string * string)) :=
  cast Reader (Redis.BRPOP k);;
  match pops i with
  | Return r => ret r
  | Throw e => throw e
  end.

(** [this.process(msg)]: nil cannot be destructured. *)
Definition deliver (msg : option (string * string)) : Js RedisQueue unit :=
  match msg with
  | Some (k, data) => process (Some k, data)
  | None => throw (TypeError "msg is not iterable")
  end.

(** The [while (true)] of [readUnsafe], from its i-th turn on; [fuel]
    bounds the number of turns, and the result tells whether the loop was
    left by a [break]. *)
Fixpoint unsafe_loop (fuel : nat) (k : string) (i : nat) : Js RedisQueue bool :=
  match fuel with
  | O => ret false
  | S fuel' =>
      q <- this;;
      if negb (reader q) then ret true
      else
        turn <- settle (msg <- brpop k i;; deliver msg);;
        match turn with
        | Return _ => unsafe_loop fuel' k (S i)
        | Throw err =>
            if contains "Stream connection ended" (message_of err)
            then ret true
            else throw err
        end
  end.

(** The callback [readUnsafe()] hands to [process.nextTick]. *)
Definition readUnsafe (fuel : nat) : Js RedisQueue bool :=
  try_catch
    (q <- this;;
     unsafe_loop fuel (key q) 0)
    (fun err =>
       emit (error_event err "OnReadUnsafe");;
       log LogError "unsafe reader failed";;
       ret true).

End Methods.

(** The events among the effects, in order. *)
Definition events (t : list effect) : list event :=
  omap (fun e => match e with Emit ev => Some ev | _ => None end) t.

(** The ['message'] event for an envelope [(id, message, from)]. *)
Definition delivered (e : string * json * string) : event :=
  let '(id, message, from) := e in
  message_event (Some message) (Some (JStr id)) (Some (JStr from)).

End Reading.

(** ** Connections opened over a run *)

Module Connections.
Import Queue.

Definition same_channel (a b : channel) : bool :=
  match a, b with
  | Reader, Reader | Writer, Writer | Watcher, Watcher => true
  | _, _ => false
  end.

Definition is_create (ch : channel) (e : effect) : bool :=
  match e with
  | CreateClient ch' => same_channel ch' ch
  | _ => false
  end.

(** How many times [redis.createClient] was called for a channel. *)
Definition created (ch : channel) (t : list effect) : nat :=
  length (List.filter (is_create ch) t).

(** From [q] to [q']: effects were only added, no connection went away,
    and a client was created for a channel at most once, only when the
    instance had none, and then the instance has it. *)
Definition opens_once (q q' : RedisQueue) : Prop :=
  exists t,
    trace q' = trace q ++ t /\
    forall ch,
      (created ch t <= 1)%nat /\
      (has_channel ch q = true ->
       created ch t = 0%nat /\ has_channel ch q' = true) /\
      (created ch t = 1%nat -> has_channel ch q' = true).

Definition steps {A} (m : Js RedisQueue A) : Prop :=
  forall q, opens_once q (m q).2.

(** *** What a sweep leaves behind *)

Definition is_send (e : effect) : bool :=
  match e with
  | Send _ _ => true
  | _ => false
  end.

(** From [q] to [q'] commands were sent and nothing else was done; the
    sweep timer is as it was. *)
Definition sends_only (q q' : RedisQueue) : Prop :=
  exists t,
    trace q' = trace q ++ t /\
    forallb is_send t = true /\
    safeCheckInterval q' = safeCheckInterval q /\
    onError q' = onError q.

(** How a sweep with a writer ends: cleanly; on a failed command with an
    ['error'] listener, with its one error event and the timer cancelled;
    on a failed command without one, by throwing the failure, the timer
    left running. *)
Definition sweep_ended (q q' : RedisQueue) (o : outcome bool)
    (t : list effect) : Prop :=
  (exists b, o = Return b /\
     forallb is_send t = true /\
     safeCheckInterval q' = safeCheckInterval q) \/
  (exists t0 e,
     onError q = true /\ o = Return true /\
     t = t0 ++ [Emit (error_event e "OnSafeDelivery"); ClearInterval] /\
     forallb is_send t0 = true /\
     safeCheckInterval q' = false) \/
  (exists e,
     onError q = false /\ o = Throw e /\
     forallb is_send t = true /\
     safeCheckInterval q' = safeCheckInterval q).

(** The ['error'] listener stays as it is. *)
Definition same_listener (q q' : RedisQueue) : Prop := onError q' = onError q.

(** *** Watcher ownership *)

Definition respects (R : RedisQueue -> RedisQueue -> Prop) {A}
    (m : Js RedisQueue A) : Prop :=
  forall q, R q (m q).2.

(** The instance is, or has been, the watcher owner: [watchOwner] is set
    or the script's checksum is known. *)
Definition marked (q : RedisQueue) : Prop :=
  watchOwner q = true \/ checksum q <> None.

(** From [q] to [q'] the options were kept and the effects [t] were added,
    each command among them counted once. *)
Definition grown (q q' : RedisQueue) (t : list effect) : Prop :=
  options q' = options q /\
  trace q' = trace q ++ t /\
  sent q' = (sent q + length (commands t))%nat.

Definition carries_on (q q' : RedisQueue) : Prop := exists t, grown q q' t.

(** The same, with the marks of ownership untouched. *)
Definition keeps_marks (q q' : RedisQueue) : Prop :=
  carries_on q q' /\
  watchOwner q' = watchOwner q /\ checksum q' = checksum q.

(** Among the commands of [t], issued from [q] on, one is [SETNX] on the
    lock key, sent on the writer connection, and the server answered it
    with a non-zero integer. *)
Definition lock_won (env : Env) (q : RedisQueue) (t : list effect) : Prop :=
  exists i r,
    commands t !! i = Some (Writer, Redis.SETNX (lockKey q) "") /\
    net env (sent q + i)%nat (Redis.SETNX (lockKey q) "") = Return r /\
    reply_truthy r = true.

Definition owns_by_lock (env : Env) (q q' : RedisQueue) : Prop :=
  exists t,
    grown q q' t /\
    (marked q' -> marked q \/ lock_won env q t).

End Connections.

(** ** More concrete inputs *)

Module Cases.
Import Queue Reference Scenarios.

(** A key space in which the ready list's key holds a plain string. *)
Definition clashing_db : Redis.db :=
  Redis.mkDb
    {[ "imq:Q:delayed" := Redis.RZSet [(900, "m1")];
       "imq:Q" := Redis.RString "x" ]}
    ∅.

(** The queue ["Q"] that [started] sends to. *)
Definition receiver : RedisQueue := new "Q" DEFAULT_IMQ_OPTIONS.

(** Two envelopes for the queue ["A"], and a reader connection that pops
    them and is then closed. *)
Definition inbox : list (string * json * string) :=
  [("id-1", JNum 1, "B"); ("id-2", JStr "two", "C")].

Definition two_then_closed (i : nat) : outcome (option (string * string)) :=
  match i with
  | 0%nat => Return (Some ("imq:A", JSON_stringify (envelope "id-1" (JNum 1) "B")))
  | 1%nat => Return (Some ("imq:A", JSON_stringify (envelope "id-2" (JStr "two") "C")))
  | _ => Throw (Error "Stream connection ended")
  end.

End Cases.

(** * Theorems *)

(** ** The split/join lemmas the key-parsing code rests on *)

Module JsStringFacts.
Import JsString.

Lemma split_nonempty sep s : split sep s <> [].
Proof.
  destruct s as [|c rest]; simpl; [discriminate|].
  destruct (Ascii.eqb c sep); [discriminate|].
  destruct (split sep rest); discriminate.
Qed.

Lemma split_free sep s : free_of sep s = true -> split sep s = [s].
Proof.
  induction s as [|c rest IH]; simpl; [reflexivity|].
  intros [Hc Hrest]%andb_prop.
  apply negb_true_iff in Hc. rewrite Hc, (IH Hrest). reflexivity.
Qed.

Lemma split_cons_free sep a b :
  free_of sep a = true ->
  split sep (a +:+ String sep b) = a :: split sep b.
Proof.
  induction a as [|c rest IH]; simpl.
  - intros _. rewrite Ascii.eqb_refl. reflexivity.
  - intros [Hc Hrest]%andb_prop.
    apply negb_true_iff in Hc. rewrite Hc, (IH Hrest). reflexivity.
Qed.

Lemma split_app sep a b :
  split sep (a +:+ String sep b) = split sep a ++ split sep b.
Proof.
  induction a as [|c rest IH]; simpl.
  - rewrite Ascii.eqb_refl. reflexivity.
  - destruct (Ascii.eqb c sep); [rewrite IH; reflexivity|].
    rewrite IH.
    destruct (split sep rest) as [|seg segs] eqn:E;
      [destruct (split_nonempty _ _ E)|reflexivity].
Qed.

Lemma append_assoc (a b c : string) : (a +:+ b) +:+ c = a +:+ (b +:+ c).
Proof.
  induction a as [|x a IH]; [reflexivity|].
  change (String x ((a +:+ b) +:+ c) = String x (a +:+ (b +:+ c))).
  rewrite IH. reflexivity.
Qed.

Lemma join_cons sep x y rest :
  join sep (x :: y :: rest) = x +:+ String sep (join sep (y :: rest)).
Proof. reflexivity. Qed.

Lemma join_split sep s : join sep (split sep s) = s.
Proof.
  induction s as [|c rest IH]; simpl; [reflexivity|].
  destruct (Ascii.eqb c sep) eqn:Hc.
  - apply Ascii.eqb_eq in Hc. subst c.
    destruct (split sep rest) as [|seg segs] eqn:E;
      [destruct (split_nonempty _ _ E)|].
    rewrite join_cons, IH. reflexivity.
  - destruct (split sep rest) as [|seg segs] eqn:E;
      [destruct (split_nonempty _ _ E)|].
    destruct segs as [|seg' segs'].
    + simpl in *. congruence.
    + rewrite join_cons in *. rewrite <- IH. reflexivity.
Qed.

Lemma join_app sep a b :
  a <> [] -> b <> [] ->
  join sep (a ++ b) = join sep a +:+ String sep (join sep b).
Proof.
  induction a as [|x a IH]; [congruence|].
  intros _ Hb. destruct a as [|y a].
  - destruct b; [congruence|]. reflexivity.
  - change ((x :: y :: a) ++ b) with (x :: (y :: a) ++ b).
    change ((y :: a) ++ b) with (y :: (a ++ b)).
    rewrite join_cons. change (y :: a ++ b) with ((y :: a) ++ b).
    rewrite IH by (congruence || assumption).
    rewrite join_cons.
    rewrite append_assoc. reflexivity.
Qed.

Lemma last_app_singleton {A} (l : list A) x : last (l ++ [x]) = Some x.
Proof. apply last_snoc. Qed.

End JsStringFacts.

(** ** Facts about the server model and the [moveDelayed] script *)

Module RedisFacts.
Import Redis.

Lemma list_at_put_list k l d : list_at (put_list k l d) k = Some l.
Proof.
  unfold list_at, put_list. destruct l; simpl.
  - rewrite lookup_delete_eq. reflexivity.
  - rewrite lookup_insert_eq. reflexivity.
Qed.

Lemma data_put_list_ne k k' l d :
  k <> k' -> data (put_list k l d) !! k' = data d !! k'.
Proof.
  intros Hne. unfold put_list. destruct l; simpl.
  - apply lookup_delete_ne; assumption.
  - apply lookup_insert_ne; assumption.
Qed.

Lemma zset_at_put_zset k z d : zset_at (put_zset k z d) k = Some z.
Proof.
  unfold zset_at, put_zset. destruct z; simpl.
  - rewrite lookup_delete_eq. reflexivity.
  - rewrite lookup_insert_eq. reflexivity.
Qed.

Lemma data_put_zset_ne k k' z d :
  k <> k' -> data (put_zset k z d) !! k' = data d !! k'.
Proof.
  intros Hne. unfold put_zset. destruct z; simpl.
  - apply lookup_delete_ne; assumption.
  - apply lookup_insert_ne; assumption.
Qed.

Lemma put_list_put_list k l1 x l2 d :
  l1 <> [] -> put_list k l1 (put_list k (x :: l2) d) = put_list k l1 d.
Proof.
  intros Hl1. destruct l1 as [|y l1]; [congruence|].
  unfold put_list; simpl. rewrite insert_insert_eq. reflexivity.
Qed.

(** [LPUSH] puts the value at the head and touches no other key. *)
Lemma lpush_effect (d : db) k v l :
  list_at d k = Some l ->
  exists d',
    lpush k v d = (RInt (Z.of_nat (S (length l))), d') /\
    list_at d' k = Some (v :: l) /\
    (forall k', k' <> k -> data d' !! k' = data d !! k').
Proof.
  intros Hl. exists (put_list k (v :: l) d). unfold lpush. rewrite Hl.
  split; [reflexivity|]. split; [apply list_at_put_list|].
  intros k' Hne. apply data_put_list_ne. congruence.
Qed.

Lemma zinsert_In e x z : In e (zinsert x z) <-> e = x \/ In e z.
Proof.
  induction z as [|y z IH]; simpl.
  - intuition congruence.
  - destruct (zle x y); simpl; [intuition congruence|].
    rewrite IH. intuition congruence.
Qed.

(** [ZADD] leaves the member in the set with the new score, keeps the
    other members and touches no other key. *)
Lemma zadd_effect (d : db) k score m z :
  zset_at d k = Some z ->
  exists n d' z',
    zadd k score m d = (RInt n, d') /\
    zset_at d' k = Some z' /\
    (forall e, In e z' <-> e = (score, m) \/ (In e z /\ e.2 <> m)) /\
    (forall k', k' <> k -> data d' !! k' = data d !! k').
Proof.
  intros Hz. unfold zadd. rewrite Hz. do 3 eexists.
  split; [reflexivity|]. split; [apply zset_at_put_zset|]. split.
  - intros e. rewrite zinsert_In. unfold zremove. rewrite filter_In.
    rewrite negb_true_iff, String.eqb_neq. intuition congruence.
  - intros k' Hne. apply data_put_zset_ne. congruence.
Qed.

(** [SET key value PX px NX] creates the key with its time-to-live, and
    leaves a key that exists as it is. *)
Lemma set_px_nx_effect (d : db) k v px :
  0 < px ->
  (data d !! k = None ->
   exists d',
     set_px_nx k v px d = (ROk, d') /\
     data d' !! k = Some (RString v) /\
     expiry d' !! k = Some px /\
     (forall k', k' <> k -> data d' !! k' = data d !! k')) /\
  (data d !! k <> None -> set_px_nx k v px d = (RNil, d)).
Proof.
  intros Hpx. unfold set_px_nx.
  destruct (Z.leb_spec px 0) as [?|_]; [lia|]. split.
  - intros ->. eexists. split; [reflexivity|]. simpl.
    rewrite !lookup_insert_eq. repeat split.
    intros k' Hne. apply lookup_insert_ne. congruence.
  - intros Hk. destruct (data d !! k); [reflexivity|congruence].
Qed.

(** Which members a range query returns. *)
Lemma zrange_upto_spec max z m :
  In m (zrange_upto max z) <-> exists s, In (s, m) z /\ s <= max.
Proof.
  unfold zrange_upto. rewrite in_map_iff. split.
  - intros [[s m'] [Hm Hin]]. simpl in Hm. subst m'.
    apply filter_In in Hin as [Hin Hle]. exists s. split; [assumption|].
    simpl in Hle. lia.
  - intros [s [Hin Hle]]. exists (s, m). split; [reflexivity|].
    apply filter_In. split; [assumption|]. simpl. lia.
Qed.

Lemma zrange_upto_nil max z : zrange_upto max z = [] -> zrem_upto max z = z.
Proof.
  unfold zrange_upto, zrem_upto. induction z as [|e z IH]; simpl; [reflexivity|].
  destruct (e.1 <=? max); simpl; [discriminate|].
  intros H. rewrite (IH H). reflexivity.
Qed.

(** The push loop reverses the iteration order onto the head of the list. *)
Lemma lpush_each_spec k : forall messages d l,
  list_at d k = Some l -> messages <> [] ->
  lpush_each k messages d = (inr tt, put_list k (rev messages ++ l) d).
Proof.
  induction messages as [|m rest IH]; intros d l Hl Hne; [congruence|].
  simpl. unfold lua_bind, redis_call, lpush. rewrite Hl.
  destruct rest as [|m' rest'].
  - reflexivity.
  - rewrite (IH _ (m :: l)); [| apply list_at_put_list | discriminate].
    rewrite put_list_put_list.
    + change (rev (m :: m' :: rest')) with (rev (m' :: rest') ++ [m]).
      rewrite <- app_assoc. reflexivity.
    + intros H. apply app_eq_nil in H as [_ H]. discriminate.
Qed.

(** C2: run once on a sorted set [z] at [KEYS[1]] and a list [l] at
    [KEYS[2]] (an absent key reads as empty), [moveDelayed] returns the number
    of members whose score is at most [ARGV[1]]; those members, taken in the
    iteration order of the sorted set, have each been left-pushed onto the
    list, the scored range is gone from the sorted set, and no other key has
    changed. When no member qualifies, the key space is left as it was and
    the script returns 0. *)
Theorem moveDelayed_moves_due_members
    (d : db) (zkey lkey : string) (now : Z)
    (z : list (Z * string)) (l : list string) :
  zset_at d zkey = Some z ->
  list_at d lkey = Some l ->
  let moved := zrange_upto now z in
  (forall m, In m moved <-> exists s, In (s, m) z /\ s <= now) /\
  exists d',
    moveDelayed zkey lkey now d = (inr (Z.of_nat (length moved)), d') /\
    list_at d' lkey = Some (rev moved ++ l) /\
    zset_at d' zkey = Some (zrem_upto now z) /\
    (forall k, k <> zkey -> k <> lkey -> data d' !! k = data d !! k) /\
    (moved = [] -> d' = d /\ length moved = 0%nat).
Proof.
  intros Hz Hl moved. split; [intros m; apply zrange_upto_spec|].
  unfold moveDelayed, lua_bind, redis_call, zrangebyscore. rewrite Hz.
  simpl lua_table. fold moved.
  destruct moved as [|m rest] eqn:Hmoved.
  - exists d. simpl. repeat split; try assumption.
    rewrite (zrange_upto_nil _ _ Hmoved). assumption.
  - assert (Hne : zkey <> lkey).
    { intros ->. unfold zset_at, list_at in *.
      destruct (data d !! lkey) as [[]|]; try discriminate.
      injection Hz as <-. discriminate. }
    exists (put_zset zkey (zrem_upto now z)
              (put_list lkey (rev (m :: rest) ++ l) d)).
    split; [|split; [|split; [|split]]].
    + change (lua_table (RMulti (m :: rest))) with (m :: rest).
      change (0 <? Z.of_nat (length (m :: rest))) with true. cbv iota beta.
      rewrite (lpush_each_spec lkey (m :: rest) d l Hl) by discriminate.
      unfold zremrangebyscore.
      assert (Hz' : zset_at (put_list lkey (rev (m :: rest) ++ l) d) zkey = Some z).
      { unfold zset_at. rewrite data_put_list_ne by congruence. exact Hz. }
      rewrite Hz'. fold moved. rewrite Hmoved. reflexivity.
    + unfold list_at. rewrite data_put_zset_ne by assumption.
      apply list_at_put_list.
    + apply zset_at_put_zset.
    + intros k Hk1 Hk2.
      rewrite data_put_zset_ne, data_put_list_ne by congruence. reflexivity.
    + discriminate.
Qed.

End RedisFacts.

(** ** Facts about the monad *)

Module JsFacts.

Lemma bind_return {S A B} (m : Js S A) (f : A -> Js S B) s a s' :
  m s = (Return a, s') -> bind m f s = f a s'.
Proof. intros H. unfold bind. rewrite H. reflexivity. Qed.

Lemma bind_throw {S A B} (m : Js S A) (f : A -> Js S B) s e s' :
  m s = (Throw e, s') -> bind m f s = (Throw e, s').
Proof. intros H. unfold bind. rewrite H. reflexivity. Qed.

Lemma bind_inv {S A B} (m : Js S A) (f : A -> Js S B) s b s2 :
  bind m f s = (Return b, s2) ->
  exists a s1, m s = (Return a, s1) /\ f a s1 = (Return b, s2).
Proof.
  unfold bind. destruct (m s) as [[a|e] s1]; intros H; [eauto|discriminate].
Qed.

End JsFacts.

(** ** The watcher: expired-key events and the safe-delivery sweep *)

Module WatcherFacts.
Import JsString JsStringFacts Queue.

Section WithRuntime.
Context {rt : JsRuntime} (env : Env).

Lemma append_colon (a b : string) : a +:+ ":" +:+ b = a +:+ String colon b.
Proof. reflexivity. Qed.

Lemma removelast_snoc {A} (l : list A) x : removelast (l ++ [x]) = l.
Proof. apply removelast_last. Qed.

Lemma split_ttl_key (listKey id : string) :
  free_of colon id = true ->
  split colon (listKey +:+ ":" +:+ id +:+ ":ttl")
  = split colon listKey ++ [id; "ttl"].
Proof.
  intros Hid. rewrite !append_colon, split_app.
  rewrite split_cons_free by assumption. reflexivity.
Qed.

(** C5: the listener looks at the last argument of the event, the expired
    key. It calls [processDelayed] exactly when the key's last segment is
    ["ttl"], and then with the key's segments but the last two joined again;
    any other key is ignored. For the beacon ["<listKey>:<id>:ttl"] of a
    delayed message the call is [processDelayed(listKey)]. *)
Theorem pmessage_promotes_on_ttl_only
    (pattern channel expired : string) (q : RedisQueue) :
  let segments := split colon expired in
  (last segments = Some "ttl" ->
   on_pmessage env [pattern; channel; expired] q
   = try_catch
       (processDelayed env (join colon (removelast (removelast segments))))
       on_watch_error q) /\
  (last segments <> Some "ttl" ->
   on_pmessage env [pattern; channel; expired] q = (Return tt, q)) /\
  (forall listKey id,
     free_of colon id = true ->
     expired = listKey +:+ ":" +:+ id +:+ ":ttl" ->
     last segments = Some "ttl" /\
     join colon (removelast (removelast segments)) = listKey).
Proof.
  intros segments. split; [|split].
  - intros Hlast. unfold on_pmessage, try_catch, pop.
    change (last [pattern; channel; expired]) with (Some expired).
    cbv beta iota. fold segments.
    rewrite bool_decide_eq_true_2 by assumption. reflexivity.
  - intros Hlast. unfold on_pmessage, try_catch, pop.
    change (last [pattern; channel; expired]) with (Some expired).
    cbv beta iota. fold segments.
    rewrite bool_decide_eq_false_2 by assumption. reflexivity.
  - intros listKey id Hid ->. unfold segments.
    rewrite split_ttl_key by assumption.
    change [id; "ttl"] with ([id] ++ ["ttl"]). rewrite app_assoc.
    split; [apply last_snoc|].
    rewrite !removelast_snoc. apply join_split.
Qed.

(** An awaited command on a connection that is there: the command is
    recorded, and the call settles the way the server answers. *)
Lemma call_present ch c (q : RedisQueue) :
  has_channel ch q = true ->
  call env ch c q
  = (net env (sent q) c,
     set_trace (trace q ++ [Send ch c]) (set_sent (S (sent q)) q)).
Proof.
  intros H. unfold call, bind, gets, modify, effect_, ret, throw.
  rewrite H. simpl. destruct (net env (sent q) c); reflexivity.
Qed.

Lemma split_worker_key (pfx queueName mid expire : string) :
  free_of colon pfx = true ->
  free_of colon queueName = true ->
  free_of colon expire = true ->
  split colon (pfx +:+ ":" +:+ queueName +:+ ":" +:+ mid +:+ ":" +:+ expire)
  = (pfx :: queueName :: split colon mid) ++ [expire].
Proof.
  intros Hp Hq He. rewrite !append_colon.
  rewrite (split_cons_free _ pfx) by assumption.
  rewrite (split_cons_free _ queueName) by assumption.
  rewrite split_app, (split_free _ expire) by assumption. reflexivity.
Qed.

Lemma worker_key_not_parent (pfx queueName mid expire : string) :
  free_of colon pfx = true ->
  free_of colon queueName = true ->
  free_of colon expire = true ->
  pfx +:+ ":" +:+ queueName +:+ ":" +:+ mid +:+ ":" +:+ expire
  <> pfx +:+ ":" +:+ queueName.
Proof.
  intros Hp Hq He Heq. apply (f_equal (split colon)) in Heq.
  rewrite split_worker_key in Heq by assumption.
  rewrite append_colon, (split_cons_free _ pfx), (split_free _ queueName)
    in Heq by assumption.
  apply (f_equal (@length string)) in Heq. rewrite length_app in Heq.
  simpl in Heq. lia.
Qed.

(** [RPOPLPUSH] between two different lists. *)
Lemma rpoplpush_moves_tail (d : Redis.db) (src dst : string) l x p :
  src <> dst ->
  Redis.list_at d src = Some (l ++ [x]) ->
  Redis.list_at d dst = Some p ->
  exists d',
    Redis.rpoplpush src dst d = (Redis.RMulti [x], d') /\
    Redis.list_at d' src = Some l /\
    Redis.list_at d' dst = Some (x :: p) /\
    (forall k, k <> src -> k <> dst -> Redis.data d' !! k = Redis.data d !! k).
Proof.
  intros Hne Hsrc Hdst.
  exists (Redis.put_list dst (x :: p) (Redis.put_list src l d)).
  assert (Hdst' : Redis.list_at (Redis.put_list src l d) dst = Some p).
  { unfold Redis.list_at. rewrite RedisFacts.data_put_list_ne by assumption.
    exact Hdst. }
  split; [|split; [|split]].
  - unfold Redis.rpoplpush. rewrite Hsrc, last_snoc, Hdst, removelast_snoc.
    rewrite Hdst'. reflexivity.
  - unfold Redis.list_at at 1.
    rewrite RedisFacts.data_put_list_ne by congruence.
    apply RedisFacts.list_at_put_list.
  - apply RedisFacts.list_at_put_list.
  - intros k Hk1 Hk2.
    rewrite !RedisFacts.data_put_list_ne by congruence. reflexivity.
Qed.

(** Every key of a page is looked at, in order: as long as no command
    fails, the sweeper sends what [rescue] tells for each key. *)
Lemma sweep_key_effects (sweepStart : Z) (k : string) (q : RedisQueue) :
  writer q = true ->
  exists o q',
    sweep_key env sweepStart k q = (o, q') /\
    trace q' = trace q ++ rescue sweepStart k /\
    writer q' = true /\
    (o = Return tt \/ exists e n c, o = Throw e /\ net env n c = Throw e).
Proof.
  intros Hw. unfold sweep_key, rescue, pop.
  destruct (jsnum_ge _ sweepStart).
  - destruct (shift (removelast (split colon k))) as [a kp].
    destruct (shift kp) as [b kp'].
    unfold bind. rewrite call_present by exact Hw.
    destruct (net env (sent q) _) as [r|e] eqn:Hnet.
    + do 2 eexists. split; [reflexivity|]. repeat split; [exact Hw|].
      left. reflexivity.
    + do 2 eexists. split; [reflexivity|]. repeat split; [exact Hw|].
      right. eauto.
  - exists (Return tt), q. rewrite app_nil_r. repeat split; [exact Hw|].
    left. reflexivity.
Qed.

Lemma sweep_keys_effects (sweepStart : Z) (keys : list string) :
  (forall n c e, net env n c <> Throw e) ->
  forall q : RedisQueue,
    writer q = true ->
    exists q',
      sweep_keys env sweepStart keys q = (Return tt, q') /\
      trace q' = trace q ++ flat_map (rescue sweepStart) keys /\
      writer q' = true.
Proof.
  intros Hnet. induction keys as [|k rest IH]; intros q Hw.
  - exists q. simpl. rewrite app_nil_r. repeat split. exact Hw.
  - destruct (sweep_key_effects sweepStart k q Hw)
      as (o & q1 & Hk & Ht & Hw1 & [->|(e & n & c & _ & Hfail)]);
      [|destruct (Hnet _ _ _ Hfail)].
    destruct (IH q1 Hw1) as (q' & Hrest & Ht' & Hw').
    exists q'. simpl. unfold bind. rewrite Hk, Hrest.
    repeat split; [|exact Hw']. rewrite Ht', Ht, <- app_assoc. reflexivity.
Qed.

Lemma commands_sends cs : commands (Sweeping.sends cs) = cs.
Proof.
  induction cs as [|[ch c] rest IH]; [reflexivity|].
  change (commands (Sweeping.sends ((ch, c) :: rest)))
    with ((ch, c) :: commands (Sweeping.sends rest)).
  rewrite IH. reflexivity.
Qed.

Lemma sends_app a b :
  Sweeping.sends (a ++ b) = Sweeping.sends a ++ Sweeping.sends b.
Proof. apply map_app. Qed.

(** The loop body on a well-formed worker key. *)
Lemma sweep_key_worker (sweepStart : Z) (w : Sweeping.worker) (q : RedisQueue) :
  Sweeping.well_formed w = true ->
  writer q = true ->
  let c := Redis.RPOPLPUSH (Sweeping.worker_key w) (Sweeping.parent_key w) in
  sweep_key env sweepStart (Sweeping.worker_key w) q
  = if Sweeping.due sweepStart w
    then (match net env (sent q) c with
          | Return _ => Return tt
          | Throw e => Throw e
          end,
          set_trace (trace q ++ [Send Writer c]) (set_sent (S (sent q)) q))
    else (Return tt, q).
Proof.
  intros Hwf Hw c. unfold Sweeping.well_formed in Hwf.
  apply andb_prop in Hwf as [Hwf He]. apply andb_prop in Hwf as [Hp Hq].
  unfold sweep_key, pop, Sweeping.worker_key, Sweeping.due.
  rewrite split_worker_key by assumption.
  rewrite last_snoc, removelast_snoc.
  destruct (jsnum_ge (Number (Sweeping.w_expire w)) sweepStart);
    [|reflexivity].
  unfold shift, template, default. unfold bind.
  rewrite call_present by exact Hw.
  change (Datatypes.id (Sweeping.w_prefix w) +:+ ":" +:+
          Datatypes.id (Sweeping.w_queue w))
    with (Sweeping.parent_key w).
  fold (Sweeping.worker_key w). fold c.
  destruct (net env (sent q) c); reflexivity.
Qed.

Lemma commands_append (a b : list effect) :
  commands (a ++ b) = commands a ++ commands b.
Proof. apply omap_app. Qed.

Lemma sweep_keys_workers (sweepStart : Z) (ws : list Sweeping.worker) :
  forall q : RedisQueue,
    writer q = true ->
    forallb Sweeping.well_formed ws = true ->
    exists o q' cs,
      sweep_keys env sweepStart (List.map Sweeping.worker_key ws) q = (o, q') /\
      trace q' = trace q ++ Sweeping.sends cs /\
      writer q' = true /\ options q' = options q /\
      cs `prefix_of` Sweeping.rescued sweepStart ws /\
      (o = Return tt -> cs = Sweeping.rescued sweepStart ws) /\
      (Sweeping.rescues_succeed env -> o = Return tt).
Proof.
  induction ws as [|w rest IH]; intros q Hw Hwf.
  - exists (Return tt), q, []. cbn. rewrite app_nil_r.
    repeat split; [exact Hw|reflexivity].
  - cbn [forallb] in Hwf. apply andb_prop in Hwf as [Hwf Hrest].
    cbn [List.map sweep_keys]. unfold bind.
    rewrite (sweep_key_worker sweepStart w q Hwf Hw).
    unfold Sweeping.rescued. cbn [List.filter].
    destruct (Sweeping.due sweepStart w).
    + destruct (net env (sent q) _) as [r|e] eqn:Hnet.
      * edestruct (IH (set_trace
                         (trace q ++
                          [Send Writer
                             (Redis.RPOPLPUSH (Sweeping.worker_key w)
                                (Sweeping.parent_key w))])
                         (set_sent (S (sent q)) q)))
          as (o & q' & cs & Hrun & Ht & Hw' & Ho & Hpre & Hdone & Hall);
          [exact Hw|exact Hrest|].
        exists o, q',
          ((Writer, Redis.RPOPLPUSH (Sweeping.worker_key w)
                      (Sweeping.parent_key w)) :: cs).
        split; [exact Hrun|]. split.
        { rewrite Ht. cbn [trace set_trace]. rewrite <- app_assoc.
          reflexivity. }
        split; [exact Hw'|]. split; [exact Ho|]. split.
        { cbn [List.map]. apply prefix_cons. exact Hpre. }
        split; [|exact Hall].
        intros Hret. cbn [List.map]. f_equal. apply Hdone, Hret.
      * eexists. eexists.
        exists [(Writer, Redis.RPOPLPUSH (Sweeping.worker_key w)
                           (Sweeping.parent_key w))].
        split; [reflexivity|]. split; [reflexivity|].
        split; [exact Hw|]. split; [reflexivity|]. split.
        { cbn [List.map]. apply prefix_cons, prefix_nil. }
        split; [discriminate|].
        intros Hok. destruct (Hok _ _ _ _ Hnet).
    + destruct (IH q Hw Hrest)
        as (o & q' & cs & Hrun & Ht & Hw' & Ho & Hpre & Hdone & Hall).
      exists o, q', cs. repeat split; assumption.
Qed.

Lemma sweep_loop_pages (sweepStart : Z) (pattern : string)
    (pages : list (string * list Sweeping.worker)) :
  forall (cursor : string) (fuel : nat) (q : RedisQueue),
    writer q = true ->
    pattern = prefix (options q) +:+ ":*:worker:*" ->
    forallb (fun page => forallb Sweeping.well_formed page.2) pages = true ->
    Sweeping.scan_answers env pattern cursor pages ->
    (length pages <= fuel)%nat ->
    exists o q' t,
      sweep_loop env fuel sweepStart cursor q = (o, q') /\
      trace q' = trace q ++ t /\
      commands t
        `prefix_of` Sweeping.sweep_commands pattern sweepStart cursor pages /\
      (Sweeping.rescues_succeed env ->
       o = Return true /\
       commands t = Sweeping.sweep_commands pattern sweepStart cursor pages).
Proof.
  induction pages as [|[next ws] rest IH];
    intros cursor fuel q Hw Hpat Hwf Hscan Hfuel; [destruct Hscan|].
  cbn [forallb snd] in Hwf. apply andb_prop in Hwf as [Hwf Hrest].
  destruct Hscan as [Hpage Hnext].
  destruct fuel as [|fuel]; [cbn in Hfuel; lia|].
  cbn [sweep_loop Sweeping.sweep_commands].
  unfold bind at 1, settle, sweep_page.
  unfold bind at 1, this, gets. cbv beta iota. unfold bind at 1.
  rewrite call_present by exact Hw. rewrite <- Hpat, Hpage.
  unfold bind at 1.
  edestruct (sweep_keys_workers sweepStart ws
    (set_trace (trace q ++ [Send Writer (Redis.SCAN_MATCH cursor pattern "1000")])
       (set_sent (S (sent q)) q)))
    as (o & q1 & cs & Hrun & Ht & Hw1 & Ho1 & Hpre & Hdone & Hall);
    [exact Hw|exact Hwf|].
  rewrite Hrun. cbn [trace set_trace] in Ht.
  destruct o as [[]|e].
  - specialize (Hdone eq_refl). subst cs.
    unfold ret at 1. cbv beta iota.
    destruct rest as [|page rest'].
    + subst next. change ("0" =? "0")%string with true. cbv iota.
      exists (Return true), q1,
        (Send Writer (Redis.SCAN_MATCH cursor pattern "1000")
         :: Sweeping.sends (Sweeping.rescued sweepStart ws)).
      split; [reflexivity|]. split.
      { rewrite Ht, <- app_assoc. reflexivity. }
      cbn [Sweeping.sweep_commands]. rewrite app_nil_r.
      change (commands (Send Writer (Redis.SCAN_MATCH cursor pattern "1000")
                        :: Sweeping.sends (Sweeping.rescued sweepStart ws)))
        with ((Writer, Redis.SCAN_MATCH cursor pattern "1000")
              :: commands (Sweeping.sends (Sweeping.rescued sweepStart ws))).
      rewrite commands_sends. split; [reflexivity|]. intros _.
      split; reflexivity.
    + destruct Hnext as [Hne Hscan'].
      apply String.eqb_neq in Hne. rewrite Hne.
      edestruct (IH next fuel q1)
        as (o & q' & t & Hloop & Ht' & Hpre' & Hall');
        [exact Hw1|rewrite Ho1; exact Hpat|exact Hrest|exact Hscan'
        |simpl in Hfuel |- *; lia|].
      exists o, q',
        ((Send Writer (Redis.SCAN_MATCH cursor pattern "1000")
          :: Sweeping.sends (Sweeping.rescued sweepStart ws)) ++ t).
      split; [exact Hloop|]. split.
      { rewrite Ht', Ht, <- !app_assoc. reflexivity. }
      rewrite commands_append.
      change (commands (Send Writer (Redis.SCAN_MATCH cursor pattern "1000")
                        :: Sweeping.sends (Sweeping.rescued sweepStart ws)))
        with ((Writer, Redis.SCAN_MATCH cursor pattern "1000")
              :: commands (Sweeping.sends (Sweeping.rescued sweepStart ws))).
      rewrite commands_sends. cbn [app]. split.
      { apply prefix_cons, prefix_app. exact Hpre'. }
      intros Hok. destruct (Hall' Hok) as [-> ->]. split; reflexivity.
  - assert (Hcs : commands
             (Send Writer (Redis.SCAN_MATCH cursor pattern "1000")
              :: Sweeping.sends cs)
           `prefix_of`
           (Writer, Redis.SCAN_MATCH cursor pattern "1000")
           :: Sweeping.rescued sweepStart ws ++
              Sweeping.sweep_commands pattern sweepStart next rest).
    { change (commands (Send Writer (Redis.SCAN_MATCH cursor pattern "1000")
                        :: Sweeping.sends cs))
        with ((Writer, Redis.SCAN_MATCH cursor pattern "1000")
              :: commands (Sweeping.sends cs)).
      rewrite commands_sends. apply prefix_cons, prefix_app_r. exact Hpre. }
    unfold bind at 1, emit. unfold bind at 1, this, gets. cbv beta iota.
    destruct (onError q1).
    + unfold effect_, bind, modify, ret.
      eexists. eexists.
      exists ((Send Writer (Redis.SCAN_MATCH cursor pattern "1000")
               :: Sweeping.sends cs)
              ++ [Emit (error_event e "OnSafeDelivery"); ClearInterval]).
      split; [reflexivity|]. split.
      { cbn [trace set_trace set_safeCheckInterval].
        rewrite Ht, <- !app_assoc. reflexivity. }
      rewrite commands_append. change (commands [Emit _; ClearInterval])
        with (@nil (channel * Redis.command)).
      rewrite app_nil_r. split; [exact Hcs|].
      intros Hok. specialize (Hall Hok). discriminate.
    + exists (Throw e), q1,
        (Send Writer (Redis.SCAN_MATCH cursor pattern "1000")
         :: Sweeping.sends cs).
      split; [reflexivity|]. split.
      { rewrite Ht, <- app_assoc. reflexivity. }
      split; [exact Hcs|].
      intros Hok. specialize (Hall Hok). discriminate.
Qed.

(** C1: a whole sweep.  When the scan lists well-formed worker keys
    ["<prefix>:<queueName>:...:<expireMs>"], page after page until the cursor
    is ["0"], the sweep sends, for each page, the [SCAN] and then, for every
    key of the page in order, [RPOPLPUSH key "<prefix>:<queueName>"] exactly
    when the number in the key's last segment is at least the time read at
    the start of the sweep, and nothing for the other keys.  Whatever the
    server answers to the [RPOPLPUSH]s, what is sent is a prefix of that
    list, and all of it when none of them fails.  On the server each of
    these commands moves the tail of the worker list to the head of the
    parent list. *)
Theorem sweep_rescues_iff_expire_ge_now
    (pages : list (string * list Sweeping.worker)) (fuel : nat)
    (q : RedisQueue) :
  writer q = true ->
  forallb (fun page => forallb Sweeping.well_formed page.2) pages = true ->
  let pattern := prefix (options q) +:+ ":*:worker:*" in
  Sweeping.scan_answers env pattern "0" pages ->
  (length pages <= fuel)%nat ->
  let run := sweep env fuel q in
  let sent_ := commands (drop (length (trace q)) (trace run.2)) in
  let expected := Sweeping.sweep_commands pattern (now env) "0" pages in
  sent_ `prefix_of` expected /\
  (Sweeping.rescues_succeed env ->
   run.1 = Return true /\ sent_ = expected) /\
  (forall w (d : Redis.db) l x p,
     Sweeping.well_formed w = true ->
     Redis.list_at d (Sweeping.worker_key w) = Some (l ++ [x]) ->
     Redis.list_at d (Sweeping.parent_key w) = Some p ->
     exists d',
       Redis.rpoplpush (Sweeping.worker_key w) (Sweeping.parent_key w) d
       = (Redis.RMulti [x], d') /\
       Redis.list_at d' (Sweeping.worker_key w) = Some l /\
       Redis.list_at d' (Sweeping.parent_key w) = Some (x :: p) /\
       (forall k, k <> Sweeping.worker_key w -> k <> Sweeping.parent_key w ->
                  Redis.data d' !! k = Redis.data d !! k)).
Proof.
  intros Hw Hwf pattern Hscan Hfuel run sent_ expected.
  destruct (sweep_loop_pages (now env) pattern pages "0" fuel q
              Hw eq_refl Hwf Hscan Hfuel)
    as (o & q' & t & Hloop & Ht & Hpre & Hall).
  assert (Hrun : run = (o, q')).
  { unfold run, sweep. unfold bind at 1, gets. cbv beta iota.
    rewrite Hw. exact Hloop. }
  subst sent_. rewrite Hrun. cbn [fst snd]. rewrite Ht, drop_app_length.
  split; [exact Hpre|]. split; [exact Hall|].
  intros w d l x p Hwfw. unfold Sweeping.well_formed in Hwfw.
  apply andb_prop in Hwfw as [Hwfw He]. apply andb_prop in Hwfw as [Hp Hq].
  apply rpoplpush_moves_tail.
  apply worker_key_not_parent; assumption.
Qed.

End WithRuntime.
End WatcherFacts.

(** ** The consumer: [process] *)

Module ConsumerFacts.
Import Queue.

Section WithRuntime.
Context {rt : JsRuntime}.

Lemma key_not_empty (q : RedisQueue) : key q <> "".
Proof. unfold key. destruct (prefix (options q)); discriminate. Qed.

Lemma set_trace_set_trace t t' (q : RedisQueue) :
  set_trace t (set_trace t' q) = set_trace t q.
Proof. reflexivity. Qed.

Lemma process_foreign_key (q : RedisQueue) queue data :
  queue <> Some (key q) -> process (queue, data) q = (Return tt, q).
Proof.
  intros Hne. unfold process, bind, this, gets. cbv beta iota.
  destruct queue as [k|]; [|reflexivity].
  destruct (String.eqb k "") eqn:He; [reflexivity|].
  destruct (String.eqb k (key q)) eqn:Hk; [|reflexivity].
  apply String.eqb_eq in Hk. congruence.
Qed.

Lemma process_own_key (q : RedisQueue) data :
  process (Some (key q), data) q
  = try_catch
      (match Codec.select_unpack (useGzip (options q)) data with
       | Throw e => throw e
       | Return v =>
           match destructure v with
           | Throw e => throw e
           | Return (id, message, from) => emit (message_event message id from)
           end
       end)
      (fun err =>
         bind (emit (error_event err "OnMessage"))
              (fun _ => log LogError "process error - message is invalid")) q.
Proof.
  unfold process, bind at 1, this, gets. cbv beta iota.
  rewrite String.eqb_refl.
  destruct (String.eqb (key q) "") eqn:He; [|reflexivity].
  apply String.eqb_eq in He. destruct (key_not_empty _ He).
Qed.

(** C6, as the code has it.  When [queue] is not the list key of this
    queue (an absent or empty key included) [process] returns and nothing
    is emitted.  When it is the key and [data] unpacks to an envelope
    [{id, message, from}], exactly one event [message(message, id, from)] is
    emitted and [process] returns.  When unpacking throws [err], the catch
    block emits [error(err, "OnMessage")]: with an ['error'] listener on the
    queue the event is delivered, the failure is logged and [process]
    returns; without one [emit] throws [err] out of the catch block, so
    [process] throws [err] and nothing is logged.  The message is dropped
    either way. *)
Theorem process_emits_message_or_error (q : RedisQueue) (queue : option string)
    (data : string) :
  (queue <> Some (key q) ->
   process (queue, data) q = (Return tt, q)) /\
  (forall id message from,
     queue = Some (key q) ->
     Codec.select_unpack (useGzip (options q)) data
       = Return (envelope id message from) ->
     process (queue, data) q
     = (Return tt,
        set_trace
          (trace q ++
           [Emit (message_event (Some message) (Some (JStr id))
                    (Some (JStr from)))]) q)) /\
  (forall err,
     queue = Some (key q) ->
     Codec.select_unpack (useGzip (options q)) data = Throw err ->
     process (queue, data) q
     = if onError q
       then (Return tt,
             set_trace
               (trace q ++
                [Emit (error_event err "OnMessage");
                 Log LogError "process error - message is invalid"]) q)
       else (Throw err, q)).
Proof.
  split; [apply process_foreign_key|split].
  - intros id message from -> Hdata. rewrite process_own_key.
    unfold try_catch. rewrite Hdata. reflexivity.
  - intros err -> Hdata. rewrite process_own_key.
    unfold try_catch. rewrite Hdata.
    unfold throw at 1. unfold bind at 1, emit. unfold bind at 1, this, gets.
    cbv beta iota.
    destruct (onError q); [|reflexivity].
    unfold log, effect_, modify.
    rewrite set_trace_set_trace. unfold set_trace at 1. cbn [trace set_trace].
    rewrite <- app_assoc. reflexivity.
Qed.

End WithRuntime.
End ConsumerFacts.


(** ** Reading back what was written: JSON and UTF-8 *)

Module EcmaFacts.
Import Ecma.

Lemma append_cons (c : ascii) (a b : string) :
  String c a +:+ b = String c (a +:+ b).
Proof. reflexivity. Qed.

Lemma append_associative (a b c : string) : (a +:+ b) +:+ c = a +:+ (b +:+ c).
Proof.
  induction a as [|x a IH]; [reflexivity|].
  rewrite !append_cons, IH. reflexivity.
Qed.

Lemma append_empty (a : string) : a +:+ EmptyString = a.
Proof.
  induction a as [|x a IH]; [reflexivity|]. rewrite append_cons, IH.
  reflexivity.
Qed.

Lemma length_of_append (a b : string) :
  String.length (a +:+ b) = (String.length a + String.length b)%nat.
Proof.
  induction a as [|c a IH]; [reflexivity|].
  rewrite append_cons. cbn [String.length]. rewrite IH. reflexivity.
Qed.

(** *** String literals *)

Lemma read_string_escape_char (c : ascii) (tail : string) :
  read_string (escape_char c +:+ tail)
  = match read_string tail with
    | Some (body, rest) => Some (String c body, rest)
    | None => None
    end.
Proof.
  destruct c as [[] [] [] [] [] [] [] []]; reflexivity.
Qed.

Lemma read_string_escape (s rest : string) :
  read_string (escape s +:+ String dq rest) = Some (s, rest).
Proof.
  induction s as [|c s IH]; [reflexivity|].
  cbn [escape]. rewrite append_associative, read_string_escape_char, IH.
  reflexivity.
Qed.

(** *** Numbers *)

Lemma digit_pretty_N_char (d : N) :
  (d < 10)%N -> digit (pretty_N_char d) = Some d.
Proof.
  intros H.
  assert (d = 0 \/ d = 1 \/ d = 2 \/ d = 3 \/ d = 4 \/ d = 5 \/ d = 6
          \/ d = 7 \/ d = 8 \/ d = 9)%N as Hd by lia.
  repeat (destruct Hd as [->|Hd]; [reflexivity|]). subst d. reflexivity.
Qed.

Lemma read_natural_digit (d : N) (s : string) :
  (0 < d < 10)%N ->
  read_natural (String (pretty_N_char d) s) = Some (read_digits d s).
Proof.
  intros H.
  assert (d = 1 \/ d = 2 \/ d = 3 \/ d = 4 \/ d = 5 \/ d = 6
          \/ d = 7 \/ d = 8 \/ d = 9)%N as Hd by lia.
  repeat (destruct Hd as [->|Hd]; [reflexivity|]). subst d. reflexivity.
Qed.

Lemma read_natural_pretty_go (x : N) :
  (0 < x)%N ->
  forall s, read_natural (pretty_N_go x s) = Some (read_digits x s).
Proof.
  induction (N.lt_wf_0 x) as [x _ IH]. intros Hx s.
  rewrite pretty_N_go_step by exact Hx.
  assert (Hmod : (x mod 10 < 10)%N) by (apply N.mod_lt; lia).
  destruct (N.eq_dec (x / 10)%N 0%N) as [Hz|Hnz].
  - rewrite Hz, pretty_N_go_0.
    assert (Hsmall : (x mod 10 = x)%N).
    { apply N.mod_small. apply N.div_small_iff in Hz; lia. }
    rewrite Hsmall. apply read_natural_digit. lia.
  - rewrite IH; [|apply N.div_lt; lia|apply N.neq_0_lt_0; exact Hnz].
    cbn [read_digits]. rewrite digit_pretty_N_char by exact Hmod.
    rewrite <- N.div_mod by lia. reflexivity.
Qed.

Lemma pretty_N_go_append (x : N) :
  forall s t, pretty_N_go x s +:+ t = pretty_N_go x (s +:+ t).
Proof.
  induction (N.lt_wf_0 x) as [x _ IH]. intros s t.
  destruct (N.eq_dec x 0%N) as [->|Hx]; [rewrite !pretty_N_go_0; reflexivity|].
  rewrite (pretty_N_go_step x s), (pretty_N_go_step x (s +:+ t)) by lia.
  rewrite IH by (apply N.div_lt; lia). reflexivity.
Qed.

Lemma length_pretty_N_go (x : N) :
  forall s, (String.length s <= String.length (pretty_N_go x s))%nat.
Proof.
  induction (N.lt_wf_0 x) as [x _ IH]. intros s.
  destruct (N.eq_dec x 0%N) as [->|Hx]; [rewrite pretty_N_go_0; lia|].
  rewrite pretty_N_go_step by lia.
  etransitivity; [|apply IH; apply N.div_lt; lia]. cbn. lia.
Qed.

Lemma closes_cases (rest : string) :
  closes rest = true ->
  rest = EmptyString \/ exists c tail,
    rest = String c tail /\ (c = "," \/ c = "]" \/ c = "}")%char.
Proof.
  destruct rest as [|c tail]; [left; reflexivity|]. cbn [closes].
  intros H. right. exists c, tail. split; [reflexivity|].
  apply orb_prop in H as [H|H]; [apply orb_prop in H as [H|H]|];
    apply Ascii.eqb_eq in H; auto.
Qed.

Lemma read_digits_closes (n : N) (rest : string) :
  closes rest = true -> read_digits n rest = (n, rest).
Proof.
  intros H. destruct (closes_cases rest H) as [Hr|(c & tail & Hr & Hc)];
    subst rest; [|destruct Hc as [Hc|[Hc|Hc]]; subst c]; reflexivity.
Qed.

Lemma integer_ends_closes (rest : string) :
  closes rest = true -> integer_ends rest = true.
Proof.
  intros H. destruct (closes_cases rest H) as [Hr|(c & tail & Hr & Hc)];
    subst rest; [|destruct Hc as [Hc|[Hc|Hc]]; subst c]; reflexivity.
Qed.

Lemma read_natural_zero (rest : string) :
  closes rest = true -> read_natural (String "0" rest) = Some (0%N, rest).
Proof.
  intros H. destruct (closes_cases rest H) as [Hr|(c & tail & Hr & Hc)];
    subst rest; [|destruct Hc as [Hc|[Hc|Hc]]; subst c]; reflexivity.
Qed.

Lemma read_natural_pretty (x : N) (rest : string) :
  closes rest = true ->
  read_natural (pretty x +:+ rest) = Some (x, rest).
Proof.
  intros H. unfold pretty, pretty_N.
  destruct (decide (x = 0)%N) as [->|Hx].
  - rewrite append_cons. apply read_natural_zero. exact H.
  - rewrite pretty_N_go_append.
    rewrite read_natural_pretty_go by lia.
    change (EmptyString +:+ rest) with rest.
    rewrite read_digits_closes by exact H. reflexivity.
Qed.

Lemma read_number_pretty (n : Z) (rest : string) :
  (Z.abs_N n <=? max_safe)%N = true ->
  closes rest = true ->
  read_number (pretty n +:+ rest) = Some (JNum n, rest).
Proof.
  intros Hsafe H. unfold read_number.
  destruct n as [|p|p].
  - change (pretty 0%Z) with (pretty 0%N).
    rewrite read_natural_pretty by exact H.
    rewrite integer_ends_closes by exact H. reflexivity.
  - change (pretty (Z.pos p)) with (pretty (N.pos p)).
    rewrite read_natural_pretty by exact H.
    change (Z.abs_N (Z.pos p)) with (N.pos p) in Hsafe.
    rewrite Hsafe, integer_ends_closes by exact H. reflexivity.
  - change (pretty (Z.neg p)) with ("-" +:+ pretty (N.pos p)).
    rewrite append_associative.
    change ("-" +:+ (pretty (N.pos p) +:+ rest))
      with (String "-" (pretty (N.pos p) +:+ rest)).
    change (read_natural (String "-" (pretty (N.pos p) +:+ rest)))
      with (@None (N * string)).
    cbv iota. rewrite read_natural_pretty by exact H.
    change (Z.abs_N (Z.neg p)) with (N.pos p) in Hsafe.
    rewrite Hsafe, integer_ends_closes by exact H. reflexivity.
Qed.


(** *** Values *)

Lemma commas_one (x : string) : commas [x] = x.
Proof. reflexivity. Qed.

Lemma commas_more (x y : string) (l : list string) :
  commas (x :: y :: l) = x +:+ String "," (commas (y :: l)).
Proof. reflexivity. Qed.

Lemma weight_positive (x : json) : (1 <= weight x)%nat.
Proof. destruct x; cbn; lia. Qed.

Lemma read_value_quote (fuel : nat) (s rest : string) :
  read_value (S fuel) (quote s +:+ rest) = Some (JStr s, rest).
Proof.
  unfold quote. rewrite append_cons, append_associative, append_cons.
  change (EmptyString +:+ rest) with rest.
  transitivity (match read_string (escape s +:+ String dq rest) with
                | Some (body, rest') => Some (JStr body, rest')
                | None => None
                end); [reflexivity|].
  rewrite read_string_escape. reflexivity.
Qed.

Lemma read_items_closing (fuel : nat) (rest : string) :
  read_items fuel (String "]" rest) = None.
Proof. destruct fuel as [|[|fuel]]; reflexivity. Qed.

Lemma read_members_closing (fuel : nat) (rest : string) :
  read_members fuel (String "}" rest) = None.
Proof. destruct fuel as [|fuel]; reflexivity. Qed.

Lemma read_value_array (fuel : nat) (text : string) :
  read_value (S fuel) (String "[" text)
  = match read_items fuel text with
    | Some (items, rest') => Some (JArr items, rest')
    | None =>
        match text with
        | String "]" rest' => Some (JArr [], rest')
        | _ => None
        end
    end.
Proof. reflexivity. Qed.

Lemma read_value_object (fuel : nat) (text : string) :
  read_value (S fuel) (String "{" text)
  = match read_members fuel text with
    | Some (fields, rest') =>
        if ordered_keys (List.map fst fields)
        then Some (JObj fields, rest') else None
    | None =>
        match text with
        | String "}" rest' => Some (JObj [], rest')
        | _ => None
        end
    end.
Proof. reflexivity. Qed.

Lemma read_items_step (fuel : nat) (text : string) :
  read_items (S fuel) text
  = match read_value fuel text with
    | Some (v, String "," rest) =>
        match read_items fuel rest with
        | Some (items, rest') => Some (v :: items, rest')
        | None => None
        end
    | Some (v, String "]" rest) => Some ([v], rest)
    | _ => None
    end.
Proof. reflexivity. Qed.

Lemma read_members_step (fuel : nat) (k text : string) :
  read_members (S fuel) (quote k +:+ String ":" text)
  = match read_value fuel text with
    | Some (v, String "," rest) =>
        match read_members fuel rest with
        | Some (fields, tail) => Some ((k, v) :: fields, tail)
        | None => None
        end
    | Some (v, String "}" rest) => Some ([(k, v)], rest)
    | _ => None
    end.
Proof.
  unfold quote. rewrite append_cons, append_associative, append_cons.
  change (EmptyString +:+ String ":" text) with (String ":" text).
  transitivity
    (match read_string (escape k +:+ String dq (String ":" text)) with
     | Some (k', String ":" rest') =>
         match read_value fuel rest' with
         | Some (v, String "," rest'') =>
             match read_members fuel rest'' with
             | Some (fields, tail) => Some ((k', v) :: fields, tail)
             | None => None
             end
         | Some (v, String "}" rest'') => Some ([(k', v)], rest'')
         | _ => None
         end
     | _ => None
     end); [reflexivity|].
  rewrite read_string_escape. reflexivity.
Qed.

(** Reading back a value, the items of an array up to its bracket, and the
    members of an object up to its brace. *)
Lemma read_back (fuel : nat) :
  (forall x rest,
     representable x = true -> closes rest = true ->
     (weight x <= fuel)%nat ->
     read_value fuel (stringify x +:+ rest) = Some (x, rest)) /\
  (forall x items rest,
     forallb representable (x :: items) = true ->
     (list_sum (List.map (fun x => S (weight x)) (x :: items)) <= fuel)%nat ->
     read_items fuel
       (commas (List.map stringify (x :: items)) +:+ String "]" rest)
     = Some (x :: items, rest)) /\
  (forall kv fields rest,
     forallb (fun kv => representable kv.2) (kv :: fields) = true ->
     (list_sum (List.map (fun kv => S (weight kv.2)) (kv :: fields)) <= fuel)%nat ->
     read_members fuel
       (commas (List.map member_text (kv :: fields)) +:+ String "}" rest)
     = Some (kv :: fields, rest)).
Proof.
  induction fuel as [|fuel (IHv & IHi & IHm)].
  { repeat split.
    - intros x rest _ _ H. pose proof (weight_positive x). lia.
    - intros x items rest _ H. cbn in H. lia.
    - intros kv fields rest _ H. cbn in H. lia. }
  repeat split.
  - intros x rest Hx Hrest Hfuel. destruct x as [|b|n|s|items|fields].
    + reflexivity.
    + destruct b; reflexivity.
    + cbn [stringify read_value].
      rewrite read_number_pretty by assumption. reflexivity.
    + apply read_value_quote.
    + cbn [stringify]. rewrite append_cons, append_associative, append_cons.
      change (EmptyString +:+ rest) with rest. rewrite read_value_array.
      destruct items as [|x items].
      * change (commas (List.map stringify []) +:+ String "]" rest)
          with (String "]" rest).
        rewrite read_items_closing. reflexivity.
      * rewrite IHi; [reflexivity|exact Hx|]. cbn [weight list_sum] in Hfuel |- *. lia.
    + cbn [stringify]. rewrite append_cons, append_associative, append_cons.
      change (EmptyString +:+ rest) with rest. rewrite read_value_object.
      cbn [representable] in Hx. apply andb_prop in Hx as [Hkeys Hx].
      destruct fields as [|kv fields].
      * change (commas (List.map (fun kv => quote kv.1 +:+ String ":" (stringify kv.2)) [])
                +:+ String "}" rest)
          with (String "}" rest).
        rewrite read_members_closing. reflexivity.
      * change (fun kv : string * json => quote kv.1 +:+ String ":" (stringify kv.2))
          with member_text.
        rewrite IHm; [|exact Hx|cbn [weight list_sum] in Hfuel |- *; lia].
        rewrite Hkeys. reflexivity.
  - intros x items rest Hall Hfuel. rewrite read_items_step.
    cbn [forallb] in Hall. apply andb_prop in Hall as [Hx Hall].
    destruct items as [|y items]; cbn [List.map list_sum fold_right] in Hfuel.
    + cbn [List.map]. rewrite commas_one.
      rewrite IHv; [reflexivity|exact Hx|reflexivity|lia].
    + cbn [List.map]. rewrite commas_more, append_associative, append_cons.
      rewrite IHv; [|exact Hx|reflexivity|lia].
      change (stringify y :: List.map stringify items)
        with (List.map stringify (y :: items)).
      rewrite IHi; [reflexivity|exact Hall|]. cbn [List.map list_sum fold_right]. lia.
  - intros [k x] fields rest Hall Hfuel.
    cbn [forallb] in Hall. apply andb_prop in Hall as [Hx Hall].
    cbn [fst snd] in Hx.
    destruct fields as [|kv fields];
      cbn [List.map list_sum fold_right fst snd] in Hfuel.
    + cbn [List.map]. rewrite commas_one. unfold member_text. cbn [fst snd].
      rewrite append_associative, append_cons, read_members_step.
      rewrite IHv; [reflexivity|exact Hx|reflexivity|lia].
    + cbn [List.map]. rewrite commas_more. unfold member_text at 1.
      cbn [fst snd].
      rewrite !append_associative, !append_cons.
      rewrite read_members_step.
      rewrite IHv; [|exact Hx|reflexivity|lia].
      change (member_text kv :: List.map member_text fields)
        with (List.map member_text (kv :: fields)).
      rewrite IHm; [reflexivity|exact Hall|]. cbn [List.map list_sum fold_right]. lia.
Qed.

(** *** The fuel [parse] gives is enough *)

Lemma json_nested_ind (P : json -> Prop) :
  P JNull -> (forall b, P (JBool b)) -> (forall n, P (JNum n)) ->
  (forall s, P (JStr s)) ->
  (forall items, Forall P items -> P (JArr items)) ->
  (forall fields, Forall (fun kv => P kv.2) fields -> P (JObj fields)) ->
  forall v, P v.
Proof.
  intros Hnull Hbool Hnum Hstr Harr Hobj. fix IH 1.
  intros [|b|n|s|items|fields].
  - exact Hnull.
  - apply Hbool.
  - apply Hnum.
  - apply Hstr.
  - apply Harr. induction items as [|x l IHl]; constructor;
      [apply IH|exact IHl].
  - apply Hobj. induction fields as [|[k x] l IHl]; constructor;
      [apply IH|exact IHl].
Qed.

Lemma length_pretty_N (x : N) : (1 <= String.length (pretty x))%nat.
Proof.
  unfold pretty, pretty_N. destruct (decide (x = 0)%N) as [->|Hx];
    [cbn; lia|].
  rewrite pretty_N_go_step by lia.
  etransitivity; [|apply length_pretty_N_go]. cbn. lia.
Qed.

Lemma length_pretty_Z (n : Z) : (1 <= String.length (pretty n))%nat.
Proof.
  destruct n as [|p|p].
  - cbn. lia.
  - change (pretty (Z.pos p)) with (pretty (N.pos p)). apply length_pretty_N.
  - change (pretty (Z.neg p)) with ("-" +:+ pretty (N.pos p)).
    rewrite length_of_append. cbn. lia.
Qed.

Lemma length_commas (f : json -> nat) (l : list string) (items : list json) :
  Forall2 (fun s x => (f x <= String.length s)%nat) l items ->
  (list_sum (List.map (fun x => S (f x)) items)
   <= S (String.length (commas l)))%nat.
Proof.
  induction 1 as [|s x l items Hx Hall IH]; [cbn; lia|].
  destruct Hall as [|s' x' l' items' Hx' Hall'].
  - rewrite commas_one. cbn. lia.
  - rewrite commas_more, length_of_append. cbn [String.length].
    cbn [List.map list_sum fold_right] in IH |- *. lia.
Qed.

Lemma weight_length (x : json) : (weight x <= String.length (stringify x))%nat.
Proof.
  induction x as [|b|n|s|items IH|fields IH] using json_nested_ind.
  - cbn. lia.
  - destruct b; cbn; lia.
  - cbn [weight stringify]. apply length_pretty_Z.
  - cbn [weight stringify]. unfold quote. cbn [String.length]. lia.
  - cbn [weight stringify String.length]. rewrite length_of_append.
    cbn [String.length].
    assert (Hall : Forall2 (fun s x => (weight x <= String.length s)%nat)
                     (List.map stringify items) items).
    { induction IH as [|x l Hx _ IHl]; cbn [List.map]; constructor;
        assumption. }
    pose proof (length_commas weight _ _ Hall) as H. lia.
  - cbn [weight stringify String.length]. rewrite length_of_append.
    cbn [String.length].
    assert (Hall : Forall2 (fun s x => (weight x <= String.length s)%nat)
                     (List.map member_text fields) (List.map snd fields)).
    { induction IH as [|[k x] l Hx _ IHl]; cbn [List.map]; constructor;
        [|assumption].
      unfold member_text. cbn [fst snd] in Hx |- *.
      rewrite length_of_append. cbn [String.length]. lia. }
    pose proof (length_commas weight _ _ Hall) as H.
    rewrite List.map_map in H.
    change (fun kv : string * json => quote kv.1 +:+ String ":" (stringify kv.2))
      with member_text. lia.
Qed.

(** [JSON.parse] of a written value reads the value. *)
Lemma parse_stringify (x : json) :
  representable x = true -> parse (stringify x) = Some x.
Proof.
  intros Hx. unfold parse.
  pose proof (weight_length x) as Hw.
  destruct (read_back (S (String.length (stringify x)))) as (Hv & _ & _).
  specialize (Hv x EmptyString Hx eq_refl). rewrite append_empty in Hv.
  rewrite Hv by lia. reflexivity.
Qed.

(** *** UTF-8 *)

Lemma utf8_read_char (c : ascii) (tail : list byte) :
  utf8_read (utf8_char c ++ tail)
  = match utf8_read tail with
    | Some s => Some (String c s)
    | None => None
    end.
Proof.
  destruct c as [[] [] [] [] [] [] [] []]; reflexivity.
Qed.

Lemma utf8_read_utf8 (s : string) : utf8_read (utf8 s) = Some s.
Proof.
  induction s as [|c s IH]; [reflexivity|].
  cbn [utf8]. rewrite utf8_read_char, IH. reflexivity.
Qed.

End EcmaFacts.

(** ** The codec round trip *)

Module CodecFacts.
Import Codec.

Section WithRuntime.
Context {rt : JsRuntime}.

(** The binary string of a buffer reads back as the buffer. *)
Lemma binary_string_roundtrip (buf : list byte) :
  list_byte_of_string (string_of_list_byte buf) = buf.
Proof. apply list_byte_of_string_of_list_byte. Qed.

(** On a platform that conforms, [JSON.parse] reads back what
    [JSON.stringify] wrote, and the UTF-8 bytes of a text decode to it. *)
Lemma conforms_json (x : json) :
  Ecma.conforms rt -> Ecma.representable x = true -> json_representable x.
Proof.
  intros (Hwrite & Hread & _) Hx. unfold json_representable.
  rewrite (Hwrite x Hx). apply Hread. apply EcmaFacts.parse_stringify.
  exact Hx.
Qed.

Lemma conforms_utf8 (text : string) :
  Ecma.conforms rt -> utf8_decode (utf8_encode text) = text.
Proof.
  intros (_ & _ & Hencode & Hdecode). apply Hdecode. rewrite Hencode.
  apply EcmaFacts.utf8_read_utf8.
Qed.

(** The envelope of a representable message is representable. *)
Lemma envelope_representable (id from : string) (message : json) :
  Ecma.representable message = true ->
  Ecma.representable (Queue.envelope id message from) = true.
Proof.
  intros H. unfold Queue.envelope. cbn [Ecma.representable forallb snd].
  rewrite H. reflexivity.
Qed.


End WithRuntime.
End CodecFacts.

(** ** The life cycle: [start] *)

Module LifecycleFacts.
Import JsFacts Queue Frame.

Section Combinators.
Context {A B : Type}.

Lemma preserves_ret (a : A) : preserves (ret a).
Proof. intros q. reflexivity. Qed.

Lemma preserves_throw e : preserves (@throw RedisQueue A e).
Proof. intros q. reflexivity. Qed.

Lemma preserves_gets (f : RedisQueue -> A) : preserves (gets f).
Proof. intros q. reflexivity. Qed.

Lemma preserves_modify (g : RedisQueue -> RedisQueue) :
  (forall q, identity (g q) = identity q) -> preserves (modify g).
Proof. intros H q. apply H. Qed.

Lemma preserves_bind (m : Js RedisQueue A) (k : A -> Js RedisQueue B) :
  preserves m -> (forall a, preserves (k a)) -> preserves (bind m k).
Proof.
  intros Hm Hk q. unfold bind. specialize (Hm q).
  destruct (m q) as [[a|e] q1]; simpl in *; [|assumption].
  rewrite Hk. assumption.
Qed.

Lemma preserves_try_catch (m : Js RedisQueue A) (h : jserror -> Js RedisQueue A) :
  preserves m -> (forall e, preserves (h e)) -> preserves (try_catch m h).
Proof.
  intros Hm Hh q. unfold try_catch. specialize (Hm q).
  destruct (m q) as [[a|e] q1]; simpl in *; [assumption|].
  rewrite Hh. assumption.
Qed.

Lemma preserves_settle (m : Js RedisQueue A) : preserves m -> preserves (settle m).
Proof.
  intros Hm q. unfold settle. specialize (Hm q).
  destruct (m q) as [o q1]. assumption.
Qed.

Lemma ensures_bind P (m : Js RedisQueue A) (k : A -> Js RedisQueue B) :
  (forall a, ensures P (k a)) -> ensures P (bind m k).
Proof.
  intros Hk q b q' H. apply bind_inv in H as (a & q1 & _ & H).
  exact (Hk a q1 b q' H).
Qed.

End Combinators.

Lemma preserves_when b (m : Js RedisQueue unit) : preserves m -> preserves (when b m).
Proof. intros Hm. destruct b; [exact Hm|apply preserves_ret]. Qed.

Lemma ensures_modify (P : RedisQueue -> Prop) g :
  (forall q, P (g q)) -> ensures P (modify g).
Proof. intros H q a q' [= _ <-]. apply H. Qed.

Lemma ensures_throw {A} (P : RedisQueue -> Prop) e : ensures P (@throw RedisQueue A e).
Proof. intros q a q' H. discriminate. Qed.

Create HintDb preserves.
#[local] Hint Resolve preserves_ret preserves_throw preserves_gets
  preserves_settle preserves_when : preserves.

(** Walk a method body: binds, handlers, branches and field updates. *)
Ltac preserves_step :=
  first
    [ apply preserves_bind; [|intros ?]
    | apply preserves_try_catch; [|intros ?]
    | apply preserves_settle
    | apply preserves_when
    | apply preserves_ret
    | apply preserves_throw
    | apply preserves_gets
    | apply preserves_modify; intros ?; reflexivity
    | match goal with
      | |- preserves (match ?x with _ => _ end) => destruct x
      end
    | solve [auto with preserves] ].

Ltac preserves_walk := repeat preserves_step.

Section WithRuntime.
Context {rt : JsRuntime} (env : Env).

Lemma preserves_effect e : preserves (effect_ e).
Proof. unfold effect_. preserves_walk. Qed.
Hint Resolve preserves_effect : preserves.

Lemma preserves_emit e : preserves (emit e).
Proof. unfold emit, this. destruct e; preserves_walk. Qed.

Lemma preserves_log l w : preserves (log l w).
Proof. apply preserves_effect. Qed.
Hint Resolve preserves_emit preserves_log : preserves.

Lemma preserves_this : preserves this.
Proof. apply preserves_gets. Qed.
Hint Resolve preserves_this : preserves.

Lemma preserves_call ch c : preserves (call env ch c).
Proof. unfold call. preserves_walk. Qed.

Lemma preserves_cast ch c : preserves (cast ch c).
Proof. unfold cast. preserves_walk. Qed.
Hint Resolve preserves_call preserves_cast : preserves.

Lemma preserves_connect ch : preserves (connect env ch).
Proof.
  unfold connect. preserves_walk.
  apply preserves_modify. intros q. destruct ch; reflexivity.
Qed.

Lemma preserves_watcherCount : preserves (watcherCount env).
Proof. unfold watcherCount. preserves_walk. Qed.

Lemma preserves_processDelayed k : preserves (processDelayed env k).
Proof. unfold processDelayed. preserves_walk. Qed.
Hint Resolve preserves_connect preserves_watcherCount
  preserves_processDelayed : preserves.

Lemma preserves_watch : preserves watch.
Proof. unfold watch. preserves_walk. Qed.

Lemma preserves_read : preserves read.
Proof. unfold read. preserves_walk. Qed.

Lemma preserves_lock : preserves (lock env).
Proof. unfold lock. preserves_walk. Qed.

Lemma preserves_unlock : preserves (unlock env).
Proof. unfold unlock. preserves_walk. Qed.

Lemma preserves_isLocked : preserves (isLocked env).
Proof. unfold isLocked. preserves_walk. Qed.

Lemma preserves_load_script : preserves (load_script env).
Proof. unfold load_script. preserves_walk. Qed.
Hint Resolve preserves_watch preserves_read preserves_lock preserves_unlock
  preserves_isLocked preserves_load_script : preserves.

Lemma preserves_ownWatch : preserves (ownWatch env).
Proof. unfold ownWatch. preserves_walk. Qed.
Hint Resolve preserves_ownWatch : preserves.

Lemma preserves_initWatcher : preserves (initWatcher env).
Proof. unfold initWatcher. preserves_walk. Qed.
Hint Resolve preserves_initWatcher : preserves.

Lemma preserves_start : preserves (start env).
Proof. unfold start. preserves_walk. Qed.

(** A [start()] that resolves leaves the queue initialized. *)
Lemma start_ensures_initialized :
  ensures (fun q => initialized q = true) (start env).
Proof.
  intros q a q'. unfold start. unfold bind at 1, this, gets. cbv beta iota.
  destruct (String.eqb (name q) ""); [discriminate|].
  destruct (initialized q) eqn:Hi; [intros [= _ <-]; exact Hi|].
  intros H.
  apply bind_inv in H as (r1 & s1 & _ & H).
  apply bind_inv in H as (q1 & s2 & _ & H).
  apply bind_inv in H as (r2 & s3 & _ & H).
  destruct r1 as [[]|e1]; [|discriminate].
  destruct r2 as [[]|e2]; [|discriminate].
  do 5 (apply bind_inv in H as (? & ? & _ & H)).
  injection H as _ <-. reflexivity.
Qed.

Lemma start_initialized (q : RedisQueue) :
  name q <> "" -> initialized q = true -> start env q = (Return tt, q).
Proof.
  intros Hname Hi. unfold start, bind, this, gets.
  destruct (String.eqb (name q) "") eqn:He.
  - apply String.eqb_eq in He. contradiction.
  - rewrite Hi. reflexivity.
Qed.

Lemma start_without_name (q : RedisQueue) :
  name q = "" ->
  start env q = (Throw (TypeError ": No queue name provided!"), q).
Proof.
  intros Hname. unfold start, bind, this, gets. rewrite Hname. reflexivity.
Qed.

End WithRuntime.
End LifecycleFacts.

(** ** [start] is idempotent *)

Module StartFacts.
Import Queue Frame LifecycleFacts.


End StartFacts.

(** ** The producer: [send] *)

Module ProducerFacts.
Import JsFacts Queue Frame LifecycleFacts.

Section WithRuntime.
Context {rt : JsRuntime} (env : Env).

Lemma call_cb_present ch c cb (q : RedisQueue) :
  has_channel ch q = true ->
  call_cb env ch c cb q
  = cb (match net env (sent q) c with Return _ => None | Throw e => Some e end)
       (set_trace (trace q ++ [Send ch c]) (set_sent (S (sent q)) q)).
Proof.
  intros H. unfold call_cb, bind, gets, modify, effect_, ret, throw.
  rewrite H. simpl. destruct (net env (sent q) c); reflexivity.
Qed.

(** The start-up [send] runs first keeps name, options and counter. *)
Lemma startup_identity (q q1 : RedisQueue) o :
  when (negb (writer q)) (start env) q = (o, q1) ->
  name q1 = name q /\ options q1 = options q /\ uuids q1 = uuids q.
Proof.
  intros H.
  pose proof (preserves_when (negb (writer q)) _ (preserves_start env) q) as Hp.
  rewrite H in Hp. unfold identity in Hp. simpl in Hp.
  injection Hp as -> -> ->. repeat split.
Qed.

Lemma send_startup_failed toQueue message delay eh (q q1 : RedisQueue) e :
  when (negb (writer q)) (start env) q = (Throw e, q1) ->
  send env toQueue message delay eh q = (Throw e, q1).
Proof.
  intros H. unfold send. unfold bind at 1, this, gets. cbv beta iota.
  unfold bind at 1. rewrite H. reflexivity.
Qed.

(** What [send] does once its writer is there. *)
Lemma send_ready toQueue message delay eh (q q1 : RedisQueue) :
  when (negb (writer q)) (start env) q = (Return tt, q1) ->
  writer q1 = true ->
  let id := uuid (uuids q) in
  let key := prefix (options q) +:+ ":" +:+ toQueue in
  let packet :=
    Codec.select_pack (useGzip (options q)) (envelope id message (name q)) in
  let zadd := Redis.ZADD (key +:+ ":delayed") (now env + default 0 delay) packet in
  let set := Redis.SET_PX_NX (key +:+ ":" +:+ id +:+ ":ttl") "" (default 0 delay) in
  let lpush := Redis.LPUSH key packet in
  exists q',
    send env toQueue message delay eh q = (Return id, q') /\
    uuids q' = S (uuids q) /\
    trace q'
    = trace q1 ++
      (if truthy delay
       then Send Writer zadd ::
            match net env (sent q1) zadd with
            | Return _ => Send Writer set :: reported eh (net env (S (sent q1)) set)
            | Throw e => reported eh (Throw e)
            end
       else Send Writer lpush :: reported eh (net env (sent q1) lpush)).
Proof.
  intros Hpre Hw id key packet zadd set lpush.
  destruct (startup_identity _ _ _ Hpre) as (Hn & Ho & Hu).
  unfold send. unfold bind at 1, this, gets. cbv beta iota.
  unfold bind at 1. rewrite Hpre.
  unfold bind at 1. cbv beta iota.
  unfold bind at 1. unfold modify at 1. cbv beta iota.
  rewrite Hu. fold id key packet.
  destruct (truthy delay).
  - unfold bind at 1. rewrite call_cb_present by exact Hw.
    fold zadd. cbn [sent set_uuids trace set_trace set_sent].
    destruct (net env (sent q1) zadd) as [r1|e1].
    + rewrite call_cb_present by exact Hw. fold set.
      cbn [sent set_uuids trace set_trace set_sent].
      destruct (net env (S (sent q1)) set) as [r2|e2]; [|destruct eh];
        eexists; (split; [reflexivity|]); cbn; rewrite <- ?app_assoc;
        split; (reflexivity || (rewrite Hu; reflexivity)).
    + destruct eh; eexists; (split; [reflexivity|]); cbn;
        rewrite <- ?app_assoc;
        split; (reflexivity || (rewrite Hu; reflexivity)).
  - unfold bind at 1. rewrite call_cb_present by exact Hw.
    fold lpush. cbn [sent set_uuids trace set_trace set_sent].
    destruct (net env (sent q1) lpush) as [r1|e1]; [|destruct eh];
      eexists; (split; [reflexivity|]); cbn; rewrite <- ?app_assoc;
      split; (reflexivity || (rewrite Hu; reflexivity)).
Qed.

Lemma commands_reported eh o : commands (reported eh o) = [].
Proof. destruct o as [r|e]; [reflexivity|]. destruct eh; reflexivity. Qed.

Lemma commands_send ch c rest :
  commands (Send ch c :: rest) = (ch, c) :: commands rest.
Proof. reflexivity. Qed.



End WithRuntime.
End ProducerFacts.

(** ** [intrand] and the back-off of the watcher election *)

Module IntrandFacts.
Import Queue.

Lemma Int_part_bounds (x : R) (n : Z) :
  (0 <= x < IZR n)%R -> 0 <= Int_part x < n.
Proof.
  intros [H0 Hn]. destruct (base_Int_part x) as [Hle Hgt]. split.
  - apply Z.lt_succ_r. apply lt_IZR. rewrite succ_IZR. simpl. lra.
  - apply lt_IZR. lra.
Qed.

Lemma Q2R_inject_Z (z : Z) : Q2R (inject_Z z) = IZR z.
Proof. unfold Q2R, inject_Z. simpl. lra. Qed.

Lemma Int_part_Q2R (q : Q) : Int_part (Q2R q) = Qfloor q.
Proof.
  unfold Int_part.
  assert (H : Qfloor q + 1 = up (Q2R q)).
  { apply up_tech.
    - rewrite <- Q2R_inject_Z. apply Qle_Rle, Qfloor_le.
    - rewrite <- Q2R_inject_Z. apply Qlt_Rlt, Qlt_floor. }
  lia.
Qed.

(** On a rational [random] the two definitions agree. *)
Lemma intrand_real_rational (min max : Z) (random : Q) :
  intrand_real min max (Q2R random) = intrand min max random.
Proof.
  unfold intrand_real, intrand.
  rewrite <- Q2R_inject_Z, <- Q2R_mult, Int_part_Q2R. reflexivity.
Qed.

Lemma intrand_real_bounds (min max : Z) (random : R) :
  min <= max -> (0 <= random < 1)%R ->
  min <= intrand_real min max random <= max.
Proof.
  intros Hmm [H0 H1]. unfold intrand_real.
  assert (Hn : (1 <= IZR (max - min + 1))%R) by (apply IZR_le; lia).
  destruct (Int_part_bounds (random * IZR (max - min + 1)) (max - min + 1));
    [|lia].
  split; nra.
Qed.

(** C10: for integers [min <= max] and a random source anywhere in
    [[0, 1)], [intrand(min, max)] is an integer between [min] and [max],
    both included; so the back-off [intrand(1, 50)] of the watcher election
    lies between 1 and 50. *)
Theorem intrand_in_range (min max : Z) (random : R) :
  min <= max ->
  (0 <= random < 1)%R ->
  min <= intrand_real min max random <= max /\
  1 <= intrand_real 1 50 random <= 50.
Proof.
  intros Hmm Hr. split; apply intrand_real_bounds; (assumption || lia).
Qed.

(** The timer [initWatcher] sets waits between 1 and 50 milliseconds. *)
Lemma backoff_in_range (env : Env) :
  (0 <= random env)%Q -> (random env < 1)%Q ->
  1 <= intrand 1 50 (random env) <= 50.
Proof.
  intros H0 H1. rewrite <- intrand_real_rational.
  apply intrand_real_bounds; [lia|].
  split.
  - replace 0%R with (Q2R 0) by (unfold Q2R; simpl; lra). apply Qle_Rle, H0.
  - replace 1%R with (Q2R 1) by (unfold Q2R; simpl; lra). apply Qlt_Rlt, H1.
Qed.

End IntrandFacts.

(** ** The decorator and the outcome of the decorated call *)

Module ProfileFacts.
Import Profile.

Section WithRuntime.
Context {rt : JsRuntime}.
Variables (start finish : Z) (format : AllowedTimeFormat).
Variable heap : gmap positive cell.

(** With both kinds of logging off the wrapper is the original call, in
    either revision. *)
Lemma profile_disabled_is_original className methodName host_logger original args out :
  profile start finish format heap (Some false) (Some false) false false
    className methodName host_logger original args out
  = (original args, out).
Proof. reflexivity. Qed.

Lemma profile_options_disabled_is_original
    logLevel className methodName host_logger original args out :
  profile_options (Some false) (Some false) logLevel
    false false className methodName host_logger original args out
  = (original args, out).
Proof. reflexivity. Qed.

Lemma profile_env_disabled_is_original className methodName host_logger original args out :
  profile start finish format heap None None false false
    className methodName host_logger original args out
  = (original args, out).
Proof. reflexivity. Qed.

(** An exception of the original call passes through both wrappers. *)
Lemma profile_propagates_throw dt da et ea className methodName host_logger
    original args out e :
  original args = Throw e ->
  (profile start finish format heap dt da et ea className methodName
     host_logger original args out).1 = Throw e.
Proof.
  intros H. unfold profile.
  destruct (negb (flag dt et || flag da ea)); simpl; [exact H|].
  unfold bind. rewrite H. reflexivity.
Qed.

(** The earlier revision returns what the original returned whenever the
    arguments can be serialized. *)
Lemma profile_returns_original_result dt da et ea className methodName
    host_logger original args out text :
  stringify_args heap args = Return text ->
  (profile start finish format heap dt da et ea className methodName
     host_logger original args out).1 = original args.
Proof.
  intros Hs. unfold profile.
  destruct (negb (flag dt et || flag da ea)); [reflexivity|].
  unfold bind. destruct (original args) as [[v|settles]|e]; [| |reflexivity].
  - unfold printDebugInfo, bind, when, write, modify, ret. rewrite Hs.
    destruct (flag dt et), (flag da ea); reflexivity.
  - destruct settles as [v|e]; [|reflexivity].
    unfold try_catch, printDebugInfo, bind, when, write, modify, ret.
    rewrite Hs. destruct (flag dt et), (flag da ea); reflexivity.
Qed.

End WithRuntime.

(** C9 on the earlier revision: [@profile()] under [IMQ_LOG_ARGS=1] around
    a method that returns 42, called with an object that refers to itself.
    The method returns, the wrapper throws the [TypeError] of
    [JSON.stringify]. *)
Theorem profile_throws_on_circular_argument :
  Scenarios.answer [VRef 1] = Return (Plain (VNum 42)) /\
  profile (rt := Reference.runtime) 0 7 microseconds Scenarios.self_reference
    None None false true "ProfiledClass" "decoratedMethod" (Some own_logger)
    Scenarios.answer [VRef 1] []
  = (Throw (TypeError "Converting circular structure to JSON"), []).
Proof. repeat split; vm_compute; reflexivity. Qed.

End ProfileFacts.

(** ** The theorems at concrete inputs *)

Module Witnesses.
Import Queue Reference Scenarios.

(** C1 at one sweep: at time 1000 the scan lists a worker key that expires
    at 1200 and one that expired at 999; the sweep sends the [SCAN] and the
    [RPOPLPUSH] of the first key to ["imq:Q"], and nothing for the second. *)
Lemma sweep_rescues_witness :
  (sweep patrol 1 owner).1 = Return true /\
  commands (drop (length (trace owner)) (trace (sweep patrol 1 owner).2))
  = [(Writer, Redis.SCAN_MATCH "0" "imq:*:worker:*" "1000");
     (Writer, Redis.RPOPLPUSH "imq:Q:worker:abc:1200" "imq:Q")].
Proof.
  assert (Hw : writer owner = true) by (vm_compute; reflexivity).
  assert (Hscan : Sweeping.scan_answers patrol
                    (prefix (options owner) +:+ ":*:worker:*") "0"
                    [("0", [Sweeping.mkWorker "imq" "Q" "worker:abc" "1200";
                            Sweeping.mkWorker "imq" "Q" "worker:def" "999"])])
    by (split; [intros n|]; reflexivity).
  assert (Hok : Sweeping.rescues_succeed patrol)
    by (intros n k dst e; discriminate).
  assert (Hfuel : (length [("0", [Sweeping.mkWorker "imq" "Q" "worker:abc" "1200";
                                  Sweeping.mkWorker "imq" "Q" "worker:def" "999"])]
                   <= 1)%nat) by (cbn; lia).
  exact (proj1 (proj2
           (WatcherFacts.sweep_rescues_iff_expire_ge_now patrol
              [("0", [Sweeping.mkWorker "imq" "Q" "worker:abc" "1200";
                      Sweeping.mkWorker "imq" "Q" "worker:def" "999"])]
              1 owner Hw eq_refl Hscan Hfuel)) Hok).
Defined.

(** C2 at one key space: at time 1000 the two due messages move to the
    ready list, the later one in front, and the third stays in the sorted
    set. *)
Lemma moveDelayed_witness :
  exists d',
    Redis.moveDelayed "imq:Q:delayed" "imq:Q" 1000 due_db = (inr 2, d') /\
    Redis.list_at d' "imq:Q" = Some ["m2"; "m1"; "m0"] /\
    Redis.zset_at d' "imq:Q:delayed" = Some [(1500, "m3")].
Proof.
  destruct (RedisFacts.moveDelayed_moves_due_members due_db
              "imq:Q:delayed" "imq:Q" 1000
              [(900, "m1"); (1000, "m2"); (1500, "m3")] ["m0"]
              eq_refl eq_refl)
    as [_ (d' & Hrun & Hlist & Hzset & _)].
  exists d'. split; [exact Hrun|]. split; [exact Hlist|exact Hzset].
Defined.


(** The reference runtime conforms. *)
Lemma reference_conforms : Ecma.conforms Reference.runtime.
Proof.
  repeat split.
  - intros s v H. cbn. unfold Reference.parse. rewrite H. reflexivity.
  - intros b s H. cbn. unfold Reference.decode. rewrite H. reflexivity.
Qed.



(** C10 at one value: the back-off for the random value one half. *)
Lemma intrand_witness :
  1 <= intrand_real 1 50 (1 / 2) <= 50 /\
  1 <= intrand_real 1 50 (1 / 2) <= 50.
Proof.
  apply (IntrandFacts.intrand_in_range 1 50 (1 / 2)); [lia|lra].
Defined.



(** C6 as stated fails on a queue nobody listens to for ['error'], the
    state of a queue right after construction: on malformed data for its own
    key, [emit('error', err, 'OnMessage')] throws the [SyntaxError] out of
    the catch block; [process] throws it, nothing is emitted and nothing is
    logged. *)
Lemma process_throws_without_error_listener :
  process (Some "imq:A", "{oops") fresh
  = (Throw (SyntaxError "Unexpected token in JSON"), fresh).
Proof. vm_compute. reflexivity. Qed.

(** *** Further runs of the model *)

Example split_worker_key_example :
  JsString.split colon "imq:Q:worker:abc:1200"
  = ["imq"; "Q"; "worker"; "abc"; "1200"].
Proof. reflexivity. Qed.

Example split_empty_example :
  JsString.split colon "" = [""] /\ JsString.split colon "a:" = ["a"; ""].
Proof. split; reflexivity. Qed.

(** An expired worker key is left where it is. *)
Example sweep_skips_expired_example :
  trace (sweep_key quiet 1000 "imq:Q:worker:abc:999" owner).2 = trace owner.
Proof. vm_compute. reflexivity. Qed.

(** One sweep against the quiet server: one page, and the loop returns. *)
Example sweep_example :
  (sweep quiet 1 owner).1 = Return true /\
  commands (drop (length (trace owner)) (trace (sweep quiet 1 owner).2))
  = [(Writer, Redis.SCAN_MATCH "0" "imq:*:worker:*" "1000")].
Proof. split; vm_compute; reflexivity. Qed.

Example pmessage_example :
  commands (drop (length (trace started))
              (trace (on_pmessage quiet
                        ["__keyevent@0__:expired"; "__keyevent@0__:expired";
                         "imq:Q:uuid-7:ttl"] started).2))
  = [(Writer, Redis.EVALSHA (sha1 moveDelayed_code) ["imq:Q:delayed"; "imq:Q"] 1000)].
Proof. vm_compute. reflexivity. Qed.

Example pmessage_other_key_example :
  on_pmessage quiet ["p"; "c"; "imq:Q:uuid-7:other"] started
  = (Return tt, started).
Proof. vm_compute. reflexivity. Qed.

Example process_example :
  trace (process (Some "imq:A", JSON_stringify sample) fresh).2
  = [Emit (message_event
             (Some (JObj [("a", JNum 1);
                          ("b", JArr [JStr "x"; JNull; JBool true; JNum (-12)])]))
             (Some (JStr "uuid-0")) (Some (JStr "A")))].
Proof. vm_compute. reflexivity. Qed.

Example process_malformed_example :
  process (Some "imq:A", "{oops") subscribed
  = (Return tt,
     set_trace [Emit (error_event (SyntaxError "Unexpected token in JSON")
                        "OnMessage");
                Log LogError "process error - message is invalid"] subscribed).
Proof. vm_compute. reflexivity. Qed.

(** A consumer in plain mode cannot read what a producer compressed. *)
Example process_other_mode_example :
  trace (process (Some "imq:A", Codec.pack sample) subscribed).2
  = [Emit (error_event (SyntaxError "Unexpected token in JSON") "OnMessage");
     Log LogError "process error - message is invalid"].
Proof. vm_compute. reflexivity. Qed.

Example process_foreign_example :
  process (Some "imq:B", JSON_stringify sample) fresh = (Return tt, fresh) /\
  process (None, JSON_stringify sample) fresh = (Return tt, fresh).
Proof. split; vm_compute; reflexivity. Qed.

Example start_example :
  (start quiet fresh).1 = Return tt /\
  initialized started = true /\
  start unreachable started = (Return tt, started) /\
  List.filter (fun e => match e with CreateClient _ => true | _ => false end)
    (trace started)
  = [CreateClient Reader; CreateClient Writer; CreateClient Watcher].
Proof. repeat split; vm_compute; reflexivity. Qed.

(** A server that is down when the queue starts. *)
Example start_connection_error_example :
  (start {| net := net quiet;
            connect_error := fun _ => Some (Error "ECONNREFUSED");
            now := 1000; random := 1 # 2; pid := 4242; hostname := "box" |}
     fresh).1
  = Throw (Error "ECONNREFUSED").
Proof. vm_compute. reflexivity. Qed.

Example watcher_listing_example :
  watcher_rx_test "imq"
    "id=3 addr=127.0.0.1:1 name=imq:Q:watcher:pid:1:host:h age=1" = true /\
  watcher_rx_test "imq"
    "id=4 addr=127.0.0.1:2 name=imq:Q:writer:pid:1:host:h age=1" = false.
Proof. split; reflexivity. Qed.

Example intrand_example :
  intrand 1 50 0 = 1 /\ intrand 1 50 (1 # 2) = 26 /\ intrand 1 50 (99 # 100) = 50.
Proof. repeat split; reflexivity. Qed.

(** The later revision of the decorator with the time logging on: the
    method returns and the wrapper throws. *)
Example profile_options_example :
  Profile.profile_options
    None None None true false "ProfiledClass" "decoratedMethod"
    (Some Profile.own_logger) answer [] []
  = (Throw (Error "ReferenceError: as is not defined"), []).
Proof. vm_compute. reflexivity. Qed.

End Witnesses.

(** ** More about the [moveDelayed] script *)

Module ScriptFacts.
Import Redis RedisFacts.

(** The script on well-typed keys, as one equation. *)
Lemma moveDelayed_result (d : db) (zkey lkey : string) (now : Z) z l :
  zset_at d zkey = Some z ->
  list_at d lkey = Some l ->
  moveDelayed zkey lkey now d
  = (inr (Z.of_nat (length (zrange_upto now z))),
     match zrange_upto now z with
     | [] => d
     | _ => put_zset zkey (zrem_upto now z)
              (put_list lkey (rev (zrange_upto now z) ++ l) d)
     end).
Proof.
  intros Hz Hl.
  unfold moveDelayed, lua_bind, redis_call, zrangebyscore. rewrite Hz.
  destruct (zrange_upto now z) as [|m rest] eqn:Hmoved; [reflexivity|].
  assert (Hne : zkey <> lkey).
  { intros ->. unfold zset_at, list_at in *.
    destruct (data d !! lkey) as [[]|]; try discriminate.
    injection Hz as <-. discriminate. }
  change (lua_table (RMulti (m :: rest))) with (m :: rest).
  change (0 <? Z.of_nat (length (m :: rest))) with true. cbv iota beta.
  rewrite (lpush_each_spec lkey (m :: rest) d l Hl) by discriminate.
  unfold zremrangebyscore.
  assert (Hz' : zset_at (put_list lkey (rev (m :: rest) ++ l) d) zkey = Some z).
  { unfold zset_at. rewrite data_put_list_ne by congruence. exact Hz. }
  rewrite Hz', Hmoved. reflexivity.
Qed.

Lemma zrange_upto_zrem_upto now z : zrange_upto now (zrem_upto now z) = [].
Proof.
  unfold zrange_upto, zrem_upto. induction z as [|e z IH]; [reflexivity|].
  simpl. destruct (e.1 <=? now) eqn:He; simpl; [exact IH|].
  rewrite He. exact IH.
Qed.

(** X1: when the script ends in an error (a key of the wrong type), it has
    changed nothing: no message has left the sorted set and none has been
    pushed. *)
Theorem moveDelayed_error_changes_nothing
    (d d' : db) (zkey lkey : string) (now : Z) (e : string) :
  moveDelayed zkey lkey now d = (inl e, d') -> d' = d.
Proof.
  unfold moveDelayed, lua_bind, redis_call, zrangebyscore.
  destruct (zset_at d zkey) as [z|] eqn:Hz; [|intros [= _ <-]; reflexivity].
  destruct (zrange_upto now z) as [|m rest] eqn:Hmoved; [discriminate|].
  change (lua_table (RMulti (m :: rest))) with (m :: rest).
  change (0 <? Z.of_nat (length (m :: rest))) with true. cbv iota beta.
  destruct (list_at d lkey) as [l|] eqn:Hl.
  - assert (Hne : zkey <> lkey).
    { intros ->. unfold zset_at, list_at in *.
      destruct (data d !! lkey) as [[]|]; try discriminate.
      injection Hz as <-. discriminate. }
    rewrite (lpush_each_spec lkey (m :: rest) d l Hl) by discriminate.
    unfold zremrangebyscore.
    assert (Hz' : zset_at (put_list lkey (rev (m :: rest) ++ l) d) zkey = Some z).
    { unfold zset_at. rewrite data_put_list_ne by congruence. exact Hz. }
    rewrite Hz', Hmoved. discriminate.
  - simpl. unfold lua_bind, redis_call, lpush. rewrite Hl.
    intros [= _ <-]. reflexivity.
Qed.

(** X2: run a second time with the same time, the script finds nothing
    due: it returns 0 and leaves the key space as the first run left it. *)
Theorem moveDelayed_twice (d : db) (zkey lkey : string) (now : Z) z l :
  zset_at d zkey = Some z ->
  list_at d lkey = Some l ->
  let after := (moveDelayed zkey lkey now d).2 in
  moveDelayed zkey lkey now after = (inr 0, after).
Proof.
  intros Hz Hl after.
  assert (Hafter : zset_at after zkey = Some (zrem_upto now z)).
  { unfold after. rewrite (moveDelayed_result d zkey lkey now z l Hz Hl).
    cbn [snd]. destruct (zrange_upto now z) eqn:Hm.
    - rewrite (zrange_upto_nil _ _ Hm). exact Hz.
    - apply zset_at_put_zset. }
  unfold moveDelayed, lua_bind, redis_call, zrangebyscore.
  rewrite Hafter, zrange_upto_zrem_upto. reflexivity.
Qed.

Lemma length_append (a b : string) :
  String.length (a +:+ b) = (String.length a + String.length b)%nat.
Proof.
  induction a as [|c a IH]; [reflexivity|].
  change (S (String.length (a +:+ b)) = S (String.length a + String.length b)).
  rewrite IH. reflexivity.
Qed.

Lemma delayed_key_differs (k : string) : k +:+ ":delayed" <> k.
Proof.
  intros H. apply (f_equal String.length) in H.
  rewrite length_append in H. simpl in H. lia.
Qed.

(** X3: a message scheduled with [ZADD key:delayed score m] is moved by a
    later run of the script exactly when the run's time has reached the
    score; before that it stays in the sorted set with its score, and the
    run pushes only other members. *)
Theorem delayed_message_moves_when_due
    (d : db) (k m : string) (score t : Z) z l :
  zset_at d (k +:+ ":delayed") = Some z ->
  list_at d k = Some l ->
  let scheduled := (zadd (k +:+ ":delayed") score m d).2 in
  exists moved d',
    moveDelayed (k +:+ ":delayed") k t scheduled
    = (inr (Z.of_nat (length moved)), d') /\
    list_at d' k = Some (rev moved ++ l) /\
    (In m moved <-> score <= t) /\
    (t < score ->
     exists z', zset_at d' (k +:+ ":delayed") = Some z' /\ In (score, m) z').
Proof.
  intros Hz Hl scheduled.
  pose proof (delayed_key_differs k) as Hne.
  destruct (zadd_effect d (k +:+ ":delayed") score m z Hz)
    as (n & d1 & z1 & Hadd & Hz1 & Hmem & Hframe).
  assert (Hs : scheduled = d1) by (unfold scheduled; rewrite Hadd; reflexivity).
  assert (Hl1 : list_at d1 k = Some l).
  { unfold list_at. rewrite Hframe by congruence. exact Hl. }
  rewrite Hs.
  assert (Hin : In m (zrange_upto t z1) <-> score <= t).
  { rewrite zrange_upto_spec. split.
    - intros (s & Hi & Hle). apply Hmem in Hi as [Heq|[_ Hm]].
      + injection Heq as ->. exact Hle.
      + simpl in Hm. congruence.
    - intros Hle. exists score. split; [|exact Hle]. apply Hmem. left.
      reflexivity. }
  exists (zrange_upto t z1). eexists.
  split; [apply (moveDelayed_result d1 _ _ t z1 l Hz1 Hl1)|].
  split; [|split; [exact Hin|]].
  - destruct (zrange_upto t z1) eqn:Hm; [exact Hl1|].
    unfold list_at. rewrite data_put_zset_ne by exact Hne.
    apply list_at_put_list.
  - intros Hlt.
    assert (Hkeep : In (score, m) (zrem_upto t z1)).
    { unfold zrem_upto. apply filter_In. split.
      - apply Hmem. left. reflexivity.
      - simpl. apply negb_true_iff, Z.leb_gt. exact Hlt. }
    destruct (zrange_upto t z1) eqn:Hm.
    + exists z1. split; [exact Hz1|].
      rewrite <- (zrange_upto_nil _ _ Hm). exact Hkeep.
    + exists (zrem_upto t z1). split; [apply zset_at_put_zset|exact Hkeep].
Qed.

End ScriptFacts.

(** ** More about the producer *)

Module DeliveryFacts.
Import JsFacts Queue Frame LifecycleFacts ProducerFacts.

Section WithRuntime.
Context {rt : JsRuntime} (env : Env).

(** An immediate [send] on a queue with a writer, state and all. *)
Lemma send_immediate toQueue message eh (q : RedisQueue) :
  writer q = true ->
  let id := uuid (uuids q) in
  let key := prefix (options q) +:+ ":" +:+ toQueue in
  let packet :=
    Codec.select_pack (useGzip (options q)) (envelope id message (name q)) in
  exists q',
    send env toQueue message None eh q = (Return id, q') /\
    writer q' = true /\
    name q' = name q /\
    options q' = options q /\
    uuids q' = S (uuids q) /\
    trace q'
    = trace q ++ Send Writer (Redis.LPUSH key packet)
                 :: reported eh (net env (sent q) (Redis.LPUSH key packet)).
Proof.
  intros Hw id key packet.
  unfold send. unfold bind at 1, this, gets. cbv beta iota.
  unfold bind at 1. rewrite Hw. cbn [negb when]. unfold ret at 1.
  unfold bind at 1. cbv beta iota.
  unfold bind at 1. unfold modify at 1. cbv beta iota.
  fold id key packet. cbn [truthy].
  unfold bind at 1. rewrite call_cb_present by exact Hw.
  cbn [sent set_uuids trace set_trace set_sent].
  destruct (net env (sent q) (Redis.LPUSH key packet)) as [r1|e1];
    [|destruct eh];
    eexists; (split; [reflexivity|]); repeat split;
    first [exact Hw
          | cbn [reported trace set_trace]; rewrite <- ?app_assoc; reflexivity].
Qed.

Lemma commands_app (a b : list effect) :
  commands (a ++ b) = commands a ++ commands b.
Proof. apply omap_app. Qed.

Lemma roundtrip_at (useGzip : bool) (x : json) :
  Codec.json_representable x ->
  (useGzip = true -> Codec.gzip_faithful (JSON_stringify x)) ->
  Codec.select_unpack useGzip (Codec.select_pack useGzip x) = Return x.
Proof.
  intros Hjson Hgzip. destruct useGzip; simpl; [|exact Hjson].
  destruct (Hgzip eq_refl) as [Hz Hutf]. unfold Codec.unpack, Codec.pack.
  rewrite list_byte_of_string_of_list_byte, Hz, Hutf. exact Hjson.
Qed.

(** X4: what an immediate [send] to ["R"] pushes is the key and the text
    that [process] of a queue named ["R"], with the same prefix and codec
    mode, accepts: the consumer emits one [message] event with the payload,
    the identifier [send] returned, and the sender's name. *)
Theorem send_then_process_delivers toQueue message eh
    (producer consumer : RedisQueue) :
  writer producer = true ->
  name consumer = toQueue ->
  prefix (options consumer) = prefix (options producer) ->
  useGzip (options consumer) = useGzip (options producer) ->
  let id := uuid (uuids producer) in
  let x := envelope id message (name producer) in
  Codec.json_representable x ->
  (useGzip (options producer) = true -> Codec.gzip_faithful (JSON_stringify x)) ->
  exists packet,
    (send env toQueue message None eh producer).1 = Return id /\
    In (Send Writer (Redis.LPUSH (key consumer) packet))
       (trace (send env toQueue message None eh producer).2) /\
    process (Some (key consumer), packet) consumer
    = (Return tt,
       set_trace
         (trace consumer ++
          [Emit (message_event (Some message) (Some (JStr id))
                   (Some (JStr (name producer))))]) consumer).
Proof.
  intros Hw Hname Hprefix Hmode id x Hjson Hgzip.
  destruct (send_immediate toQueue message eh producer Hw)
    as (q' & Hsend & _ & _ & _ & _ & Htrace).
  exists (Codec.select_pack (useGzip (options producer)) x).
  rewrite Hsend. cbn [fst snd]. split; [reflexivity|]. split.
  - rewrite Htrace. apply in_or_app. right. left.
    unfold key. rewrite Hprefix, Hname. reflexivity.
  - rewrite ConsumerFacts.process_own_key. unfold try_catch.
    rewrite Hmode, (roundtrip_at _ x Hjson Hgzip). reflexivity.
Qed.

(** X5: two immediate [send] calls in a row on a started queue return the
    results of two successive [uuid()] calls and send two [LPUSH] in program
    order, each envelope with its own identifier; on the server the first
    envelope then lies nearer the tail of the list, where consumers pop. *)
Theorem two_sends_keep_their_order toQueue m1 m2 eh (q : RedisQueue) :
  writer q = true ->
  let id1 := uuid (uuids q) in
  let id2 := uuid (S (uuids q)) in
  let key := prefix (options q) +:+ ":" +:+ toQueue in
  let pack := Codec.select_pack (useGzip (options q)) in
  let p1 := pack (envelope id1 m1 (name q)) in
  let p2 := pack (envelope id2 m2 (name q)) in
  let first := send env toQueue m1 None eh q in
  let second := send env toQueue m2 None eh first.2 in
  first.1 = Return id1 /\
  second.1 = Return id2 /\
  commands (drop (length (trace q)) (trace second.2))
  = [(Writer, Redis.LPUSH key p1); (Writer, Redis.LPUSH key p2)] /\
  (forall (d : Redis.db) l,
     Redis.list_at d key = Some l ->
     Redis.list_at (Redis.lpush key p2 (Redis.lpush key p1 d).2).2 key
     = Some (p2 :: p1 :: l)).
Proof.
  intros Hw id1 id2 key pack p1 p2 first second.
  destruct (send_immediate toQueue m1 eh q Hw)
    as (q1 & Hs1 & Hw1 & Hn1 & Ho1 & Hu1 & Ht1).
  destruct (send_immediate toQueue m2 eh q1 Hw1)
    as (q2 & Hs2 & _ & _ & _ & _ & Ht2).
  unfold second, first. rewrite Hs1. cbn [fst snd]. rewrite Hs2. cbn [fst snd].
  rewrite Hu1, Hn1, Ho1 in *.
  split; [reflexivity|]. split; [reflexivity|]. split.
  - rewrite Ht2, Ht1, <- app_assoc, drop_app_length, commands_app.
    rewrite !commands_send, !commands_reported. reflexivity.
  - intros d l Hl.
    destruct (RedisFacts.lpush_effect d key p1 l Hl) as (d1 & H1 & Hl1 & _).
    rewrite H1. cbn [snd].
    destruct (RedisFacts.lpush_effect d1 key p2 (p1 :: l) Hl1)
      as (d2 & H2 & Hl2 & _).
    rewrite H2. exact Hl2.
Qed.

End WithRuntime.
End DeliveryFacts.

(** ** Stopping, clearing and destroying a queue *)

Module TeardownFacts.
Import JsFacts Queue Frame Teardown WatcherFacts.

Section WithRuntime.
Context {rt : JsRuntime} (env : Env).

Lemma stop_result (q : RedisQueue) (cl : list closing) :
  stop (q, cl)
  = (Return tt,
     if reader q
     then (set_initialized false (set_reader false q), cl ++ shut_log Reader)
     else (set_initialized false q, cl)).
Proof.
  unfold stop, shut, close, lift, this, bind, gets, modify, when, ret.
  cbn [fst snd]. destruct (reader q); cbn [fst snd]; [|reflexivity].
  rewrite <- !app_assoc. reflexivity.
Qed.

Lemma clear_result (q : RedisQueue) :
  writer q = true ->
  let del1 := Redis.DEL (key q) in
  let del2 := Redis.DEL (key q +:+ ":delayed") in
  clear env q
  = (match net env (sent q) del1, net env (S (sent q)) del2 with
     | Throw e, _ => Throw e
     | _, Throw e => Throw e
     | _, _ => Return tt
     end,
     set_trace (trace q ++ [Send Writer del1; Send Writer del2])
       (set_sent (S (S (sent q))) q)).
Proof.
  intros Hw del1 del2. unfold clear. unfold bind at 1, this, gets.
  cbv beta iota. rewrite Hw. cbn [negb].
  unfold bind at 1, settle at 1. rewrite call_present by exact Hw.
  fold del1. unfold bind at 1, settle at 1.
  rewrite call_present by exact Hw. fold del2.
  cbn [sent set_sent set_trace trace]. rewrite <- app_assoc. cbn [app].
  destruct (net env (sent q) del1), (net env (S (sent q)) del2); reflexivity.
Qed.

(** X6: [clear] without a writer connection does nothing at all; with one
    it sends [DEL] of the queue's list and of its delayed set on the writer
    connection, whatever the server answers, and nothing else.  On the
    server these two commands leave every other key as it was, and the
    [moveDelayed] script run on the queue afterwards finds nothing to move,
    whatever the time: messages scheduled before [clear] are gone. *)
Theorem clear_removes_list_and_delayed_set (q : RedisQueue) :
  (writer q = false -> clear env q = (Return tt, q)) /\
  (writer q = true ->
   commands (drop (length (trace q)) (trace (clear env q).2))
   = [(Writer, Redis.DEL (key q)); (Writer, Redis.DEL (key q +:+ ":delayed"))]) /\
  (forall d : Redis.db,
     let d' := (Redis.del (key q +:+ ":delayed") (Redis.del (key q) d).2).2 in
     Redis.data d' !! key q = None /\
     Redis.data d' !! (key q +:+ ":delayed") = None /\
     (forall k, k <> key q -> k <> key q +:+ ":delayed" ->
                Redis.data d' !! k = Redis.data d !! k) /\
     (forall t, Redis.moveDelayed (key q +:+ ":delayed") (key q) t d'
                = (inr 0, d'))).
Proof.
  split; [|split].
  - intros Hw. unfold clear, bind, this, gets. rewrite Hw. reflexivity.
  - intros Hw. rewrite (clear_result q Hw). cbn [snd trace set_trace].
    rewrite drop_app_length. reflexivity.
  - intros d d'. subst d'. unfold Redis.del. cbn [snd Redis.data].
    assert (H1 : delete (key q +:+ ":delayed") (delete (key q) (Redis.data d))
                 !! key q = None).
    { destruct (decide (key q +:+ ":delayed" = key q)) as [E|E].
      - rewrite E. apply lookup_delete_eq.
      - rewrite lookup_delete_ne by exact E. apply lookup_delete_eq. }
    assert (H2 : delete (key q +:+ ":delayed") (delete (key q) (Redis.data d))
                 !! (key q +:+ ":delayed") = None) by apply lookup_delete_eq.
    split; [exact H1|]. split; [exact H2|]. split.
    + intros k Hk1 Hk2. rewrite !lookup_delete_ne by congruence. reflexivity.
    + intros t.
      rewrite (ScriptFacts.moveDelayed_result _ _ _ t [] []).
      * reflexivity.
      * unfold Redis.zset_at. cbn [Redis.data]. rewrite H2. reflexivity.
      * unfold Redis.list_at. cbn [Redis.data]. rewrite H1. reflexivity.
Qed.

(** X7: [stop] closes the reader connection, if there is one, and nothing
    else: the writer and watcher connections stay, no command is sent, and
    [initialized] is cleared so that a later [start] runs again.  A second
    [stop] changes nothing and closes nothing. *)
Theorem stop_closes_only_the_reader (s : RedisQueue * list closing) :
  let s1 := (stop s).2 in
  (stop s).1 = Return tt /\
  reader s1.1 = false /\
  initialized s1.1 = false /\
  writers s1.1 = writers s.1 /\
  watchers s1.1 = watchers s.1 /\
  trace s1.1 = trace s.1 /\
  s1.2 = s.2 ++ (if reader s.1 then shut_log Reader else []) /\
  stop s1 = (Return tt, s1).
Proof.
  destruct s as [q cl]. cbn zeta. rewrite stop_result. cbn [fst snd].
  destruct (reader q) eqn:Hr; cbn [fst snd]; rewrite ?app_nil_r;
    repeat split; try exact Hr;
    rewrite stop_result; cbn [reader set_initialized set_reader];
    rewrite ?Hr; reflexivity.
Qed.

Lemma writer_eq (q' q : RedisQueue) :
  writers q' = writers q -> options q' = options q -> writer q' = writer q.
Proof. unfold writer, redisKey. intros -> ->. reflexivity. Qed.

Lemma watcher_eq (q' q : RedisQueue) :
  watchers q' = watchers q -> options q' = options q -> watcher q' = watcher q.
Proof. unfold watcher, redisKey. intros -> ->. reflexivity. Qed.

Lemma writer_gone (x q : RedisQueue) :
  writers x = writers q ∖ {[redisKey q]} -> options x = options q ->
  writer x = false.
Proof.
  intros Hws Hopt. unfold writer, redisKey. rewrite Hws, Hopt.
  apply bool_decide_eq_false. fold (redisKey q).
  rewrite elem_of_difference, elem_of_singleton. tauto.
Qed.

Lemma watcher_removed (q : RedisQueue) :
  watcher (set_watchers (watchers q ∖ {[redisKey q]}) q) = false.
Proof.
  unfold watcher. apply bool_decide_eq_false.
  change (redisKey (set_watchers (watchers q ∖ {[redisKey q]}) q))
    with (redisKey q).
  cbn [watchers set_watchers]. rewrite elem_of_difference, elem_of_singleton.
  tauto.
Qed.

Lemma destroy_result (q : RedisQueue) (cl : list closing) :
  destroy env (q, cl)
  = if writer q
    then match clear env (wound_down q) with
         | (Return _, q') =>
             (Return tt,
              (set_writers (writers q' ∖ {[redisKey q']}) q',
               cl ++ wound_down_log q ++ shut_log Writer))
         | (Throw e, q') => (Throw e, (q', cl ++ wound_down_log q))
         end
    else (Return tt, (wound_down q, cl ++ wound_down_log q)).
Proof.
  unfold destroy, wound_down, wound_down_log.
  unfold bind at 1, close at 1, modify at 1. cbv beta iota. cbn [fst snd].
  unfold bind at 1, lift at 1, modify at 1. cbv beta iota. cbn [fst snd].
  unfold bind at 1, lift at 1, this at 1, gets at 1. cbv beta iota.
  cbn [fst snd].
  unfold bind at 1.
  change (safeCheckInterval (set_onError false q))
    with (safeCheckInterval q).
  change (watcher (set_onError false q)) with (watcher q).
  destruct (safeCheckInterval q) eqn:Hi, (watcher q) eqn:Hwa,
    (reader q) eqn:Hr, (writer q) eqn:Hw.
  all: cbn [when].
  all: unfold shut, close, lift, effect_, bind, modify, ret; cbn [fst snd].
  all: rewrite stop_result; cbn [reader set_watcher_ready set_watchers
         set_safeCheckInterval set_trace set_onError]; rewrite Hr;
       cbn [fst snd].
  all: unfold this, gets.
  all: repeat match goal with
       | |- context [clear env ?x] =>
           lazymatch goal with
           | H : writer x = _ |- _ => fail
           | _ => assert (writer x = writer q)
                    by (apply writer_eq; reflexivity)
           end
       end.
  all: rewrite Hw in H.
  all: first
    [ rewrite (clear_result _ H); cbv zeta;
      match goal with
      | |- context [net env ?n ?c] =>
          destruct (net env n c);
          match goal with
          | |- context [net env ?n' ?c'] => destruct (net env n' c')
          end
      end;
      cbn [fst snd];
      repeat match goal with
      | |- context [when (writer ?x)] =>
          rewrite (writer_eq x q eq_refl eq_refl), Hw
      end;
      cbn [when shut_log fst snd]; rewrite <- ?app_assoc; cbn [app];
      reflexivity
    | unfold clear, bind, this, gets; rewrite H; cbn [negb ret fst snd];
      rewrite H; cbn [when ret shut_log fst snd]; rewrite <- ?app_assoc;
      cbn [app]; reflexivity ].
Qed.

Lemma wound_down_keeps (q : RedisQueue) :
  writers (wound_down q) = writers q /\
  options (wound_down q) = options q /\
  name (wound_down q) = name q /\
  sent (wound_down q) = sent q /\
  watchOwner (wound_down q) = watchOwner q /\
  trace (wound_down q)
  = trace q ++ (if safeCheckInterval q then [ClearInterval] else []).
Proof.
  unfold wound_down.
  destruct (safeCheckInterval q), (watcher q), (reader q);
    rewrite ?app_nil_r; repeat split.
Qed.

Lemma wound_down_closed (q : RedisQueue) :
  reader (wound_down q) = false /\
  watcher (wound_down q) = false /\
  initialized (wound_down q) = false /\
  safeCheckInterval (wound_down q) = false.
Proof.
  unfold wound_down.
  destruct (safeCheckInterval q) eqn:Hi, (watcher q) eqn:Hwa,
    (reader q) eqn:Hr; repeat split; try assumption;
    cbn [set_initialized set_reader watcher watchers options];
    first [ apply watcher_removed
          | rewrite <- Hwa; apply watcher_eq; reflexivity ].
Qed.

Lemma writer_wound_down (q : RedisQueue) : writer (wound_down q) = writer q.
Proof.
  destruct (wound_down_keeps q) as (H1 & H2 & _). apply writer_eq; assumption.
Qed.

Lemma ended_in_log (q : RedisQueue) (ch : channel) :
  In (EndConnection ch)
     (wound_down_log q ++ (if writer q then shut_log Writer else []))
  <-> has_channel ch q = true.
Proof.
  unfold wound_down_log, shut_log.
  destruct ch; cbn [has_channel];
    destruct (watcher q), (reader q), (writer q); cbn [app In];
    split; intros H; try reflexivity; try discriminate;
    intuition discriminate.
Qed.

(** X8: a [destroy] that resolves leaves no connection on the instance,
    the sweep timer cancelled and [initialized] cleared; it has ended
    exactly the connections that were open, and the only commands it sent
    are the two [DEL] of [clear], when there was a writer.  In particular
    it never sends [DEL] of the watcher lock on purpose: [watchOwner] is
    left as it was and [unlock] is not called. *)
Theorem destroy_closes_what_was_open (s s' : RedisQueue * list closing) :
  destroy env s = (Return tt, s') ->
  (forall ch, has_channel ch s'.1 = false) /\
  initialized s'.1 = false /\
  safeCheckInterval s'.1 = false /\
  watchOwner s'.1 = watchOwner s.1 /\
  (forall ch, In (EndConnection ch) (drop (length s.2) s'.2)
              <-> has_channel ch s.1 = true) /\
  commands (drop (length (trace s.1)) (trace s'.1))
  = if writer s.1
    then [(Writer, Redis.DEL (key s.1));
          (Writer, Redis.DEL (key s.1 +:+ ":delayed"))]
    else [].
Proof.
  destruct s as [q cl]. rewrite destroy_result. cbn [fst snd].
  destruct (wound_down_keeps q) as (Hws & Hopt & Hname & Hsent & Hown & Htr).
  destruct (wound_down_closed q) as (Hr & Hwa & Hin & Hi).
  pose proof (ended_in_log q) as Hlog.
  pose proof (writer_wound_down q) as Hww.
  set (w := wound_down q) in *. clearbody w.
  destruct (writer q) eqn:Hw.
  - rewrite (clear_result _ Hww). cbv zeta.
    destruct (net env (sent w) (Redis.DEL (key w)))
      as [r1|e1]; [|discriminate].
    destruct (net env (S (sent w)) (Redis.DEL (key w +:+ ":delayed")))
      as [r2|e2]; [|discriminate].
    intros [= <-]. cbn [fst snd]. rewrite drop_app_length.
    split; [|repeat split].
    + intros [| |]; cbn [has_channel].
      * exact Hr.
      * apply (writer_gone _ w); reflexivity.
      * rewrite <- Hwa. apply watcher_eq; reflexivity.
    + exact Hin.
    + exact Hi.
    + exact Hown.
    + apply Hlog.
    + apply Hlog.
    + cbn [trace set_writers set_trace set_sent]. rewrite Htr, <- app_assoc.
      rewrite drop_app_length, DeliveryFacts.commands_app.
      unfold key. rewrite Hopt, Hname.
      destruct (safeCheckInterval q); reflexivity.
  - intros [= <-]. cbn [fst snd]. rewrite drop_app_length.
    rewrite app_nil_r in Hlog.
    split; [|repeat split].
    + intros [| |]; cbn [has_channel].
      * exact Hr.
      * exact Hww.
      * exact Hwa.
    + exact Hin.
    + exact Hi.
    + exact Hown.
    + apply Hlog.
    + apply Hlog.
    + rewrite Htr, drop_app_length. destruct (safeCheckInterval q); reflexivity.
Qed.

(** X9: when one of the two [DEL] of [clear] fails, [destroy] rejects with
    that error after it has closed the reader and the watcher: the writer
    connection is still registered and has not been ended. *)
Theorem destroy_rejects_when_clear_fails (s : RedisQueue * list closing)
    (e : jserror) :
  writer s.1 = true ->
  (net env (sent s.1) (Redis.DEL (key s.1)) = Throw e \/
   (exists r, net env (sent s.1) (Redis.DEL (key s.1)) = Return r) /\
   net env (S (sent s.1)) (Redis.DEL (key s.1 +:+ ":delayed")) = Throw e) ->
  let r := destroy env s in
  r.1 = Throw e /\
  writer r.2.1 = true /\
  reader r.2.1 = false /\
  watcher r.2.1 = false /\
  initialized r.2.1 = false /\
  ~ In (EndConnection Writer) (drop (length s.2) r.2.2).
Proof.
  destruct s as [q cl]. cbn [fst snd]. intros Hw Hnet.
  destruct (wound_down_keeps q) as (Hws & Hopt & Hname & Hsent & Hown & Htr).
  destruct (wound_down_closed q) as (Hr & Hwa & Hin & Hi).
  assert (Hw' : writer (wound_down q) = true)
    by (rewrite writer_wound_down; exact Hw).
  cbv zeta. rewrite destroy_result, Hw, (clear_result _ Hw'). cbv zeta.
  set (w := wound_down q) in *. clearbody w.
  unfold key in *. rewrite Hopt, Hname, Hsent.
  assert (Hout :
    match net env (sent q) (Redis.DEL (prefix (options q) +:+ ":" +:+ name q)),
          net env (S (sent q))
            (Redis.DEL ((prefix (options q) +:+ ":" +:+ name q) +:+ ":delayed"))
    with
    | Throw e, _ => Throw e
    | _, Throw e => Throw e
    | _, _ => Return tt
    end = Throw e).
  { destruct Hnet as [-> | [[r ->] ->]]; reflexivity. }
  rewrite Hout. cbn [fst snd]. rewrite drop_app_length.
  repeat split.
  - rewrite <- Hw'. apply writer_eq; reflexivity.
  - exact Hr.
  - rewrite <- Hwa. apply watcher_eq; reflexivity.
  - exact Hin.
  - unfold wound_down_log, shut_log.
    destruct (watcher q), (reader q); cbn [app In]; intuition discriminate.
Qed.

End WithRuntime.
End TeardownFacts.

(** ** Connections are opened once *)

Module ConnectionFacts.
Import JsFacts Queue Frame Connections.

Lemma created_app ch (a b : list effect) :
  created ch (a ++ b) = (created ch a + created ch b)%nat.
Proof. unfold created. rewrite List.filter_app, length_app. reflexivity. Qed.

Lemma opens_once_refl q : opens_once q q.
Proof.
  exists []. split; [rewrite app_nil_r; reflexivity|].
  intros ch. cbn. repeat split; [lia|assumption|discriminate].
Qed.

Lemma opens_once_trans q1 q2 q3 :
  opens_once q1 q2 -> opens_once q2 q3 -> opens_once q1 q3.
Proof.
  intros (t1 & Ht1 & H1) (t2 & Ht2 & H2). exists (t1 ++ t2).
  split; [rewrite Ht2, Ht1, <- app_assoc; reflexivity|].
  intros ch. rewrite created_app.
  destruct (H1 ch) as (Hle1 & Hhas1 & Hone1).
  destruct (H2 ch) as (Hle2 & Hhas2 & Hone2).
  assert (Hc : (created ch t1 = 1 -> created ch t2 = 0)%nat).
  { intros E. apply Hone1 in E. apply Hhas2 in E. tauto. }
  repeat split.
  - lia.
  - apply Hhas1 in H as [-> H]. apply Hhas2 in H as [-> _]. reflexivity.
  - apply Hhas1 in H as [_ H]. apply Hhas2 in H as [_ H]. exact H.
  - intros E.
    destruct (created ch t1) as [|[|n]] eqn:E1; [| |lia].
    + apply Hone2. lia.
    + apply Hhas2. apply Hone1. reflexivity.
Qed.

Section Combinators.
Context {A B : Type}.

Lemma steps_ret (a : A) : steps (ret a).
Proof. intros q. apply opens_once_refl. Qed.

Lemma steps_throw e : steps (@throw RedisQueue A e).
Proof. intros q. apply opens_once_refl. Qed.

Lemma steps_gets (f : RedisQueue -> A) : steps (gets f).
Proof. intros q. apply opens_once_refl. Qed.

Lemma steps_bind (m : Js RedisQueue A) (k : A -> Js RedisQueue B) :
  steps m -> (forall a, steps (k a)) -> steps (bind m k).
Proof.
  intros Hm Hk q. unfold bind. specialize (Hm q).
  destruct (m q) as [[a|e] q1]; cbn [snd] in *; [|assumption].
  eapply opens_once_trans; [exact Hm|apply Hk].
Qed.

Lemma steps_try_catch (m : Js RedisQueue A) (h : jserror -> Js RedisQueue A) :
  steps m -> (forall e, steps (h e)) -> steps (try_catch m h).
Proof.
  intros Hm Hh q. unfold try_catch. specialize (Hm q).
  destruct (m q) as [[a|e] q1]; cbn [snd] in *; [assumption|].
  eapply opens_once_trans; [exact Hm|apply Hh].
Qed.

Lemma steps_settle (m : Js RedisQueue A) : steps m -> steps (settle m).
Proof.
  intros Hm q. unfold settle. specialize (Hm q).
  destruct (m q) as [o q1]. assumption.
Qed.

End Combinators.

Lemma steps_when b (m : Js RedisQueue unit) : steps m -> steps (when b m).
Proof. intros Hm. destruct b; [exact Hm|apply steps_ret]. Qed.

(** A field update that touches neither the connections nor the trace. *)
Lemma steps_modify (g : RedisQueue -> RedisQueue) :
  (forall q, trace (g q) = trace q /\
             forall ch, has_channel ch (g q) = has_channel ch q) ->
  steps (modify g).
Proof.
  intros H q. destruct (H q) as [Ht Hch]. exists []. cbn [modify snd].
  split; [rewrite app_nil_r; exact Ht|].
  intros ch. rewrite Hch. cbn. repeat split; [lia|assumption|discriminate].
Qed.

(** An effect other than the creation of a client. *)
Lemma steps_effect (e : effect) :
  (forall ch, is_create ch e = false) -> steps (effect_ e).
Proof.
  intros He q. exists [e]. split; [reflexivity|].
  intros ch. unfold created. cbn [List.filter]. rewrite He. cbn.
  repeat split; [lia|assumption|discriminate].
Qed.

Create HintDb steps.

Ltac steps_step :=
  first
    [ solve [auto with steps]
    | apply steps_bind; [|intros ?]
    | apply steps_try_catch; [|intros ?]
    | apply steps_settle
    | apply steps_when
    | apply steps_ret
    | apply steps_throw
    | apply steps_gets
    | apply steps_effect; intros ?; reflexivity
    | apply steps_modify; intros ?; split; [reflexivity|intros []; reflexivity]
    | match goal with
      | |- steps (match ?x with _ => _ end) => destruct x
      end
    | assumption ].

Ltac steps_walk := repeat steps_step.

Section WithRuntime.
Context {rt : JsRuntime} (env : Env).

Lemma steps_emit e : steps (emit e).
Proof.
  unfold emit, this. destruct e; [apply steps_effect; intros ?; reflexivity|].
  apply steps_bind; [apply steps_gets|]. intros q0.
  destruct (onError q0);
    [apply steps_effect; intros ?; reflexivity|apply steps_throw].
Qed.

Lemma steps_log l w : steps (log l w).
Proof. apply steps_effect. intros ?. reflexivity. Qed.

Lemma steps_this : steps this.
Proof. apply steps_gets. Qed.
Hint Resolve steps_emit steps_log steps_this : steps.

Lemma steps_call ch c : steps (call env ch c).
Proof. unfold call. steps_walk. Qed.

Lemma steps_call_cb ch c cb :
  (forall o, steps (cb o)) -> steps (call_cb env ch c cb).
Proof. intros Hcb. unfold call_cb. steps_walk; apply Hcb. Qed.

Lemma steps_cast ch c : steps (cast ch c).
Proof. unfold cast. steps_walk. Qed.
Hint Resolve steps_call steps_cast : steps.

Lemma has_set_channel ch q : has_channel ch (set_channel ch q) = true.
Proof.
  destruct ch; cbn [has_channel set_channel]; [reflexivity|..].
  - unfold writer. apply bool_decide_eq_true.
    change (redisKey (set_writers ({[redisKey q]} ∪ writers q) q))
      with (redisKey q).
    cbn [writers set_writers]. apply elem_of_union_l, elem_of_singleton.
    reflexivity.
  - unfold watcher. apply bool_decide_eq_true.
    change (redisKey (set_watchers ({[redisKey q]} ∪ watchers q) q))
      with (redisKey q).
    cbn [watchers set_watchers]. apply elem_of_union_l, elem_of_singleton.
    reflexivity.
Qed.

Lemma has_set_channel_mono ch ch' q :
  has_channel ch' q = true -> has_channel ch' (set_channel ch q) = true.
Proof.
  destruct ch, ch'; cbn [has_channel set_channel]; try (intros H; exact H);
    try reflexivity.
  - unfold writer. rewrite !bool_decide_eq_true.
    change (redisKey (set_writers ({[redisKey q]} ∪ writers q) q))
      with (redisKey q).
    cbn [writers set_writers]. apply elem_of_union_r.
  - unfold watcher. rewrite !bool_decide_eq_true.
    change (redisKey (set_watchers ({[redisKey q]} ∪ watchers q) q))
      with (redisKey q).
    cbn [watchers set_watchers]. apply elem_of_union_r.
Qed.

(** [context[channel] = redis.createClient(...)] on a missing channel. *)
Lemma opens_once_create ch q :
  has_channel ch q = false ->
  opens_once q (set_channel ch (set_trace (trace q ++ [CreateClient ch]) q)).
Proof.
  intros Hno. exists [CreateClient ch]. split.
  - destruct ch; reflexivity.
  - intros ch'. unfold created. cbn [List.filter is_create].
    destruct (same_channel ch ch') eqn:Hsame.
    + assert (ch' = ch) as ->
        by (destruct ch, ch'; cbn in Hsame; congruence).
      cbn [length].
      repeat split; [lia|congruence|congruence|].
      intros _.
      apply (has_set_channel ch (set_trace (trace q ++ [CreateClient ch]) q)).
    + cbn [length].
      repeat split; [lia| |discriminate].
      apply (has_set_channel_mono ch ch'
               (set_trace (trace q ++ [CreateClient ch]) q)).
      destruct ch'; assumption.
Qed.

Lemma steps_connect ch : steps (connect env ch).
Proof.
  intros q. unfold connect. unfold bind at 1, gets at 1. cbv beta iota.
  destruct (has_channel ch q) eqn:Hch; [apply opens_once_refl|].
  unfold bind at 1, effect_ at 1, modify at 1. cbv beta iota.
  unfold bind at 1, modify at 1. cbv beta iota.
  eapply opens_once_trans; [apply (opens_once_create ch q Hch)|].
  match goal with
  | |- opens_once ?s (?k ?s).2 => apply (fun H : steps k => H s)
  end.
  steps_walk.
Qed.
Hint Resolve steps_connect : steps.

Lemma steps_watcherCount : steps (watcherCount env).
Proof. unfold watcherCount. steps_walk. Qed.

Lemma steps_processDelayed k : steps (processDelayed env k).
Proof. unfold processDelayed. steps_walk. Qed.

Lemma steps_watch : steps watch.
Proof. unfold watch. steps_walk. Qed.

Lemma steps_read : steps read.
Proof. unfold read. steps_walk. Qed.

Lemma steps_lock : steps (lock env).
Proof. unfold lock. steps_walk. Qed.

Lemma steps_unlock : steps (unlock env).
Proof. unfold unlock. steps_walk. Qed.

Lemma steps_isLocked : steps (isLocked env).
Proof. unfold isLocked. steps_walk. Qed.

Lemma steps_load_script : steps (load_script env).
Proof. unfold load_script. steps_walk. Qed.
Hint Resolve steps_watcherCount steps_processDelayed steps_watch steps_read
  steps_lock steps_unlock steps_isLocked steps_load_script : steps.

Lemma steps_ownWatch : steps (ownWatch env).
Proof. unfold ownWatch. steps_walk. Qed.
Hint Resolve steps_ownWatch : steps.

Lemma steps_initWatcher : steps (initWatcher env).
Proof. unfold initWatcher. steps_walk. Qed.
Hint Resolve steps_initWatcher : steps.

Lemma steps_start : steps (start env).
Proof. unfold start. steps_walk. Qed.
Hint Resolve steps_start : steps.

Lemma steps_send toQueue message delay eh :
  steps (send env toQueue message delay eh).
Proof.
  unfold send. steps_walk;
    repeat (apply steps_call_cb; intros ?); steps_walk.
Qed.


End WithRuntime.
End ConnectionFacts.

(** ** The decorator: when the outcome changes, and what is logged *)

Module DecoratorFacts.
Import Profile.

Section WithRuntime.
Context {rt : JsRuntime}.
Variables (start finish : Z) (format : AllowedTimeFormat).
Variable heap : gmap positive cell.



End WithRuntime.
End DecoratorFacts.

(** ** Walking a method body for a relation between states *)

Module Walking.
Import JsFacts Queue Connections.

Section Walk.
Variable R : RedisQueue -> RedisQueue -> Prop.
Hypothesis R_refl : forall q, R q q.
Hypothesis R_trans : forall q1 q2 q3, R q1 q2 -> R q2 q3 -> R q1 q3.
Context {A B : Type}.

Lemma respects_ret (a : A) : respects R (ret a).
Proof. intros q. apply R_refl. Qed.

Lemma respects_throw e : respects R (@throw RedisQueue A e).
Proof. intros q. apply R_refl. Qed.

Lemma respects_gets (f : RedisQueue -> A) : respects R (gets f).
Proof. intros q. apply R_refl. Qed.

Lemma respects_modify (g : RedisQueue -> RedisQueue) :
  (forall q, R q (g q)) -> respects R (modify g).
Proof. intros H q. apply H. Qed.

Lemma respects_bind (m : Js RedisQueue A) (k : A -> Js RedisQueue B) :
  respects R m -> (forall a, respects R (k a)) -> respects R (bind m k).
Proof.
  intros Hm Hk q. unfold bind. specialize (Hm q).
  destruct (m q) as [[a|e] q1]; cbn [snd] in *; [|assumption].
  eapply R_trans; [exact Hm|apply Hk].
Qed.

Lemma respects_try_catch (m : Js RedisQueue A)
    (h : jserror -> Js RedisQueue A) :
  respects R m -> (forall e, respects R (h e)) -> respects R (try_catch m h).
Proof.
  intros Hm Hh q. unfold try_catch. specialize (Hm q).
  destruct (m q) as [[a|e] q1]; cbn [snd] in *; [assumption|].
  eapply R_trans; [exact Hm|apply Hh].
Qed.

Lemma respects_settle (m : Js RedisQueue A) :
  respects R m -> respects R (settle m).
Proof.
  intros Hm q. unfold settle. specialize (Hm q).
  destruct (m q) as [o q1]. assumption.
Qed.

End Walk.

Lemma respects_when R (R_refl : forall q, R q q) b (m : Js RedisQueue unit) :
  respects R m -> respects R (when b m).
Proof. intros Hm. destruct b; [exact Hm|intros q; apply R_refl]. Qed.

Lemma respects_weaken (R R' : RedisQueue -> RedisQueue -> Prop) {A}
    (m : Js RedisQueue A) :
  (forall q q', R q q' -> R' q q') -> respects R m -> respects R' m.
Proof. intros Hsub Hm q. apply Hsub, Hm. Qed.

(** Walk a method body for the relation [R]; [leaf] settles the calls
    that have a lemma of their own. *)
Ltac respects_step R R_refl R_trans leaf :=
  first
    [ solve [leaf]
    | apply (respects_bind R R_trans); [|intros ?]
    | apply (respects_try_catch R R_trans); [|intros ?]
    | apply respects_settle
    | apply (respects_when R R_refl)
    | apply (respects_ret R R_refl)
    | apply (respects_throw R R_refl)
    | apply (respects_gets R R_refl)
    | match goal with
      | |- respects _ (match ?x with _ => _ end) => destruct x
      end ].

Lemma same_listener_refl q : same_listener q q.
Proof. reflexivity. Qed.

Lemma same_listener_trans q1 q2 q3 :
  same_listener q1 q2 -> same_listener q2 q3 -> same_listener q1 q3.
Proof. unfold same_listener. congruence. Qed.

Ltac listener_walk :=
  repeat respects_step same_listener same_listener_refl same_listener_trans
    ltac:(apply respects_modify; intros ?; reflexivity).

End Walking.

(** ** The unsafe reader *)

Module ReadingFacts.
Import JsFacts Queue Reading Connections Walking.

Section WithRuntime.
Context {rt : JsRuntime}.
Variable pops : nat -> outcome (option (string * string)).

Lemma events_app (a b : list effect) : events (a ++ b) = events a ++ events b.
Proof. apply omap_app. Qed.

(** One turn of the loop on a well-formed envelope for this queue. *)
Lemma turn_delivers (q : RedisQueue) (i : nat) id message from :
  reader q = true ->
  let x := envelope id message from in
  let packet := Codec.select_pack (useGzip (options q)) x in
  pops i = Return (Some (key q, packet)) ->
  Codec.json_representable x ->
  (useGzip (options q) = true -> Codec.gzip_faithful (JSON_stringify x)) ->
  settle (bind (brpop pops (key q) i) (fun msg => deliver msg)) q
  = (Return (Return tt),
     set_trace
       (trace q ++ [Send Reader (Redis.BRPOP (key q));
                    Emit (delivered (id, message, from))])
       (set_sent (S (sent q)) q)).
Proof.
  intros Hr x packet Hpop Hjson Hgzip.
  unfold settle, brpop. unfold bind at 1. unfold bind at 1.
  unfold cast, bind, gets, modify, effect_. cbn [has_channel].
  rewrite Hr. cbn [negb fst snd]. rewrite Hpop. unfold ret at 1.
  unfold deliver, modify. cbv beta iota.
  match goal with
  | |- context [process (Some (key q), packet) ?s] =>
      let Hp := fresh in
      pose proof (ConsumerFacts.process_own_key s packet) as Hp;
      change (key s) with (key q) in Hp; rewrite Hp; clear Hp
  end.
  unfold try_catch, packet. cbn [options set_trace set_sent].
  rewrite (DeliveryFacts.roundtrip_at _ x Hjson Hgzip).
  cbn [trace set_trace set_sent]. unfold emit, effect_, modify.
  change (destructure x)
    with (Return (Some (JStr id), Some message, Some (JStr from))).
  cbv beta iota. cbn [trace set_trace set_sent]. rewrite <- app_assoc.
  reflexivity.
Qed.

Lemma loop_delivers (last : jserror) (gz : bool) (k : string)
    (envelopes : list (string * json * string)) :
  forall (fuel i : nat) (q : RedisQueue),
    reader q = true -> key q = k -> useGzip (options q) = gz ->
    (forall j id message from,
       envelopes !! j = Some (id, message, from) ->
       let x := envelope id message from in
       pops (i + j)%nat = Return (Some (k, Codec.select_pack gz x)) /\
       Codec.json_representable x /\
       (gz = true -> Codec.gzip_faithful (JSON_stringify x))) ->
    pops (i + length envelopes)%nat = Throw last ->
    (length envelopes < fuel)%nat ->
    exists q' t,
      unsafe_loop pops fuel k i q
      = (if contains "Stream connection ended" (message_of last)
         then Return true else Throw last, q') /\
      trace q' = trace q ++ t /\
      onError q' = onError q /\
      events t = map delivered envelopes /\
      length (commands t) = S (length envelopes).
Proof.
  induction envelopes as [|[[id message] from] rest IH];
    intros fuel i q Hr Hk Hgz Hpops Hlast Hfuel.
  - destruct fuel as [|fuel]; [cbn in Hfuel; lia|].
    cbn [unsafe_loop]. unfold bind at 1, this, gets. cbv beta iota.
    rewrite Hr. cbn [negb]. cbn [length] in Hlast.
    rewrite Nat.add_0_r in Hlast.
    unfold bind at 1, settle, brpop. unfold bind at 1. unfold bind at 1.
    unfold cast, bind, gets, modify, effect_. cbn [has_channel].
    rewrite Hr. cbn [negb fst snd]. rewrite Hlast. unfold throw at 1.
    unfold modify. cbv beta iota.
    eexists. exists [Send Reader (Redis.BRPOP k)].
    split; [destruct (contains "Stream connection ended" (message_of last));
            reflexivity|].
    repeat split.
  - destruct fuel as [|fuel]; [cbn in Hfuel; lia|].
    cbn [unsafe_loop]. unfold bind at 1, this, gets. cbv beta iota.
    rewrite Hr. cbn [negb].
    destruct (Hpops 0%nat id message from eq_refl) as (Hpop & Hjson & Hgzip).
    rewrite Nat.add_0_r in Hpop. subst k gz.
    unfold bind at 1.
    rewrite (turn_delivers q i id message from Hr Hpop Hjson Hgzip).
    edestruct (IH fuel (S i)
      (set_trace
         (trace q ++ [Send Reader (Redis.BRPOP (key q));
                      Emit (delivered (id, message, from))])
         (set_sent (S (sent q)) q)))
      as (q' & t & Hrun & Htrace & Hlisten & Hevents & Hsent).
    + exact Hr.
    + reflexivity.
    + reflexivity.
    + intros j id' message' from' Hj.
      replace (S i + j)%nat with (i + S j)%nat by lia.
      apply (Hpops (S j)). exact Hj.
    + replace (S i + length rest)%nat
        with (i + length ((id, message, from) :: rest))%nat
        by (cbn [length]; lia).
      exact Hlast.
    + cbn [length] in Hfuel. lia.
    + exists q'.
      exists ([Send Reader (Redis.BRPOP (key q));
               Emit (delivered (id, message, from))] ++ t).
      split; [exact Hrun|]. split; [|split; [exact Hlisten|split]].
      * rewrite Htrace. cbn [trace set_trace]. rewrite <- app_assoc.
        reflexivity.
      * rewrite events_app, Hevents. reflexivity.
      * rewrite DeliveryFacts.commands_app, length_app, Hsent. reflexivity.
Qed.

(** X14: the unsafe reader hands over what it pops, in the order popped.
    If the first [n] [BRPOP] answer with well-formed envelopes for this
    queue and the next one fails, the loop emits exactly the [n] ['message']
    events, in that order, after [n + 1] [BRPOP].  When the failure says the
    stream connection ended the callback returns quietly.  Any other failure
    goes to [emit('error', err, 'OnReadUnsafe')]: with an ['error'] listener
    on the queue the event is delivered, the failure logged, and the callback
    returns; without one the callback throws the failure. *)
Theorem readUnsafe_delivers_in_order (last : jserror)
    (envelopes : list (string * json * string)) (fuel : nat) (q : RedisQueue) :
  reader q = true ->
  (forall j id message from,
     envelopes !! j = Some (id, message, from) ->
     let x := envelope id message from in
     pops j = Return (Some (key q, Codec.select_pack (useGzip (options q)) x)) /\
     Codec.json_representable x /\
     (useGzip (options q) = true -> Codec.gzip_faithful (JSON_stringify x))) ->
  pops (length envelopes) = Throw last ->
  (length envelopes < fuel)%nat ->
  let ended := contains "Stream connection ended" (message_of last) in
  exists q' t,
    readUnsafe pops fuel q
    = (if ended || onError q then Return true else Throw last, q') /\
    trace q' = trace q ++ t /\
    length (commands t) = S (length envelopes) /\
    events t
    = map delivered envelopes ++
      (if negb ended && onError q
       then [error_event last "OnReadUnsafe"] else []).
Proof.
  intros Hr Hpops Hlast Hfuel ended.
  destruct (loop_delivers last (useGzip (options q)) (key q) envelopes
              fuel 0%nat q Hr eq_refl eq_refl Hpops Hlast Hfuel)
    as (q' & t & Hrun & Htrace & Hlisten & Hevents & Hsent).
  unfold readUnsafe, try_catch. unfold bind at 1, this, gets.
  cbv beta iota. rewrite Hrun. fold ended.
  destruct ended; cbn [orb negb andb].
  - exists q', t. rewrite app_nil_r. auto.
  - unfold bind at 1, emit. unfold bind at 1, this, gets. cbv beta iota.
    rewrite Hlisten. destruct (onError q).
    + eexists.
      exists (t ++ [Emit (error_event last "OnReadUnsafe");
                    Log LogError "unsafe reader failed"]).
      split; [reflexivity|]. split; [|split].
      * cbn [trace set_trace]. rewrite Htrace, <- !app_assoc. reflexivity.
      * rewrite DeliveryFacts.commands_app, length_app, Hsent. cbn. lia.
      * rewrite events_app, Hevents. reflexivity.
    + exists q', t. rewrite app_nil_r. auto.
Qed.

Lemma listener_cast ch c : respects same_listener (cast ch c).
Proof. unfold cast, effect_. listener_walk. Qed.

Lemma listener_emit e : respects same_listener (emit e).
Proof. unfold emit, effect_, this. destruct e; listener_walk. Qed.

Lemma listener_process m : respects same_listener (process m).
Proof.
  pose proof listener_emit as He.
  unfold process, log, effect_, this. destruct m as [queue data].
  repeat respects_step same_listener same_listener_refl same_listener_trans
    ltac:(first [apply He|apply respects_modify; intros ?; reflexivity]).
Qed.

Lemma listener_turn k i :
  respects same_listener (bind (brpop pops k i) (fun msg => deliver msg)).
Proof.
  pose proof listener_process as Hp. pose proof listener_cast as Hc.
  unfold brpop, deliver.
  repeat respects_step same_listener same_listener_refl same_listener_trans
    ltac:(first [apply Hp|apply Hc]).
Qed.

Lemma listener_loop (fuel : nat) :
  forall k i, respects same_listener (unsafe_loop pops fuel k i).
Proof.
  induction fuel as [|fuel IH]; intros k i; [intros q; reflexivity|].
  pose proof (listener_turn k i) as Ht.
  cbn [unsafe_loop]. unfold this.
  repeat respects_step same_listener same_listener_refl same_listener_trans
    ltac:(first [apply Ht|apply IH]).
Qed.

(** X15: with no reader connection the loop is left at once: nothing is
    sent, nothing is emitted.  With an ['error'] listener on the queue the
    callback of [readUnsafe] never throws, whatever the [BRPOP] answer: a
    failure is either the end of the stream or ends up in an ['error']
    event. *)
Theorem readUnsafe_returns_when_listened (fuel : nat) (q : RedisQueue) :
  (reader q = false -> readUnsafe pops (S fuel) q = (Return true, q)) /\
  (onError q = true ->
   exists b q', readUnsafe pops fuel q = (Return b, q')).
Proof.
  split.
  - intros Hr. unfold readUnsafe, try_catch. cbn [unsafe_loop].
    unfold bind, this, gets. rewrite Hr. reflexivity.
  - intros Hl. unfold readUnsafe, try_catch.
    unfold bind at 1, this at 1, gets at 1. cbv beta iota.
    pose proof (listener_loop fuel (key q) 0%nat q) as Hkeep.
    destruct (unsafe_loop pops fuel (key q) 0%nat q) as [[b|e] q1];
      [eauto|].
    cbn [snd] in Hkeep. unfold same_listener in Hkeep.
    unfold bind at 1, emit. unfold bind at 1, this, gets. cbv beta iota.
    rewrite Hkeep, Hl.
    unfold log, effect_, bind, modify, ret. eauto.
Qed.

End WithRuntime.
End ReadingFacts.

(** ** Delayed messages, from [send] to the script *)

Module DelayFacts.
Import JsString JsStringFacts JsFacts Queue Frame WatcherFacts ProducerFacts.

Section WithRuntime.
Context {rt : JsRuntime}.

(** The listener on the beacon of a delayed message, on an instance that
    has a writer and the script's checksum. *)
Lemma pmessage_on_beacon (env : Env) (q : RedisQueue)
    (pattern channel listKey id sha : string) :
  free_of colon id = true ->
  writer q = true ->
  checksum q = Some sha ->
  let evalsha := Redis.EVALSHA sha [listKey +:+ ":delayed"; listKey] (now env) in
  exists q' t,
    on_pmessage env [pattern; channel; listKey +:+ ":" +:+ id +:+ ":ttl"] q
    = (match net env (sent q) evalsha with
       | Return _ => Return tt
       | Throw e => if onError q then Return tt else Throw e
       end, q') /\
    trace q' = trace q ++ Send Writer evalsha :: t /\
    commands t = [].
Proof.
  intros Hid Hw Hsum evalsha. unfold on_pmessage, try_catch, pop.
  change (last [pattern; channel; listKey +:+ ":" +:+ id +:+ ":ttl"])
    with (Some (listKey +:+ ":" +:+ id +:+ ":ttl")).
  cbv beta iota. rewrite split_ttl_key by exact Hid.
  change [id; "ttl"] with ([id] ++ ["ttl"]). rewrite app_assoc.
  rewrite last_snoc, !removelast_snoc, join_split.
  rewrite bool_decide_eq_true_2 by reflexivity. cbn [negb].
  unfold processDelayed. unfold bind at 1, gets at 1. cbv beta iota.
  rewrite Hsum. unfold bind at 1. rewrite call_present by exact Hw.
  fold evalsha.
  destruct (net env (sent q) evalsha) as [r|e].
  - eexists. exists []. repeat split.
  - unfold on_watch_error, emit. unfold bind at 1. unfold bind at 1.
    unfold this, gets. cbv beta iota. cbn [onError set_trace set_sent].
    destruct (onError q).
    + unfold log, effect_, modify.
      eexists. eexists. split; [reflexivity|].
      cbn [trace set_trace set_sent]. rewrite <- !app_assoc. cbn [app].
      split; reflexivity.
    + eexists. exists []. repeat split.
Qed.

(** X16: a delayed [send] and the watcher meet on the same keys.  When the
    [ZADD] is acknowledged, [send] with a delay sends [ZADD] on
    ["<prefix>:<toQueue>:delayed"] and [SET ... PX delay NX] on
    ["<prefix>:<toQueue>:<id>:ttl"]; when that key expires, the listener of a
    watcher that has the script's checksum answers the event with one
    [EVALSHA] of the script on ["<prefix>:<toQueue>:delayed"] and
    ["<prefix>:<toQueue>"], whatever colons the prefix or the queue name
    contain.  The listener returns, unless the [EVALSHA] fails on an
    instance without an ['error'] listener: then it throws that failure. *)
Theorem delayed_send_is_promoted_on_expiry (env env' : Env)
    (producer observer : RedisQueue) toQueue message (delay : Z) eh
    (pattern channel sha : string) :
  writer producer = true ->
  delay <> 0 ->
  let id := uuid (uuids producer) in
  let key := prefix (options producer) +:+ ":" +:+ toQueue in
  let packet :=
    Codec.select_pack (useGzip (options producer))
      (envelope id message (name producer)) in
  let zadd := Redis.ZADD (key +:+ ":delayed") (now env + delay) packet in
  let beacon := key +:+ ":" +:+ id +:+ ":ttl" in
  let evalsha := Redis.EVALSHA sha [key +:+ ":delayed"; key] (now env') in
  (exists r, net env (sent producer) zadd = Return r) ->
  free_of colon id = true ->
  writer observer = true ->
  checksum observer = Some sha ->
  let sent_ := send env toQueue message (Some delay) eh producer in
  let heard := on_pmessage env' [pattern; channel; beacon] observer in
  sent_.1 = Return id /\
  commands (drop (length (trace producer)) (trace sent_.2))
  = [(Writer, zadd); (Writer, Redis.SET_PX_NX beacon "" delay)] /\
  heard.1 = match net env' (sent observer) evalsha with
            | Return _ => Return tt
            | Throw e => if onError observer then Return tt else Throw e
            end /\
  commands (drop (length (trace observer)) (trace heard.2))
  = [(Writer, evalsha)].
Proof.
  intros Hw Hdelay id key packet zadd beacon evalsha [r Hzadd] Hid Hwo Hsum
    sent_ heard.
  assert (Hpre : when (negb (writer producer)) (start env) producer
                 = (Return tt, producer)) by (rewrite Hw; reflexivity).
  destruct (send_ready env toQueue message (Some delay) eh producer producer
              Hpre Hw) as (q' & Hsend & _ & Htrace).
  destruct (pmessage_on_beacon env' observer pattern channel key id sha
              Hid Hwo Hsum) as (o' & t & Hheard & Htrace' & Ht).
  subst sent_ heard. fold beacon in Hheard. rewrite Hsend, Hheard.
  cbn [fst snd]. rewrite Htrace, Htrace', !drop_app_length.
  split; [reflexivity|]. split; [|split; [reflexivity|]].
  - unfold truthy. change (default 0 (Some delay)) with delay.
    rewrite (proj2 (Z.eqb_neq delay 0) Hdelay). cbn [negb].
    fold id key packet zadd beacon. rewrite Hzadd.
    rewrite !commands_send, commands_reported. reflexivity.
  - rewrite commands_send, Ht. reflexivity.
Qed.

End WithRuntime.
End DelayFacts.

(** ** The watcher: installing once, and a sweep that fails *)

Module SweepFacts.
Import JsFacts Queue Frame Connections WatcherFacts.

Lemma sends_only_refl q : sends_only q q.
Proof. exists []. rewrite app_nil_r. repeat split. Qed.

Lemma sends_only_trans q1 q2 q3 :
  sends_only q1 q2 -> sends_only q2 q3 -> sends_only q1 q3.
Proof.
  intros (t1 & Ht1 & Hs1 & Hi1 & Hl1) (t2 & Ht2 & Hs2 & Hi2 & Hl2).
  exists (t1 ++ t2).
  rewrite Ht2, Ht1, <- app_assoc, forallb_app, Hs1, Hs2, Hi2, Hi1, Hl2, Hl1.
  repeat split.
Qed.

Section WithRuntime.
Context {rt : JsRuntime} (env : Env).

Lemma sends_only_call ch c q : sends_only q (call env ch c q).2.
Proof.
  unfold call, bind, gets, modify, effect_, ret, throw.
  destruct (has_channel ch q); cbn [negb snd]; [|apply sends_only_refl].
  exists [Send ch c].
  destruct (net env (sent q) c); repeat split.
Qed.

Lemma sends_only_sweep_key now k q : sends_only q (sweep_key env now k q).2.
Proof.
  unfold sweep_key.
  destruct (JsString.pop (JsString.split colon k)) as [expire kp].
  destruct (jsnum_ge _ now); [|apply sends_only_refl].
  destruct (JsString.shift kp) as [a kp1].
  destruct (JsString.shift kp1) as [b kp2].
  unfold bind.
  pose proof (sends_only_call Writer
    (Redis.RPOPLPUSH k (JsString.template a +:+ ":" +:+ JsString.template b)) q)
    as H.
  destruct (call env Writer _ q) as [[r|e] q1]; exact H.
Qed.

Lemma sends_only_sweep_keys now keys :
  forall q, sends_only q (sweep_keys env now keys q).2.
Proof.
  induction keys as [|k rest IH]; intros q; [apply sends_only_refl|].
  cbn [sweep_keys]. unfold bind.
  pose proof (sends_only_sweep_key now k q) as H.
  destruct (sweep_key env now k q) as [[[]|e] q1]; cbn [snd] in *;
    [|exact H].
  eapply sends_only_trans; [exact H|apply IH].
Qed.

Lemma sends_only_sweep_page now cursor q :
  sends_only q (sweep_page env now cursor q).2.
Proof.
  unfold sweep_page. unfold bind at 1, this, gets. cbv beta iota.
  unfold bind at 1.
  pose proof (sends_only_call Writer
    (Redis.SCAN_MATCH cursor (prefix (options q) +:+ ":*:worker:*") "1000") q)
    as H.
  destruct (call env Writer _ q) as [[r|e] q1]; cbn [snd] in *; [|exact H].
  destruct r; try exact H.
  unfold bind.
  pose proof (sends_only_sweep_keys now keys q1) as H'.
  destruct (sweep_keys env now keys q1) as [[[]|e] q2]; cbn [snd] in *;
    eapply sends_only_trans; eassumption.
Qed.

Lemma sweep_loop_ends (fuel : nat) (now : Z) :
  forall cursor q,
    exists o q' t,
      sweep_loop env fuel now cursor q = (o, q') /\
      trace q' = trace q ++ t /\
      sweep_ended q q' o t.
Proof.
  induction fuel as [|fuel IH]; intros cursor q.
  - exists (Return false), q, []. rewrite app_nil_r. split; [reflexivity|].
    split; [reflexivity|]. left. exists false. repeat split.
  - cbn [sweep_loop]. unfold bind at 1, settle.
    destruct (sends_only_sweep_page now cursor q)
      as (t1 & Ht1 & Hs1 & Hi1 & Hl1).
    destruct (sweep_page env now cursor q) as [[cursor'|e] q1];
      cbn [snd] in *.
    + destruct (String.eqb cursor' "0").
      * exists (Return true), q1, t1. split; [reflexivity|].
        split; [exact Ht1|]. left. exists true. repeat split; assumption.
      * destruct (IH cursor' q1) as (o & q' & t2 & Hrun & Ht2 & Hend).
        exists o, q', (t1 ++ t2). split; [exact Hrun|].
        split; [rewrite Ht2, Ht1, <- app_assoc; reflexivity|].
        destruct Hend as [(b & -> & Hs2 & Hi2)
                         |[(t0 & e & Hl & -> & -> & Hs0 & Hi2)
                          |(e & Hl & -> & Hs2 & Hi2)]].
        -- left. exists b. rewrite forallb_app, Hs1, Hs2, Hi2, Hi1.
           repeat split.
        -- right. left. exists (t1 ++ t0), e.
           rewrite <- app_assoc, forallb_app, Hs1, Hs0, <- Hl1.
           repeat split; assumption.
        -- right. right. exists e.
           rewrite forallb_app, Hs1, Hs2, Hi2, Hi1, <- Hl1.
           repeat split; assumption.
    + unfold bind at 1, emit. unfold bind at 1, this, gets. cbv beta iota.
      rewrite Hl1. destruct (onError q) eqn:Hl.
      * unfold effect_, bind, modify, ret.
        eexists. eexists.
        exists (t1 ++ [Emit (error_event e "OnSafeDelivery"); ClearInterval]).
        split; [reflexivity|]. split.
        -- cbn [trace set_trace set_safeCheckInterval].
           rewrite Ht1, <- !app_assoc. reflexivity.
        -- right. left. exists t1, e. repeat split; assumption.
      * exists (Throw e), q1, t1. split; [reflexivity|].
        split; [exact Ht1|]. right. right. exists e.
        repeat split; assumption.
Qed.

Lemma sweep_ends (fuel : nat) (q : RedisQueue) :
  exists o q' t,
    sweep env fuel q = (o, q') /\
    trace q' = trace q ++ t /\
    (if writer q then sweep_ended q q' o t
     else o = Return true /\ t = [ClearInterval] /\
          safeCheckInterval q' = false).
Proof.
  unfold sweep. unfold bind at 1, gets. cbv beta iota.
  destruct (writer q).
  - cbn [negb]. apply sweep_loop_ends.
  - cbn [negb]. unfold effect_, bind, modify, ret.
    eexists. eexists. exists [ClearInterval]. repeat split.
Qed.

(** A sweep whose first [SCAN] fails. *)
Lemma sweep_first_scan_fails (fuel : nat) (q : RedisQueue) (e : jserror) :
  writer q = true ->
  let scan := Redis.SCAN_MATCH "0" (prefix (options q) +:+ ":*:worker:*")
                "1000" in
  net env (sent q) scan = Throw e ->
  let run := sweep env (S fuel) q in
  run.1 = (if onError q then Return true else Throw e) /\
  trace run.2
  = trace q ++
    Send Writer scan
    :: (if onError q
        then [Emit (error_event e "OnSafeDelivery"); ClearInterval] else []).
Proof.
  intros Hw scan Hnet run.
  assert (Hrun : exists q',
             run = (if onError q then Return true else Throw e, q') /\
             trace q'
             = trace q ++
               Send Writer scan
               :: (if onError q
                   then [Emit (error_event e "OnSafeDelivery"); ClearInterval]
                   else [])).
  { unfold run, sweep. unfold bind at 1, gets.
    cbv beta iota. rewrite Hw. cbn [negb sweep_loop].
    unfold bind at 1, settle, sweep_page. unfold bind at 1, this, gets.
    cbv beta iota. unfold bind at 1. fold scan.
    rewrite (call_present env Writer scan q Hw), Hnet.
    unfold bind at 1, emit. unfold bind at 1, this, gets. cbv beta iota.
    change (onError (set_trace (trace q ++ [Send Writer scan])
                       (set_sent (S (sent q)) q)))
      with (onError q).
    destruct (onError q).
    - unfold effect_, bind, modify, ret. eexists. split; [reflexivity|].
      cbn [trace set_trace set_sent set_safeCheckInterval].
      rewrite <- !app_assoc. reflexivity.
    - eexists. split; reflexivity. }
  destruct Hrun as (q' & -> & Ht). split; [reflexivity|exact Ht].
Qed.


Lemma watch_idle (q : RedisQueue) :
  negb (watcher q) || watcher_ready q = true -> watch q = (Return tt, q).
Proof. intros H. unfold watch, bind, this, gets. rewrite H. reflexivity. Qed.

(** A first run on a watcher connection; [this.writer.config] on a missing
    writer is a [TypeError] inside the [try]. *)
Lemma watch_first_run (q : RedisQueue) :
  watcher q = true -> watcher_ready q = false ->
  writer q = true \/ onError q = true ->
  exists q', watch q = (Return tt, q') /\ watcher_ready q' = true.
Proof.
  intros Hwa Hrd Hor. unfold watch. unfold bind at 1, this at 1, gets at 1.
  cbv beta iota. rewrite Hwa, Hrd. cbn [negb orb].
  unfold try_catch, cast, emit, log, effect_, bind, this, gets, modify, when,
    ret, throw.
  cbn [has_channel].
  destruct (writer q) eqn:Hw; cbn [negb].
  - repeat match goal with
    | |- context [negb (watcher ?x)] =>
        rewrite (TeardownFacts.watcher_eq x q eq_refl eq_refl), Hwa
    end; cbn [negb].
    match goal with
    | |- context [safeDelivery ?o && negb ?i] =>
        destruct (safeDelivery o && negb i)
    end; eexists; split; reflexivity.
  - destruct Hor as [Hor|Hl]; [discriminate|]. rewrite Hl.
    repeat match goal with
    | |- context [negb (watcher ?x)] =>
        rewrite (TeardownFacts.watcher_eq x q eq_refl eq_refl), Hwa
    end; cbn [negb].
    match goal with
    | |- context [safeDelivery ?o && negb ?i] =>
        destruct (safeDelivery o && negb i)
    end; eexists; split; reflexivity.
Qed.

Lemma watch_first_run_throws (q : RedisQueue) :
  watcher q = true -> watcher_ready q = false ->
  writer q = false -> onError q = false ->
  watch q
  = (Throw (TypeError "Cannot read property of undefined: writer"), q).
Proof.
  intros Hwa Hrd Hw Hl. unfold watch. unfold bind at 1, this at 1, gets at 1.
  cbv beta iota. rewrite Hwa, Hrd. cbn [negb orb].
  unfold try_catch, cast, emit, log, effect_, bind, this, gets, modify, when,
    ret, throw.
  cbn [has_channel]. rewrite Hw. cbn [negb]. rewrite Hl. reflexivity.
Qed.

(** What a first run with a writer connection does, in order. *)
Lemma watch_first_run_trace (q : RedisQueue) :
  watcher q = true -> watcher_ready q = false -> writer q = true ->
  trace (watch q).2
  = trace q ++
    [Send Writer (Redis.CONFIG_SET "notify-keyspace-events" "Ex");
     OnPMessage;
     Send Watcher (Redis.PSUBSCRIBE
       ["__keyevent@0__:expired"; prefix (options q) +:+ ":delayed:*"])]
    ++ (if safeDelivery (options q) && negb (safeCheckInterval q)
        then [SetInterval (safeDeliveryTtl (options q))] else []).
Proof.
  intros Hwa Hrd Hw. unfold watch. unfold bind at 1, this at 1, gets at 1.
  cbv beta iota. rewrite Hwa, Hrd. cbn [negb orb].
  unfold try_catch, cast, emit, log, effect_, bind, this, gets, modify, when,
    ret, throw.
  cbn [has_channel]. rewrite Hw. cbn [negb].
  repeat match goal with
  | |- context [negb (watcher ?x)] =>
      rewrite (TeardownFacts.watcher_eq x q eq_refl eq_refl), Hwa
  end; cbn [negb].
  cbn [options safeCheckInterval set_trace set_sent].
  destruct (safeDelivery (options q) && negb (safeCheckInterval q));
    cbn [snd trace set_trace set_sent set_safeCheckInterval set_watcher_ready];
    rewrite <- ?app_assoc; reflexivity.
Qed.

Lemma watch_once (q : RedisQueue) :
  let q1 := (watch q).2 in
  (writer q = true \/ onError q = true \/
   negb (watcher q) || watcher_ready q = true ->
   (watch q).1 = Return tt) /\
  ((watch q).1 = Return tt -> watch q1 = (Return tt, q1)) /\
  (watcher q = false -> watch q = (Return tt, q)) /\
  (watcher q = true -> (watch q).1 = Return tt -> watcher_ready q1 = true) /\
  (watcher q = true -> watcher_ready q = false ->
   writer q = false -> onError q = false ->
   exists e, watch q = (Throw e, q)).
Proof.
  cbv zeta.
  destruct (negb (watcher q) || watcher_ready q) eqn:Hidle.
  - rewrite (watch_idle q Hidle). cbn [fst snd].
    split; [reflexivity|]. split; [intros _; apply watch_idle, Hidle|].
    split; [reflexivity|]. split.
    + intros Hwa _. rewrite Hwa in Hidle. exact Hidle.
    + intros Hwa Hrd. rewrite Hwa, Hrd in Hidle. discriminate.
  - apply orb_false_iff in Hidle as [Hwa Hrd].
    apply negb_false_iff in Hwa.
    pose proof (watch_first_run q Hwa Hrd) as Hok.
    pose proof (watch_first_run_throws q Hwa Hrd) as Hfail.
    split; [|split; [|split; [congruence|split]]].
    + intros [Hw|[Hl|Hf]]; [| |discriminate].
      * destruct (Hok (or_introl Hw)) as (q' & -> & _). reflexivity.
      * destruct (Hok (or_intror Hl)) as (q' & -> & _). reflexivity.
    + destruct (writer q) eqn:Hw; [|destruct (onError q) eqn:Hl].
      * destruct (Hok (or_introl eq_refl)) as (q' & -> & Hready).
        intros _. cbn [snd]. apply watch_idle. rewrite Hready.
        apply orb_true_r.
      * destruct (Hok (or_intror eq_refl)) as (q' & -> & Hready).
        intros _. cbn [snd]. apply watch_idle. rewrite Hready.
        apply orb_true_r.
      * rewrite (Hfail eq_refl eq_refl). discriminate.
    + intros _.
      destruct (writer q) eqn:Hw; [|destruct (onError q) eqn:Hl].
      * destruct (Hok (or_introl eq_refl)) as (q' & -> & Hready).
        intros _. exact Hready.
      * destruct (Hok (or_intror eq_refl)) as (q' & -> & Hready).
        intros _. exact Hready.
      * rewrite (Hfail eq_refl eq_refl). discriminate.
    + intros _ _ Hw Hl. eexists. apply (Hfail Hw Hl).
Qed.

(** X18: [watch] installs its listener, its subscription and its timer at
    most once: a run that returns on a watcher connection has marked it
    ready, and on a ready watcher, or without a watcher connection, [watch]
    does nothing.  A first run returns whenever the instance has a writer
    connection or an ['error'] listener; with neither, the [TypeError] of
    [this.writer.config] goes to [emit('error', err, 'OnConfig')], which
    throws it, and [watch] throws before it has installed anything.  A
    first run with a writer connection sends [CONFIG SET
    notify-keyspace-events Ex] on it, registers the ['pmessage'] listener,
    subscribes the watcher connection to the expiry events, and starts the
    sweep timer when safe delivery is on and no timer runs, in that order
    and nothing else. *)
Theorem watch_installs_once (q : RedisQueue) :
  let q1 := (watch q).2 in
  (writer q = true \/ onError q = true \/
   negb (watcher q) || watcher_ready q = true ->
   (watch q).1 = Return tt) /\
  ((watch q).1 = Return tt -> watch q1 = (Return tt, q1)) /\
  (watcher q = false -> watch q = (Return tt, q)) /\
  (watcher q = true -> (watch q).1 = Return tt -> watcher_ready q1 = true) /\
  (watcher q = true -> watcher_ready q = false ->
   writer q = false -> onError q = false ->
   exists e, watch q = (Throw e, q)) /\
  (watcher q = true -> watcher_ready q = false -> writer q = true ->
   trace q1
   = trace q ++
     [Send Writer (Redis.CONFIG_SET "notify-keyspace-events" "Ex");
      OnPMessage;
      Send Watcher (Redis.PSUBSCRIBE
        ["__keyevent@0__:expired"; prefix (options q) +:+ ":delayed:*"])]
     ++ (if safeDelivery (options q) && negb (safeCheckInterval q)
         then [SetInterval (safeDeliveryTtl (options q))] else [])).
Proof.
  cbv zeta. destruct (watch_once q) as (H1 & H2 & H3 & H4 & H5).
  repeat split; try assumption. apply watch_first_run_trace.
Qed.

End WithRuntime.
End SweepFacts.

(** ** The further properties at concrete inputs *)

Module Instances.
Import Queue Reference Scenarios Cases Teardown Reading.

(** X1 at a key space whose ready list's key holds a string: the script
    fails on its first [LPUSH] and the delayed set keeps its member. *)
Lemma moveDelayed_error_witness :
  exists e,
    (Redis.moveDelayed "imq:Q:delayed" "imq:Q" 1000 clashing_db).1 = inl e /\
    (Redis.moveDelayed "imq:Q:delayed" "imq:Q" 1000 clashing_db).2
    = clashing_db.
Proof.
  exists "WRONGTYPE Operation against a key holding the wrong kind of value".
  split; [vm_compute; reflexivity|].
  apply (ScriptFacts.moveDelayed_error_changes_nothing clashing_db _
           "imq:Q:delayed" "imq:Q" 1000
           "WRONGTYPE Operation against a key holding the wrong kind of value").
  vm_compute. reflexivity.
Defined.

(** X2 at the key space with two due messages. *)
Lemma moveDelayed_twice_witness :
  let after := (Redis.moveDelayed "imq:Q:delayed" "imq:Q" 1000 due_db).2 in
  Redis.moveDelayed "imq:Q:delayed" "imq:Q" 1000 after = (inr 0, after).
Proof.
  exact (ScriptFacts.moveDelayed_twice due_db "imq:Q:delayed" "imq:Q" 1000
           [(900, "m1"); (1000, "m2"); (1500, "m3")] ["m0"]
           eq_refl eq_refl).
Defined.

(** X3: a message scheduled for 950 is among those moved at 1000. *)
Lemma delayed_message_witness :
  let scheduled := (Redis.zadd "imq:Q:delayed" 950 "m4" due_db).2 in
  exists moved d',
    Redis.moveDelayed "imq:Q:delayed" "imq:Q" 1000 scheduled
    = (inr (Z.of_nat (length moved)), d') /\
    Redis.list_at d' "imq:Q" = Some (rev moved ++ ["m0"]) /\
    In "m4" moved.
Proof.
  destruct (ScriptFacts.delayed_message_moves_when_due due_db "imq:Q" "m4"
              950 1000 [(900, "m1"); (1000, "m2"); (1500, "m3")] ["m0"]
              eq_refl eq_refl)
    as (moved & d' & Hrun & Hlist & Hin & _).
  exists moved, d'. split; [exact Hrun|]. split; [exact Hlist|].
  apply Hin. lia.
Defined.

(** X4: what the started queue ["A"] sends to ["Q"] is what the queue
    ["Q"] hands to its listeners. *)
Lemma send_then_process_witness :
  exists packet,
    (send quiet "Q" (JNum 5) None false started).1 = Return "uuid-0" /\
    In (Send Writer (Redis.LPUSH "imq:Q" packet))
       (trace (send quiet "Q" (JNum 5) None false started).2) /\
    process (Some "imq:Q", packet) receiver
    = (Return tt,
       set_trace
         [Emit (message_event (Some (JNum 5)) (Some (JStr "uuid-0"))
                  (Some (JStr "A")))] receiver).
Proof.
  assert (Hw : writer started = true) by (vm_compute; reflexivity).
  assert (Hjson : Codec.json_representable
                    (envelope (uuid (uuids started)) (JNum 5) (name started)))
    by (vm_compute; reflexivity).
  assert (Hgz : useGzip (options started) = true ->
                Codec.gzip_faithful
                  (JSON_stringify
                     (envelope (uuid (uuids started)) (JNum 5) (name started))))
    by (intros H; vm_compute in H; discriminate).
  exact (DeliveryFacts.send_then_process_delivers quiet "Q" (JNum 5) false
           started receiver Hw eq_refl eq_refl eq_refl Hjson Hgz).
Defined.

(** X5: two sends of the started queue. *)
Lemma two_sends_witness :
  (send quiet "Q" (JNum 1) None false started).1 = Return "uuid-0" /\
  (send quiet "Q" (JNum 2) None false
     (send quiet "Q" (JNum 1) None false started).2).1 = Return "uuid-1".
Proof.
  assert (Hw : writer started = true) by (vm_compute; reflexivity).
  destruct (DeliveryFacts.two_sends_keep_their_order quiet "Q" (JNum 1)
              (JNum 2) false started Hw) as (H1 & H2 & _).
  split; [exact H1|exact H2].
Defined.

(** X8: destroying the started queue against the quiet server; the
    instance was the watcher owner and still says so. *)
Lemma destroy_witness :
  let s' := (destroy quiet (started, [])).2 in
  (forall ch, has_channel ch s'.1 = false) /\
  initialized s'.1 = false /\
  watchOwner s'.1 = true.
Proof.
  assert (Hrun : destroy quiet (started, [])
                 = (Return tt, (destroy quiet (started, [])).2))
    by (vm_compute; reflexivity).
  destruct (TeardownFacts.destroy_closes_what_was_open quiet (started, [])
              (destroy quiet (started, [])).2 Hrun)
    as (H1 & H2 & _ & H4 & _).
  split; [exact H1|]. split; [exact H2|]. rewrite H4. vm_compute. reflexivity.
Defined.

(** X9: destroying the started queue when the server has gone away. *)
Lemma destroy_rejects_witness :
  (destroy unreachable (started, [])).1 = Throw (Error "Connection lost") /\
  writer (destroy unreachable (started, [])).2.1 = true.
Proof.
  assert (Hw : writer (started, @nil closing).1 = true)
    by (vm_compute; reflexivity).
  destruct (TeardownFacts.destroy_rejects_when_clear_fails unreachable
              (started, []) (Error "Connection lost") Hw (or_introl eq_refl))
    as (H1 & H2 & _).
  split; [exact H1|exact H2].
Defined.

(** X14: the reader of the started queue pops two envelopes and is then
    closed. *)
Lemma readUnsafe_witness :
  exists q' t,
    readUnsafe two_then_closed 5 started = (Return true, q') /\
    trace q' = trace started ++ t /\
    events t
    = [message_event (Some (JNum 1)) (Some (JStr "id-1")) (Some (JStr "B"));
       message_event (Some (JStr "two")) (Some (JStr "id-2")) (Some (JStr "C"))].
Proof.
  assert (Hr : reader started = true) by (vm_compute; reflexivity).
  assert (Hpops : forall j id message from,
            inbox !! j = Some (id, message, from) ->
            let x := envelope id message from in
            two_then_closed j
            = Return (Some (key started,
                            Codec.select_pack (useGzip (options started)) x)) /\
            Codec.json_representable x /\
            (useGzip (options started) = true ->
             Codec.gzip_faithful (JSON_stringify x))).
  { intros j id message from Hj.
    destruct j as [|[|j]]; cbn in Hj; [| |discriminate];
      injection Hj as <- <- <-;
      (split; [vm_compute; reflexivity|]);
      (split; [vm_compute; reflexivity|]);
      intros H; vm_compute in H; discriminate. }
  assert (Hfuel : (length inbox < 5)%nat) by (cbn; lia).
  destruct (ReadingFacts.readUnsafe_delivers_in_order two_then_closed
              (Error "Stream connection ended") inbox 5 started
              Hr Hpops eq_refl Hfuel)
    as (q' & t & Hrun & Htrace & _ & Hevents).
  exists q', t. split; [exact Hrun|]. split; [exact Htrace|exact Hevents].
Defined.

(** X16: the beacon of the delayed message the started queue sent to
    ["Q"] expires. *)
Lemma delayed_send_witness :
  commands
    (drop (length (trace started))
       (trace (on_pmessage quiet ["pat"; "chan"; "imq:Q:uuid-0:ttl"] started).2))
  = [(Writer, Redis.EVALSHA "sha1:300" ["imq:Q:delayed"; "imq:Q"] 1000)].
Proof.
  assert (Hw : writer started = true) by (vm_compute; reflexivity).
  assert (Hdelay : 500 <> 0) by lia.
  assert (Hsum : checksum started = Some "sha1:300")
    by (vm_compute; reflexivity).
  assert (Hid : JsString.free_of colon (uuid (uuids started)) = true)
    by (vm_compute; reflexivity).
  exact (proj2 (proj2 (proj2
           (DelayFacts.delayed_send_is_promoted_on_expiry quiet quiet
              started started "Q" (JNum 5) 500 false "pat" "chan" "sha1:300"
              Hw Hdelay (ex_intro _ Redis.ROk eq_refl) Hid Hw Hsum)))).
Defined.

End Instances.

(** ** Watcher ownership comes from the lock *)

Module OwnershipFacts.
Import JsFacts Queue Frame Connections WatcherFacts Walking.

Lemma grown_refl q : grown q q [].
Proof. repeat split; [rewrite app_nil_r; reflexivity|cbn; lia]. Qed.

Lemma grown_trans q1 q2 q3 t1 t2 :
  grown q1 q2 t1 -> grown q2 q3 t2 -> grown q1 q3 (t1 ++ t2).
Proof.
  intros (Ho1 & Ht1 & Hs1) (Ho2 & Ht2 & Hs2).
  split; [congruence|]. split.
  - rewrite Ht2, Ht1, <- app_assoc. reflexivity.
  - rewrite DeliveryFacts.commands_app, length_app. lia.
Qed.

Lemma carries_on_refl q : carries_on q q.
Proof. exists []. apply grown_refl. Qed.

Lemma carries_on_trans q1 q2 q3 :
  carries_on q1 q2 -> carries_on q2 q3 -> carries_on q1 q3.
Proof.
  intros [t1 H1] [t2 H2]. exists (t1 ++ t2). eapply grown_trans; eassumption.
Qed.

Lemma keeps_marks_refl q : keeps_marks q q.
Proof. split; [apply carries_on_refl|split; reflexivity]. Qed.

Lemma keeps_marks_trans q1 q2 q3 :
  keeps_marks q1 q2 -> keeps_marks q2 q3 -> keeps_marks q1 q3.
Proof.
  intros (Hc1 & Ho1 & Hk1) (Hc2 & Ho2 & Hk2).
  split; [eapply carries_on_trans; eassumption|split; congruence].
Qed.

Lemma keeps_marks_carries_on q q' : keeps_marks q q' -> carries_on q q'.
Proof. intros [H _]. exact H. Qed.

(** A field update that leaves options, trace and counter alone. *)
Lemma grown_field (g : RedisQueue -> RedisQueue) q :
  options (g q) = options q -> trace (g q) = trace q ->
  sent (g q) = sent q -> carries_on q (g q).
Proof.
  intros Ho Ht Hs. exists []. repeat split;
    [exact Ho|rewrite app_nil_r; exact Ht|cbn; lia].
Qed.

Section WithRuntime.
Context {rt : JsRuntime} (env : Env).

Lemma owns_by_lock_refl q : owns_by_lock env q q.
Proof. exists []. split; [apply grown_refl|]. intros H. left. exact H. Qed.

Lemma owns_by_lock_trans q1 q2 q3 :
  owns_by_lock env q1 q2 -> owns_by_lock env q2 q3 -> owns_by_lock env q1 q3.
Proof.
  intros (t1 & Hg1 & H1) (t2 & Hg2 & H2). exists (t1 ++ t2).
  split; [eapply grown_trans; eassumption|].
  destruct Hg1 as (Ho1 & Ht1 & Hs1).
  intros Hm. destruct (H2 Hm) as [Hm2|(i & r & Hi & Hnet & Hr)].
  - destruct (H1 Hm2) as [Hm1|(i & r & Hi & Hnet & Hr)];
      [left; exact Hm1|right].
    exists i, r. split; [|split; assumption].
    rewrite DeliveryFacts.commands_app. apply lookup_app_l_Some. exact Hi.
  - right. exists (length (commands t1) + i)%nat, r.
    unfold lockKey in *. rewrite Ho1 in *.
    split; [|split; [|exact Hr]].
    + rewrite DeliveryFacts.commands_app, lookup_app_r by lia.
      replace (length (commands t1) + i - length (commands t1))%nat
        with i by lia.
      exact Hi.
    + rewrite Nat.add_assoc, <- Hs1. exact Hnet.
Qed.

Lemma keeps_marks_owns_by_lock q q' : keeps_marks q q' -> owns_by_lock env q q'.
Proof.
  intros ([t Hg] & Ho & Hk). exists t. split; [exact Hg|].
  intros Hm. left. unfold marked in *. rewrite <- Ho, <- Hk. exact Hm.
Qed.

(** *** What leaves the marks alone *)

(** An effect that is not a command. *)
Lemma kept_effect e : is_send e = false -> respects keeps_marks (effect_ e).
Proof.
  intros He q. split; [|split; reflexivity]. exists [e].
  repeat split. destruct e; try discriminate; cbn; lia.
Qed.

Lemma kept_sent ch c q :
  keeps_marks q
    (set_trace (trace (set_sent (S (sent q)) q) ++ [Send ch c])
       (set_sent (S (sent q)) q)).
Proof.
  split; [|split; reflexivity]. exists [Send ch c]. repeat split. cbn. lia.
Qed.

Lemma kept_call ch c : respects keeps_marks (call env ch c).
Proof.
  intros q. unfold call, bind, gets, modify, effect_, ret, throw.
  destruct (has_channel ch q); cbn [negb snd]; [|apply keeps_marks_refl].
  destruct (net env (sent q) c); apply kept_sent.
Qed.

Lemma kept_cast ch c : respects keeps_marks (cast ch c).
Proof.
  intros q. unfold cast, bind, gets, modify, effect_, ret, throw.
  destruct (has_channel ch q); cbn [negb snd]; [|apply keeps_marks_refl].
  apply kept_sent.
Qed.

Lemma kept_call_cb ch c cb :
  (forall o, respects keeps_marks (cb o)) ->
  respects keeps_marks (call_cb env ch c cb).
Proof.
  intros Hcb q. unfold call_cb. unfold bind at 1, gets at 1. cbv beta iota.
  destruct (has_channel ch q); cbn [negb]; [|apply keeps_marks_refl].
  unfold bind at 1, gets at 1. cbv beta iota.
  unfold bind at 1, modify at 1. cbv beta iota.
  unfold bind at 1, effect_ at 1, modify at 1. cbv beta iota.
  eapply keeps_marks_trans;
    [apply kept_sent|destruct (net env (sent q) c); apply Hcb].
Qed.

Ltac kept_field :=
  apply respects_modify; intros ?;
  (split; [apply grown_field; reflexivity|split; reflexivity]).

Ltac kept_leaf :=
  first [ apply kept_effect; reflexivity | apply kept_call | apply kept_cast
        | kept_field ].

Ltac kept_walk leaf :=
  repeat respects_step keeps_marks keeps_marks_refl keeps_marks_trans
    ltac:(first [ kept_leaf | leaf ]).

Ltac kept_all :=
  repeat first
    [ apply kept_call_cb; intros ?
    | respects_step keeps_marks keeps_marks_refl keeps_marks_trans
        ltac:(kept_leaf) ].

Lemma kept_emit e : respects keeps_marks (emit e).
Proof. unfold emit, this. destruct e; kept_walk fail. Qed.

Lemma kept_log l w : respects keeps_marks (log l w).
Proof. apply kept_effect. reflexivity. Qed.

Lemma kept_connect ch : respects keeps_marks (connect env ch).
Proof.
  pose proof kept_log as Hl.
  unfold connect.
  kept_walk ltac:(first
    [ apply Hl
    | apply respects_modify; intros ?; destruct ch;
      (split; [apply grown_field; reflexivity|split; reflexivity]) ]).
Qed.

Lemma kept_watcherCount : respects keeps_marks (watcherCount env).
Proof. unfold watcherCount, this. kept_walk fail. Qed.

Lemma kept_processDelayed k : respects keeps_marks (processDelayed env k).
Proof. unfold processDelayed. kept_walk fail. Qed.

Lemma kept_watch : respects keeps_marks watch.
Proof.
  pose proof kept_emit as He. pose proof kept_log as Hl.
  unfold watch, this. kept_walk ltac:(first [apply He|apply Hl]).
Qed.

Lemma kept_read : respects keeps_marks read.
Proof.
  pose proof kept_log as Hl. unfold read, this. kept_walk ltac:(apply Hl).
Qed.

Lemma kept_isLocked : respects keeps_marks (isLocked env).
Proof. unfold isLocked, this. kept_walk fail. Qed.

Lemma kept_unlock : respects keeps_marks (unlock env).
Proof. unfold unlock, this. kept_walk fail. Qed.

(** *** The owner's path, after the lock was won *)

Ltac carried_walk :=
  repeat respects_step carries_on carries_on_refl carries_on_trans
    ltac:(first
      [ apply (respects_weaken keeps_marks carries_on _
                 keeps_marks_carries_on);
        first [ apply kept_emit | apply kept_log | apply kept_call
              | apply kept_cast | apply kept_connect | apply kept_watch ]
      | apply respects_modify; intros ?; apply grown_field; reflexivity ]).

Lemma carried_load_script : respects carries_on (load_script env).
Proof. unfold load_script. carried_walk. Qed.

Lemma carried_owner_path :
  respects carries_on
    (bind (load_script env) (fun _ =>
     bind (modify (set_watchOwner true)) (fun _ =>
     bind (connect env Watcher) (fun _ => watch)))).
Proof.
  apply (respects_bind _ carries_on_trans); [apply carried_load_script|].
  intros _. carried_walk.
Qed.

(** *** The election *)

Lemma owned_ownWatch : respects (owns_by_lock env) (ownWatch env).
Proof.
  intros q. unfold ownWatch, lock. unfold bind at 1. unfold bind at 1.
  unfold this at 1, gets at 1. cbv beta iota. unfold bind at 1.
  pose proof (kept_call Writer (Redis.SETNX (lockKey q) "") q) as Hk.
  unfold call in *. unfold bind at 1 in Hk. unfold bind at 1.
  unfold gets at 1 in Hk. unfold gets at 1. cbv beta iota in *.
  destruct (has_channel Writer q) eqn:Hw; cbn [negb] in *;
    [|apply owns_by_lock_refl].
  unfold bind at 1 in Hk. unfold bind at 1.
  unfold gets at 1 in Hk. unfold gets at 1. cbv beta iota in *.
  unfold bind at 1 in Hk. unfold bind at 1.
  unfold modify at 1 in Hk. unfold modify at 1. cbv beta iota in *.
  unfold bind at 1 in Hk. unfold bind at 1.
  unfold effect_ at 1, modify at 1 in Hk. unfold effect_ at 1, modify at 1.
  cbv beta iota in *.
  destruct (net env (sent q) (Redis.SETNX (lockKey q) "")) as [r|e] eqn:Hnet;
    cbn [snd ret throw] in *;
    [|apply keeps_marks_owns_by_lock; exact Hk].
  unfold ret at 1. cbv beta iota.
  destruct (reply_truthy r) eqn:Hr;
    [|apply keeps_marks_owns_by_lock; exact Hk].
  match goal with
  | |- owns_by_lock env q (?k ?s).2 =>
      pose proof (carried_owner_path s) as [t2 Hg2];
      pose proof (kept_sent Writer (Redis.SETNX (lockKey q) "") q) as Hg1
  end.
  destruct Hg1 as ([t1 Hg1] & _).
  exists ([Send Writer (Redis.SETNX (lockKey q) "")] ++ t2).
  split.
  - eapply grown_trans; [|exact Hg2].
    repeat split. cbn. lia.
  - intros _. right. exists 0%nat, r.
    split; [reflexivity|]. rewrite Nat.add_0_r. split; assumption.
Qed.

Ltac owned_leaf :=
  first
    [ apply owned_ownWatch
    | assumption
    | apply (respects_weaken keeps_marks (owns_by_lock env) _
               keeps_marks_owns_by_lock);
      first [ apply kept_emit | apply kept_log | apply kept_call
            | apply kept_cast | apply kept_connect | apply kept_watch
            | apply kept_read | apply kept_watcherCount
            | apply kept_processDelayed | apply kept_isLocked
            | apply kept_unlock | apply kept_effect; reflexivity
            | kept_field ] ].

Ltac owned_walk :=
  repeat respects_step (owns_by_lock env) owns_by_lock_refl owns_by_lock_trans
    ltac:(owned_leaf).

Lemma owned_initWatcher : respects (owns_by_lock env) (initWatcher env).
Proof. unfold initWatcher, this. owned_walk. Qed.

Lemma owned_start : respects (owns_by_lock env) (start env).
Proof.
  pose proof owned_initWatcher as Hi.
  unfold start, this. owned_walk.
Qed.

Lemma owned_send toQueue message delay eh :
  respects (owns_by_lock env) (send env toQueue message delay eh).
Proof.
  pose proof owned_start as Hs.
  unfold send, this.
  repeat first
    [ solve [ apply (respects_weaken keeps_marks (owns_by_lock env) _
                       keeps_marks_owns_by_lock); kept_all ]
    | respects_step (owns_by_lock env) owns_by_lock_refl owns_by_lock_trans
        ltac:(assumption) ].
Qed.


End WithRuntime.
End OwnershipFacts.
